(** * Kinds, types and substitutions of the mangekyou core, and the
      kaleidoscope lexer/parser front end.

    The first half embeds [src/core/type.hpp]; the second half embeds
    [syntax/parser.cpp].  Functions whose bodies are only declared in the
    headers are modelled from the specification and say so in their doc
    comment. *)

From Stdlib Require Import ZArith String Ascii List Lia Bool.
From stdpp Require Import base option list gmap strings fin_maps.

Local Open Scope Z_scope.

(* ===================================================================== *)
(** ** Part I: [src/core/type.hpp] *)
(* ===================================================================== *)

(** Modelled from the spec: [name::Id] lives in [name.hpp], which is not
    part of the sources; the spec writes identifiers as names
    ([Con("Int", Star)]), so an identifier is a string. *)
Abbreviation Id := string.

(** [struct Kind : std::variant<KStar, KArr>]; [KArr] holds two shared
    pointers to immutable kinds, which are plain subterms here. *)
Inductive Kind : Set :=
| KStar
| KArr (lhs rhs : Kind).

(** [Kind::is<T>()], i.e. [std::holds_alternative<T>]. *)
Definition is_KStar (k : Kind) : bool :=
  match k with KStar => true | KArr _ _ => false end.
Definition is_KArr (k : Kind) : bool :=
  match k with KArr _ _ => true | KStar => false end.

(** [std::get<T>(k)]: [None] stands for [std::bad_variant_access]. *)
Definition get_KStar (k : Kind) : option unit :=
  match k with KStar => Some tt | KArr _ _ => None end.
Definition get_KArr (k : Kind) : option (Kind * Kind) :=
  match k with KArr l r => Some (l, r) | KStar => None end.

(** [KStar::is_equal(const KStar&)]: any two star kinds are equal. *)
Definition KStar_is_equal (_ _ : unit) : bool := true.

(** Modelled from the spec: the bodies of [KArr::is_equal] and of
    [Kind::operator==] are not in the header.  The spec says: structural
    equality; [Star == Star] is true; [Arrow] compares both sides
    recursively; cross-variant is false. *)
Fixpoint Kind_eq (a b : Kind) : bool :=
  match a, b with
  | KStar, KStar => KStar_is_equal tt tt
  | KArr l1 r1, KArr l2 r2 => Kind_eq l1 l2 && Kind_eq r1 r2
  | _, _ => false
  end.

(** [KArr::is_equal], on the fields of the two arrows. *)
Definition KArr_is_equal (a b : Kind * Kind) : bool :=
  Kind_eq (fst a) (fst b) && Kind_eq (snd a) (snd b).

(** [Kind::operator!=]. *)
Definition Kind_neq (a b : Kind) : bool := negb (Kind_eq a b).

(** [struct TyVar { Id id; Kind _kind; }] *)
Record TyVar : Set := mkTyVar { id : Id; _kind : Kind }.

(** [struct Type : std::variant<TyVar, TyCon, TyApp, TyGen>]; the fields of
    each alternative are the constructor's arguments.  [TyGen::i] is an
    [i32]. *)
Inductive Ty : Set :=
| Var (i : Id) (k : Kind)
| Con (i : Id) (k : Kind)
| App (lhs rhs : Ty)
| Gen (i : Z).

Definition is_TyVar (t : Ty) : bool := match t with Var _ _ => true | _ => false end.
Definition is_TyCon (t : Ty) : bool := match t with Con _ _ => true | _ => false end.
Definition is_TyApp (t : Ty) : bool := match t with App _ _ => true | _ => false end.
Definition is_TyGen (t : Ty) : bool := match t with Gen _ => true | _ => false end.

(** The macro [FALLTHROUGH_TYPE(f)]: four successive tests, each returning
    the active alternative's [f()].  [None] is the control path that leaves
    the macro without returning (or a [std::get] that throws). *)
Definition FALLTHROUGH_TYPE {A : Type} (t : Ty)
    (fVar : Id -> Kind -> A) (fCon : Id -> Kind -> A)
    (fApp : Ty -> Ty -> A) (fGen : Z -> A) : option A :=
  if is_TyVar t then
    match t with Var i k => Some (fVar i k) | _ => None end
  else if is_TyCon t then
    match t with Con i k => Some (fCon i k) | _ => None end
  else if is_TyApp t then
    match t with App l r => Some (fApp l r) | _ => None end
  else if is_TyGen t then
    match t with Gen i => Some (fGen i) | _ => None end
  else None.

(** Modelled from the spec: the failures of the core (section 7): the four
    diagnosable unification failures, which a caller may report as a type
    error, and the invariant-violation failure, which is not recoverable. *)
Inductive UnifyFailure : Set :=
| OccursCheckError
| KindMismatchError
| ConstructorMismatchError
| UnifyError.

Inductive Failure : Set :=
| Recoverable (e : UnifyFailure)
| InvariantViolation.

Inductive Result (A : Type) : Type :=
| Ok (a : A)
| Fail (f : Failure).
Arguments Ok {A} a.
Arguments Fail {A} f.

(** Modelled from the spec: [TyVar::kind] and [TyCon::kind] return the
    stored kind. *)
Definition TyVar_kind (i : Id) (k : Kind) : Result Kind := Ok k.
Definition TyCon_kind (i : Id) (k : Kind) : Result Kind := Ok k.

(** Modelled from the spec: [TyApp::kind] returns the result-kind component
    of [lhs.kind()], which must be an arrow; anything else is an invariant
    violation.  The argument is the outcome of [lhs->kind()]. *)
Definition TyApp_kind (lhs_kind : option (Result Kind)) : option (Result Kind) :=
  match lhs_kind with
  | Some (Ok (KArr _ res)) => Some (Ok res)
  | Some (Ok KStar) => Some (Fail InvariantViolation)
  | Some (Fail f) => Some (Fail f)
  | None => None
  end.

(** Modelled from the spec: [TyGen::kind] is declared without a body.  A
    [TyGen] holds nothing but its index and [kind()] takes no argument, so
    what it answers cannot be read off the term: it is a parameter, which
    gives the kind recorded for an index, or none.  No kind is the
    invariant violation, the only failure 4.2 gives [kind()]. *)
Class GenKinds := { recorded_kind : Z -> option Kind }.

Definition TyGen_kind `{GenKinds} (i : Z) : Result Kind :=
  match recorded_kind i with
  | Some k => Ok k
  | None => Fail InvariantViolation
  end.

(** [Type::kind()]: [FALLTHROUGH_TYPE(kind)]. *)
Fixpoint kind `{GenKinds} (t : Ty) : option (Result Kind) :=
  mjoin (FALLTHROUGH_TYPE t
    (fun i k => Some (TyVar_kind i k))
    (fun i k => Some (TyCon_kind i k))
    (fun l _ => TyApp_kind (kind l))
    (fun i => Some (TyGen_kind i))).

(** No kind is recorded for any index: a [Gen] outside every scheme. *)
Definition no_scheme : GenKinds := {| recorded_kind := fun _ => None |}.

(** The per-variant renderers [KStar::to_string], [KArr::to_string],
    [TyVar::to_string], [TyCon::to_string], [TyApp::to_string] and
    [TyGen::to_string] are declared in the header and defined elsewhere;
    they are parameters of the two dispatchers below.  Each takes the fields
    of its alternative. *)
Class VariantPrinters := {
  KStar_to_string : string;
  KArr_to_string : Kind -> Kind -> string;
  TyVar_to_string : Id -> Kind -> string;
  TyCon_to_string : Id -> Kind -> string;
  TyApp_to_string : Ty -> Ty -> string;
  TyGen_to_string : Z -> string
}.

(** [Kind::to_string()]: the hand-written two-way dispatch.  The result is
    [None] when a [std::get] on the wrong alternative would throw. *)
Definition Kind_to_string `{VariantPrinters} (k : Kind) : option string :=
  if is_KStar k then
    (fun _ => KStar_to_string) <$> get_KStar k
  else
    (fun '(l, r) => KArr_to_string l r) <$> get_KArr k.

(** [Type::to_string()]: [FALLTHROUGH_TYPE(to_string)]. *)
Definition Type_to_string `{VariantPrinters} (t : Ty) : option string :=
  FALLTHROUGH_TYPE t TyVar_to_string TyCon_to_string TyApp_to_string TyGen_to_string.

(** *** Free variables *)

(** Modelled from the spec: [TyVar::operator==] compares identifiers only;
    the kind is metadata. *)
Definition TyVar_eq (a b : TyVar) : bool := String.eqb (id a) (id b).

(** Modelled from the spec: [Type::tv()] ([free_vars()] in the spec)
    collects the [Var] occurrences of the term, each once, in order of first
    occurrence. *)
Fixpoint tv (t : Ty) : list TyVar :=
  match t with
  | Var i k => [mkTyVar i k]
  | App l r =>
      let seen := tv l in
      seen ++ List.filter (fun v => negb (existsb (TyVar_eq v) seen)) (tv r)
  | Con _ _ | Gen _ => []
  end.

(** [a ∈ t.free_vars()], the occurs check. *)
Definition occurs (a : Id) (t : Ty) : bool :=
  existsb (fun v => String.eqb (id v) a) (tv t).

(** *** Substitutions *)

(** Modelled from the spec: [tc::Subst] is only forward-declared; the spec
    makes it a finite mapping from type-variable identifier to type term. *)
Abbreviation Subst := (gmap string Ty).

(** [empty()] and [singleton(id, type)]. *)
Definition empty_subst : Subst := ∅.
Definition singleton_subst (a : Id) (t : Ty) : Subst := {[ a := t ]}.

(** Modelled from the spec: [Type::apply(const tc::Subst&)] is declared
    without a body.  The spec: every [Var] whose id is in [sub] is replaced
    by its mapped type, and [sub] is applied to the replacement too;
    [Con] and [Gen] are unaffected; [App] recurses into both sides.
    Re-applying to the replacement need not terminate (take [a ↦ a]), so
    the recursion depth is bounded by [fuel] and [None] means that the
    bound was reached. *)
Fixpoint apply (fuel : nat) (sub : Subst) (t : Ty) : option Ty :=
  match fuel with
  | O => None
  | S n =>
      match t with
      | Var i _ =>
          match sub !! i with
          | Some r => apply n sub r
          | None => Some t
          end
      | Con _ _ | Gen _ => Some t
      | App l r =>
          l' ← apply n sub l;
          r' ← apply n sub r;
          Some (App l' r')
      end
  end.

(** Modelled from the spec: [compose(outer, inner)] maps each variable [v]
    of [inner]'s domain to [inner[v].apply(outer)], then adds every mapping
    of [outer] whose key is not already present.  It has a result only if
    every one of these applications has. *)
Definition compose (fuel : nat) (outer inner : Subst) : option Subst :=
  let applied : gmap string (option Ty) := apply fuel outer <$> inner in
  if bool_decide (map_Forall (fun _ o => is_Some o) applied)
  then Some (omap (fun o => o) applied ∪ outer)
  else None.

(** *** Unification *)

(** Modelled from the spec: the [Var(a), t] case of [unify]: the occurs
    check, then the kind check, then the singleton.  A failure of
    [t.kind()] is the failure of the call. *)
Definition bind_var `{GenKinds} (a : Id) (ka : Kind) (t : Ty) : option (Result Subst) :=
  if occurs a t then Some (Fail (Recoverable OccursCheckError))
  else
    match kind t with
    | Some (Ok kt) =>
        if Kind_neq ka kt then Some (Fail (Recoverable KindMismatchError))
        else Some (Ok (singleton_subst a t))
    | Some (Fail f) => Some (Fail f)
    | None => None
    end.

(** Modelled from the spec: [unify(t1, t2)] is not in the sources.  A
    [Gen] on either side fails with [UnifyError] whatever the other side
    is (4.4: a [Gen] must never reach the unifier; 7: any [Gen] that does
    is a [UnifyError]).  The other cases are those of section 4.4, tried in
    the order in which the spec lists them, the direct reading of a case
    before the symmetric one; [None] means that [fuel] ran out. *)
Fixpoint unify `{GenKinds} (fuel : nat) (t1 t2 : Ty) : option (Result Subst) :=
  match fuel with
  | O => None
  | S n =>
      match t1, t2 with
      | Gen _, _ | _, Gen _ => Some (Fail (Recoverable UnifyError))
      | Var a ka, Var b _ =>
          if String.eqb a b then Some (Ok empty_subst) else bind_var a ka t2
      | Var a ka, _ => bind_var a ka t2
      | _, Var a ka => bind_var a ka t1
      | Con a _, Con b _ =>
          if String.eqb a b then Some (Ok empty_subst)
          else Some (Fail (Recoverable ConstructorMismatchError))
      | App l1 r1, App l2 r2 =>
          match unify n l1 l2 with
          | Some (Ok s1) =>
              r1' ← apply n s1 r1;
              r2' ← apply n s1 r2;
              match unify n r1' r2' with
              | Some (Ok s2) => Ok <$> compose n s2 s1
              | other => other
              end
          | other => other
          end
      | _, _ => Some (Fail (Recoverable UnifyError))
      end
  end.


(** *** Auxiliary notions for the substitution laws *)

(** Structural occurrence of a variable identifier in a term. *)
Fixpoint occ (a : Id) (t : Ty) : Prop :=
  match t with
  | Var i _ => i = a
  | App l r => occ a l \/ occ a r
  | Con _ _ | Gen _ => False
  end.


(** One pass of a substitution, with no re-application to the
    replacement.  [apply] agrees with it on substitutions whose range
    mentions no variable of their domain. *)
Fixpoint apply_once (sub : Subst) (t : Ty) : Ty :=
  match t with
  | Var i _ => default t (sub !! i)
  | App l r => App (apply_once sub l) (apply_once sub r)
  | Con _ _ | Gen _ => t
  end.

(** The substitution [compose] builds when every application in it is a
    single pass. *)
Definition composed (outer inner : Subst) : Subst :=
  (apply_once outer <$> inner) ∪ outer.


(** No type in the range of [sub] mentions a variable of [d]. *)
Definition range_avoids (sub : Subst) (d : gset string) : Prop :=
  map_Forall (fun _ r => Forall (fun v => id v ∉ d) (tv r)) sub.

#[global] Instance range_avoids_dec sub d : Decision (range_avoids sub d).
Proof. unfold range_avoids. apply _. Defined.



(* ===================================================================== *)
(** ** Part II: [syntax/parser.cpp] *)
(* ===================================================================== *)

(** *** Characters *)

(** [EOF] of the C library. *)
Definition EOF : Z := -1.

(** The character classes of [<cctype>] in the default "C" locale; their
    argument is an [int] that holds an [unsigned char] value or [EOF]. *)
Definition isspace (c : Z) : bool := (c =? 32) || ((9 <=? c) && (c <=? 13)).
Definition isdigit (c : Z) : bool := (48 <=? c) && (c <=? 57).
Definition isalpha (c : Z) : bool :=
  ((65 <=? c) && (c <=? 90)) || ((97 <=? c) && (c <=? 122)).
Definition isalnum (c : Z) : bool := isalpha c || isdigit c.
Definition isascii (c : Z) : bool := (0 <=? c) && (c <=? 127).

(** [std::char_traits<char>::to_int_type]: the byte as a value in
    [0..255]. *)
Definition to_int_type (c : ascii) : Z := Z.of_N (N_of_ascii c).

(** Conversion of an [int] to [char], which is taken to be signed (as on
    x86-64): the value modulo 256, in [-128..127]. *)
Definition to_char (z : Z) : Z :=
  let m := z mod 256 in if m <? 128 then m else m - 256.

(** The byte a [char] value puts into a [std::string]. *)
Definition char_byte (z : Z) : ascii := ascii_of_N (Z.to_N (z mod 256)).

(** [str += c] for a [std::string] and an [int] or [char] [c]. *)
Definition push_back (str : string) (c : Z) : string :=
  (str ++ String (char_byte c) EmptyString)%string.

(** *** [std::istream] over a byte buffer *)

(** The stream is a byte sequence, a read position and the three state
    bits; the buffer allows putting back what was read from it. *)
Record istream : Set := mkIstream {
  data : list ascii;
  pos : nat;
  eofbit : bool;
  failbit : bool;
  badbit : bool
}.

Definition good (s : istream) : bool := negb (eofbit s || failbit s || badbit s).

Definition set_eofbit (b : bool) (s : istream) : istream :=
  mkIstream (data s) (pos s) b (failbit s) (badbit s).
Definition set_failbit (s : istream) : istream :=
  mkIstream (data s) (pos s) (eofbit s) true (badbit s).
Definition set_badbit (s : istream) : istream :=
  mkIstream (data s) (pos s) (eofbit s) (failbit s) true.
Definition set_pos (p : nat) (s : istream) : istream :=
  mkIstream (data s) p (eofbit s) (failbit s) (badbit s).

(** [peek()]: on a stream that is not good, sets [failbit] and returns
    [EOF]; at the end of the data, sets [eofbit] and returns [EOF];
    otherwise returns the next byte without consuming it. *)
Definition peek (s : istream) : Z * istream :=
  if good s then
    match data s !! pos s with
    | Some c => (to_int_type c, s)
    | None => (EOF, set_eofbit true s)
    end
  else (EOF, set_failbit s).

(** [get()]: like [peek], but consumes the byte; at the end of the data it
    sets [eofbit] and [failbit]. *)
Definition get (s : istream) : Z * istream :=
  if good s then
    match data s !! pos s with
    | Some c => (to_int_type c, set_pos (S (pos s)) s)
    | None => (EOF, set_failbit (set_eofbit true s))
    end
  else (EOF, set_failbit s).

(** [unget()] (since C++11): clears [eofbit] first; then, on a stream that
    has failed, sets [failbit]; otherwise steps back one byte, or sets
    [badbit] when there is none before the position. *)
Definition unget (s : istream) : istream :=
  let s1 := set_eofbit false s in
  if good s1 then
    match pos s1 with
    | O => set_badbit s1
    | S p => set_pos p s1
    end
  else set_failbit s1.

(** [eof()] *)
Definition eof (s : istream) : bool := eofbit s.

(** Bytes not yet read. *)
Definition remaining (s : istream) : nat := (length (data s) - pos s)%nat.

(** [bool is_space(std::istream& src)]: handles the unbreakable space
    [0xC2 0xA0]. *)
Definition is_space (s : istream) : bool * istream :=
  let '(c1, s1) := peek s in
  if isspace c1 then (true, s1)
  else
    let '(c2, s2) := peek s1 in
    if negb (c2 =? 194) then (false, s2)
    else
      let '(_, s3) := get s2 in
      let '(c4, s4) := peek s3 in
      if c4 =? 160 then (true, s4)
      else (false, unget s4).

(** *** What [parser.hpp], [ast.hpp] and [utils/format.hpp] declare *)

(** The headers are not among the sources.  The token codes of the [enum],
    the [Span] class with the members the parser uses, [double] with
    [strtod], and [format] applied to one [int] are parameters. *)
Class ParserHpp : Type := {
  tok_eof : Z;
  tok_fn : Z;
  tok_extern : Z;
  tok_identifier : Z;
  tok_number : Z;
  tok_op : Z;
  tok_let : Z;
  Span : Type;
  Span_new : string -> Z -> Z -> Z -> Span;
  span_begin : Span -> Z;
  span_set_begin : Z -> Span -> Span;
  span_set_end : Z -> Span -> Span;
  span_newline : Span -> Span;
  span_next : Span -> Span;
  span_mkfrom : Span -> Z -> Span;
  span_rangeFrom : Span -> Span -> Span;
  double : Type;
  strtod : string -> double;
  format_d : string -> Z -> string
}.

(** The enumerators serve as [case] labels of one [switch] in
    [tok_to_string], so they are pairwise distinct; [get_token_prec] and
    [tok_to_string] tell them from character tokens, which the lexer makes
    from a [char]: they are taken to be negative, as in the Kaleidoscope
    tutorial this parser follows. *)
Definition token_codes_ok `{ParserHpp} : bool :=
  bool_decide (NoDup [tok_eof; tok_fn; tok_extern; tok_identifier; tok_number;
                      tok_op; tok_let])
  && forallb (fun c => c <? 0)
       [tok_eof; tok_fn; tok_extern; tok_identifier; tok_number; tok_op; tok_let].

Section Parser.
Context `{ParserHpp}.

(** [struct Token { int type; std::string lexeme; Span span; }] *)
Record Token : Type := mkToken {
  type : Z;
  lexeme : string;
  tok_span : Span
}.

(** The expression nodes of [ast.hpp] that the parser builds. *)
#[warnings="-register-all"]
Inductive Expr : Type :=
| NumberExpr (val : double) (sp : Span)
| VariableExpr (name : string) (sp : Span)
| CallExpr (callee : string) (args : list Expr) (sp : Span)
| BinaryExpr (op : Z) (lhs rhs : Expr) (sp : Span).

(** [Expr::span] *)
Definition expr_span (e : Expr) : Span :=
  match e with
  | NumberExpr _ sp | VariableExpr _ sp | CallExpr _ _ sp | BinaryExpr _ _ _ sp => sp
  end.

(** [AST::Stmt]: the only statements the parser can hand out are
    expressions. *)
Inductive Stmt : Type :=
| ExprStmt (e : Expr).

(** What a member function of [class Parser] works on: the members, the
    precedence table [binop_prec] (its declaration is in [parser.hpp],
    which is not among the sources), the stream [src] refers to, and the
    process's standard error. *)
Record State : Type := mkState {
  _buffer : list Token;
  src : istream;
  span : Span;
  cur_token : option Token;
  binop_prec : gmap Z Z;
  stderr : list string
}.

Definition set_buffer (b : list Token) (st : State) : State :=
  mkState b (src st) (span st) (cur_token st) (binop_prec st) (stderr st).
Definition set_src (s : istream) (st : State) : State :=
  mkState (_buffer st) s (span st) (cur_token st) (binop_prec st) (stderr st).
Definition set_span (sp : Span) (st : State) : State :=
  mkState (_buffer st) (src st) sp (cur_token st) (binop_prec st) (stderr st).
Definition set_cur_token (t : option Token) (st : State) : State :=
  mkState (_buffer st) (src st) (span st) t (binop_prec st) (stderr st).
Definition set_binop_prec (m : gmap Z Z) (st : State) : State :=
  mkState (_buffer st) (src st) (span st) (cur_token st) m (stderr st).
Definition set_stderr (l : list string) (st : State) : State :=
  mkState (_buffer st) (src st) (span st) (cur_token st) (binop_prec st) l.

(** A member function either returns a value and a new state, or has
    undefined behaviour (a null [cur_token] dereferenced, [back()] of an
    empty buffer), or has not returned within the fuel. *)
Inductive Outcome (A : Type) : Type :=
| Done (a : A) (st : State)
| Undefined
| OutOfFuel.
Arguments Done {A} a st.
Arguments Undefined {A}.
Arguments OutOfFuel {A}.

Definition M (A : Type) : Type := State -> Outcome A.

Definition ret {A : Type} (a : A) : M A := fun st => Done a st.

Definition bind {A B : Type} (m : M A) (k : A -> M B) : M B :=
  fun st =>
    match m st with
    | Done a st' => k a st'
    | Undefined => Undefined
    | OutOfFuel => OutOfFuel
    end.

Notation "x <- m ;; k" := (bind m (fun x => k))
  (at level 100, m at next level, right associativity).
Notation "m ;;; k" := (bind m (fun _ => k))
  (at level 100, right associativity).

Definition gets {A : Type} (f : State -> A) : M A := fun st => Done (f st) st.
Definition modify (f : State -> State) : M unit := fun st => Done tt (f st).
Definition undefined {A : Type} : M A := fun _ => Undefined.
Definition out_of_fuel {A : Type} : M A := fun _ => OutOfFuel.

(** A call on [src]. *)
Definition on_src {A : Type} (f : istream -> A * istream) : M A :=
  fun st => let '(a, s) := f (src st) in Done a (set_src s st).

(** [cur_token->...]: dereferencing the null pointer is undefined. *)
Definition cur : M Token :=
  fun st => match cur_token st with Some t => Done t st | None => Undefined end.

(** [err::parse_error(place, error)] prints to standard error. *)
Definition parse_error (place error : string) : M unit :=
  modify (fun st =>
    set_stderr (stderr st ++ [("parse error:" ++ place ++ ": " ++ error)%string]) st).

(** [err::parse_errorE(str)]: reports and returns the null pointer. *)
Definition parse_errorE {A : Type} (str : string) : M (option A) :=
  parse_error "<unknown>" str ;;; ret None.

(** The constructor [Parser::Parser(filename, src)]. *)
Definition initial_binop_prec : gmap Z Z :=
  list_to_map [(60, 10); (43, 20); (45, 20); (42, 40)].

Definition Parser_new (filename : string) (s : istream) (err : list string) : State :=
  mkState [] s (Span_new filename 0 0 (-1)) None initial_binop_prec err.

(** [int Parser::getc()]: wrapper around [src.get()] to update the span. *)
Definition getc : M Z :=
  c <- on_src get ;;
  (if c =? 10 then modify (fun st => set_span (span_newline (span st)) st) else ret tt) ;;;
  modify (fun st => set_span (span_next (span st)) st) ;;;
  ret c.

(** [while (is_space(src)) getc();] *)
Fixpoint skip_spaces (fuel : nat) : M unit :=
  match fuel with
  | O => out_of_fuel
  | S n =>
      b <- on_src is_space ;;
      if b then getc ;;; skip_spaces n else ret tt
  end.

(** [while (isalnum(src.peek())) tmp += getc();] *)
Fixpoint read_alnum (fuel : nat) (tmp : string) : M string :=
  match fuel with
  | O => out_of_fuel
  | S n =>
      p <- on_src peek ;;
      if isalnum p then c <- getc ;; read_alnum n (push_back tmp c)
      else ret tmp
  end.

(** [isdigit(src.peek()) || src.peek() == '.'] *)
Definition digit_or_dot_ahead : M bool :=
  p <- on_src peek ;;
  if isdigit p then ret true
  else q <- on_src peek ;; ret (q =? 46).

(** [do { num_str += getc(); } while (isdigit(src.peek()) || src.peek() == '.');] *)
Fixpoint read_number (fuel : nat) (num_str : string) : M string :=
  match fuel with
  | O => out_of_fuel
  | S n =>
      c <- getc ;;
      more <- digit_or_dot_ahead ;;
      if more then read_number n (push_back num_str c)
      else ret (push_back num_str c)
  end.

(** [do { tmp = getc(); } while (tmp != EOF && tmp != '\n' && tmp != '\r');]
    where [tmp] is a [char]; the result is the last [tmp]. *)
Fixpoint skip_comment (fuel : nat) : M Z :=
  match fuel with
  | O => out_of_fuel
  | S n =>
      c <- getc ;;
      let tmp := to_char c in
      if negb (tmp =? EOF) && negb (tmp =? 10) && negb (tmp =? 13)
      then skip_comment n
      else ret tmp
  end.

(** The end of [get_token]: any other character is a token of its own. *)
Definition char_token : M Token :=
  c <- getc ;;
  let _ignore := to_char c in
  sp <- gets span ;;
  ret (mkToken _ignore (String (char_byte _ignore) EmptyString)
               (span_mkfrom sp (span_begin sp - 1))).

(** [std::unique_ptr<Token> Parser::get_token()] *)
Fixpoint get_token (fuel : nat) : M Token :=
  match fuel with
  | O => out_of_fuel
  | S n =>
      buf <- gets _buffer ;;
      match buf with
      | p :: rest => modify (set_buffer rest) ;;; ret p
      | [] =>
          skip_spaces n ;;;
          at_eof <- gets (fun st => eof (src st)) ;;
          if at_eof then
            modify (fun st =>
              set_span (span_set_begin 0 (span_set_end (span_begin (span st)) (span st))) st) ;;;
            sp <- gets span ;;
            ret (mkToken tok_eof "" sp)
          else
            c1 <- on_src peek ;;
            if isalpha c1 then
              beg <- gets (fun st => span_begin (span st)) ;;
              c <- getc ;;
              tmp <- read_alnum n (String (char_byte c) EmptyString) ;;
              sp <- gets span ;;
              let s := span_mkfrom sp beg in
              if String.eqb tmp "fn" then ret (mkToken tok_fn tmp s)
              else if String.eqb tmp "extern" then ret (mkToken tok_extern tmp s)
              else ret (mkToken tok_identifier tmp s)
            else
              more <- digit_or_dot_ahead ;;
              if more then
                beg <- gets (fun st => span_begin (span st) + 1) ;;
                num_str <- read_number n EmptyString ;;
                sp <- gets span ;;
                ret (mkToken tok_number num_str (span_mkfrom sp beg))
              else
                c2 <- on_src peek ;;
                if c2 =? 35 then
                  tmp <- skip_comment n ;;
                  if negb (tmp =? EOF) then get_token n else char_token
                else char_token
      end
  end.

(** [_buffer.back()]: undefined on an empty buffer. *)
Definition buffer_back : M Token :=
  fun st => match last (_buffer st) with Some t => Done t st | None => Undefined end.

(** [while (i > 0 && _buffer.back()->type != tok_eof) { _buffer.push_back(get_token()); i--; }] *)
Fixpoint peek_token_fill (fuel : nat) (i : nat) : M unit :=
  match i with
  | O => ret tt
  | S i' =>
      b <- buffer_back ;;
      if negb (type b =? tok_eof) then
        t <- get_token fuel ;;
        modify (fun st => set_buffer (_buffer st ++ [t]) st) ;;;
        peek_token_fill fuel i'
      else ret tt
  end.

(** [int Parser::peek_token(size_t n)] *)
Definition peek_token (fuel : nat) (n : nat) : M Z :=
  if (n <? 1)%nat then t <- cur ;; ret (type t)
  else
    buf <- gets _buffer ;;
    if (n <=? length buf)%nat then
      match buf !! (n - 1)%nat with
      | Some t => ret (type t)
      | None => undefined
      end
    else
      peek_token_fill fuel (n - length buf)%nat ;;;
      b <- buffer_back ;;
      ret (type b).

(** [int Parser::next_token()] *)
Definition next_token (fuel : nat) : M Z :=
  t <- get_token fuel ;;
  modify (set_cur_token (Some t)) ;;;
  ret (type t).

(** [Parser::parse_num_expr()] *)
Definition parse_num_expr (fuel : nat) : M (option Expr) :=
  t <- cur ;;
  let res := NumberExpr (strtod (lexeme t)) (tok_span t) in
  next_token fuel ;;;
  ret (Some res).

(** [Parser::parse_id_expr()]: the result is a [VariableExpr] or null. *)
Definition parse_id_expr (fuel : nat) : M (option Expr) :=
  t <- cur ;;
  if negb (type t =? tok_identifier) then ret None
  else
    let id_name := lexeme t in
    next_token fuel ;;;
    t' <- cur ;;
    ret (Some (VariableExpr id_name (tok_span t'))).

(** [VariableExpr::name()] *)
Definition expr_name (e : Expr) : string :=
  match e with
  | VariableExpr name _ => name
  | CallExpr callee _ _ => callee
  | _ => EmptyString
  end.

(** [int Parser::get_token_prec(const Token* tok)]; [binop_prec[key]]
    inserts the key with precedence 0 when it is absent. *)
Definition get_token_prec (tok : option Token) : M Z :=
  match tok with
  | None => undefined
  | Some t =>
      if negb (isascii (type t)) then ret (-1)
      else
        table <- gets binop_prec ;;
        tokprec <-
          match table !! type t with
          | Some v => ret v
          | None => modify (set_binop_prec (<[type t := 0]> table)) ;;; ret 0
          end ;;
        if tokprec <=? 0 then ret (-1) else ret tokprec
  end.

(** The expression parsers call each other; each call spends one unit of
    fuel.

    - [parse_paren_expr]: ['(' expression ')']
    - [parse_call_args]: the [while (true)] loop of [parse_call_expr]
    - [parse_call_expr]
    - [parse_primary]
    - [parse_binop_rhs]: the [while (1)] loop, one iteration per call
    - [parse_expr] *)
Fixpoint parse_paren_expr (fuel : nat) : M (option Expr) :=
  match fuel with
  | O => out_of_fuel
  | S n =>
      next_token n ;;;
      e <- parse_expr n ;;
      match e with
      | None => ret None
      | Some e' =>
          t <- cur ;;
          if negb (type t =? 41) then parse_errorE "expected ')'"
          else next_token n ;;; ret (Some e')
      end
  end
with parse_call_args (fuel : nat) (args : list Expr) : M (option (list Expr)) :=
  match fuel with
  | O => out_of_fuel
  | S n =>
      arg <- parse_expr n ;;
      match arg with
      | None => ret None
      | Some a =>
          let args' := args ++ [a] in
          t <- cur ;;
          if type t =? 41 then ret (Some args')
          else if negb (type t =? 44) then
            parse_errorE "Excpected ')' or ',' in argument list"
          else next_token n ;;; parse_call_args n args'
      end
  end
with parse_call_expr (fuel : nat) : M (option Expr) :=
  match fuel with
  | O => out_of_fuel
  | S n =>
      i <- parse_id_expr n ;;
      match i with
      | None => ret None
      | Some ident =>
          let id_name := expr_name ident in
          let beg := expr_span ident in
          next_token n ;;;
          t <- cur ;;
          args <- (if negb (type t =? 41) then parse_call_args n []
                   else ret (Some [])) ;;
          match args with
          | None => ret None
          | Some args' =>
              next_token n ;;;
              t' <- cur ;;
              ret (Some (CallExpr id_name args' (span_rangeFrom (tok_span t') beg)))
          end
      end
  end
with parse_primary (fuel : nat) : M (option Expr) :=
  match fuel with
  | O => out_of_fuel
  | S n =>
      t <- cur ;;
      if type t =? tok_identifier then
        nxt <- peek_token n 1 ;;
        if nxt =? 40 then parse_call_expr n else parse_id_expr n
      else if type t =? tok_number then parse_num_expr n
      else if type t =? 40 then parse_paren_expr n
      else
        parse_errorE
          (format_d "unknown token (%d) when expecting an expression" (type t))
  end
with parse_binop_rhs (fuel : nat) (expr_prec : Z) (lhs : Expr) : M (option Expr) :=
  match fuel with
  | O => out_of_fuel
  | S n =>
      tok <- gets cur_token ;;
      tprec <- get_token_prec tok ;;
      if tprec <? expr_prec then ret (Some lhs)
      else
        t <- cur ;;
        let binop := type t in
        next_token n ;;;
        rhs <- parse_primary n ;;
        match rhs with
        | None => ret None
        | Some rhs0 =>
            tok' <- gets cur_token ;;
            nprec <- get_token_prec tok' ;;
            rhs1 <- (if tprec <? nprec then parse_binop_rhs n (tprec + 1) rhs0
                     else ret (Some rhs0)) ;;
            match rhs1 with
            | None => ret None
            | Some rhs' =>
                let s := expr_span lhs in
                parse_binop_rhs n expr_prec (BinaryExpr binop lhs rhs' s)
            end
        end
  end
with parse_expr (fuel : nat) : M (option Expr) :=
  match fuel with
  | O => out_of_fuel
  | S n =>
      lhs <- parse_primary n ;;
      match lhs with
      | None => ret None
      | Some l => parse_binop_rhs n 0 l
      end
  end.

(** [Parser::parse_assignment()]: ['let' id = expr;] *)
Definition parse_assignment (fuel : nat) : M (option Stmt) :=
  t <- cur ;;
  if negb (type t =? tok_let) then ret None
  else
    next_token fuel ;;;
    i <- parse_id_expr fuel ;;
    match i with
    | None => ret None
    | Some _ =>
        t' <- cur ;;
        if negb (type t' =? 61) then ret None
        else
          exp <- parse_expr fuel ;;
          match exp with
          | None => ret None
          | Some _ => ret None
          end
    end.

(** The members other than [src] and [span] are the same in both states. *)
Definition same_members (st st' : State) : Prop :=
  _buffer st' = _buffer st /\ cur_token st' = cur_token st /\
  binop_prec st' = binop_prec st /\ stderr st' = stderr st.

End Parser.

Arguments Done {_ A} a st.
Arguments Undefined {_ A}.
Arguments OutOfFuel {_ A}.

(** A sample instance of the header, on which the definitions can be run:
    the token codes of the Kaleidoscope tutorial, a span made of a file
    name, a line and two columns, numbers kept as their text. *)
Record SampleSpan : Set := mkSampleSpan {
  ss_file : string; ss_line : Z; ss_begin : Z; ss_end : Z
}.

Definition sample_hpp : ParserHpp := {|
  tok_eof := -1;
  tok_fn := -2;
  tok_extern := -3;
  tok_identifier := -4;
  tok_number := -5;
  tok_op := -6;
  tok_let := -7;
  Span := SampleSpan;
  Span_new := fun f l b e => mkSampleSpan f l b e;
  span_begin := ss_begin;
  span_set_begin := fun b s => mkSampleSpan (ss_file s) (ss_line s) b (ss_end s);
  span_set_end := fun e s => mkSampleSpan (ss_file s) (ss_line s) (ss_begin s) e;
  span_newline := fun s => mkSampleSpan (ss_file s) (ss_line s + 1) 0 (-1);
  span_next := fun s => mkSampleSpan (ss_file s) (ss_line s) (ss_begin s + 1) (ss_end s);
  span_mkfrom := fun s b => mkSampleSpan (ss_file s) (ss_line s) b (ss_begin s);
  span_rangeFrom := fun s b => mkSampleSpan (ss_file s) (ss_line s) (ss_begin b) (ss_end s);
  double := string;
  strtod := fun s => s;
  format_d := fun f _ => f
|}.

(** The stream that holds the bytes of [text], nothing read yet. *)
Definition stream_of (text : string) : istream :=
  mkIstream (list_ascii_of_string text) 0 false false false.

(** The characters of a number token: a digit or ['.']. *)
Definition digit_or_dot (ch : ascii) : bool :=
  isdigit (to_int_type ch) || (to_int_type ch =? 46).

(** The bytes of the stream from the read position on. *)
Definition input (s : istream) : list ascii := drop (pos s) (data s).

(** The run [run] of number characters is maximal before [rest]. *)
Definition run_ends (rest : list ascii) : bool :=
  match rest with
  | [] => true
  | ch :: _ => negb (digit_or_dot ch)
  end.

(** The precedence [get_token_prec] derives from a table for a token
    code. *)
Definition prec_in (table : gmap Z Z) (code : Z) : Z :=
  if negb (isascii code) then -1
  else
    let tokprec := default 0 (table !! code) in
    if tokprec <=? 0 then -1 else tokprec.

(* ===================================================================== *)
(** ** Part II, continued: the rest of [syntax/parser.cpp] *)
(* ===================================================================== *)

Section Declarations.
Context `{ParserHpp}.

Notation "x <- m ;; k" := (bind m (fun x => k))
  (at level 100, m at next level, right associativity).
Notation "m ;;; k" := (bind m (fun _ => k))
  (at level 100, right associativity).

(** [std::string tok_to_string(int token)]; the default case appends the
    code as one [char]. *)
Definition tok_to_string (token : Z) : string :=
  if token =? tok_eof then "<EOF>"
  else if token =? tok_fn then "tok_fn"
  else if token =? tok_extern then "tok_extern"
  else if token =? tok_identifier then "tok_id"
  else if token =? tok_number then "tok_number"
  else if token =? tok_op then "tok_op"
  else if token =? tok_let then "tok_let"
  else String.append "tok_" (String (char_byte token) EmptyString).

(** The enumerators of the token codes. *)
Definition token_enumerators : list Z :=
  [tok_eof; tok_fn; tok_extern; tok_identifier; tok_number; tok_op; tok_let].

(** [std::string Token::to_string()]: the lexeme between double quotes,
    except for the three tokens named in the [switch]. *)
Definition Token_to_string (t : Token) : string :=
  if (type t =? tok_eof) || (type t =? tok_fn) || (type t =? tok_extern)
  then tok_to_string (type t)
  else String (ascii_of_nat 34)
         (String.append (lexeme t) (String (ascii_of_nat 34) EmptyString)).

(** [AST::Prototype]: the name and the parameter names the constructor
    takes, and the flag [ext(bool)] sets ([None] as long as it has not been
    set: the constructor's default is in [ast.hpp]). *)
Record Prototype : Type := mkPrototype {
  proto_name : string;
  proto_args : list string;
  proto_ext : option bool
}.

(** [AST::Function]: a prototype and a body. *)
Record Function : Type := mkFunction {
  fn_proto : Prototype;
  fn_body : Expr
}.

(** [err::parse_errorP], [err::parse_errorF]: like [parse_errorE]. *)
Definition parse_errorP : string -> M (option Prototype) := parse_errorE.
Definition parse_errorF : string -> M (option Function) := parse_errorE.

(** [std::vector<std::string> Parser::parse_params()]: one iteration of the
    [while] loop per unit of fuel; [return {}] is the empty list. *)
Fixpoint parse_params (fuel : nat) (arg_names : list string) : M (list string) :=
  match fuel with
  | O => out_of_fuel
  | S n =>
      t <- cur ;;
      if negb (type t =? 41) then
        if type t =? 44 then
          next_token n ;;;
          t' <- cur ;;
          if type t' =? tok_identifier then
            next_token n ;;;
            parse_params n (arg_names ++ [lexeme t'])
          else
            parse_error "<unknown>" "parameter expected" ;;; ret []
        else
          parse_error "<unknown>" "expected ','" ;;; ret []
      else ret arg_names
  end.

(** [Parser::parse_prototype()]: [id '(' params? ')'] *)
Definition parse_prototype (fuel : nat) : M (option Prototype) :=
  t <- cur ;;
  if negb (type t =? tok_identifier) then
    parse_errorP "Excpected function name in the prototype"
  else
    let fn_name := lexeme t in
    next_token fuel ;;;
    t1 <- cur ;;
    if negb (type t1 =? 40) then parse_errorP "'(' expected"
    else
      next_token fuel ;;;
      arg_names <- parse_params fuel [] ;;
      t2 <- cur ;;
      if negb (type t2 =? 41) then parse_errorP "')' expected"
      else
        next_token fuel ;;;
        ret (Some (mkPrototype fn_name arg_names None)).

(** [Parser::parse_function()]: ['fn' prototype expression] *)
Definition parse_function (fuel : nat) : M (option Function) :=
  next_token fuel ;;;
  proto <- parse_prototype fuel ;;
  match proto with
  | None => ret None
  | Some p =>
      e <- parse_expr fuel ;;
      match e with
      | Some body => ret (Some (mkFunction p body))
      | None => ret None
      end
  end.

(** [Parser::parse_extern()]: ['extern' prototype] *)
Definition parse_extern (fuel : nat) : M (option Prototype) :=
  next_token fuel ;;;
  r <- parse_prototype fuel ;;
  match r with
  | Some p => ret (Some (mkPrototype (proto_name p) (proto_args p) (Some true)))
  | None => ret None
  end.

(** [Parser::parse_tle()]: a top-level expression becomes the body of an
    anonymous function. *)
Definition parse_tle (fuel : nat) : M (option Function) :=
  e <- parse_expr fuel ;;
  match e with
  | Some body => ret (Some (mkFunction (mkPrototype "__auto__tle_" [] None) body))
  | None => ret None
  end.

(** [Parser::parse_stmt()]: the [switch] has no [default]; on any other
    token control reaches the end of the function, which is undefined. *)
Definition parse_stmt (fuel : nat) : M (option Stmt) :=
  t <- cur ;;
  if type t =? tok_let then parse_assignment fuel
  else if type t =? tok_identifier then
    e <- parse_call_expr fuel ;;
    ret (ExprStmt <$> e)
  else undefined.

(** [Parser::parse_stmts()] *)
Definition parse_stmts : M (option (list Stmt)) := ret None.

(** *** Notions used to state what the lexer and the parsers do *)

(** The members other than [src] and [span] are kept, and so are the bytes
    of the stream. *)
Definition lex_frame (st st' : State) : Prop :=
  same_members st st' /\ data (src st') = data (src st).

(** A computation that touches nothing but the position and the state
    bits of the stream, and the span. *)
Definition lexical {A : Type} (m : M A) : Prop :=
  forall st a st', m st = Done a st' -> lex_frame st st'.

(** The same for a computation that is started with nothing buffered. *)
Definition lexical_unbuffered {A : Type} (m : M A) : Prop :=
  forall st a st', _buffer st = [] -> m st = Done a st' -> lex_frame st st'.

(** The token code of a word: the two keywords the lexer knows. *)
Definition word_code (w : string) : Z :=
  if String.eqb w "fn" then tok_fn
  else if String.eqb w "extern" then tok_extern
  else tok_identifier.

(** The parameter tokens [parse_params] accepts for the names [names]: a
    comma and an identifier for each. *)
Fixpoint comma_led (names : list string) (toks : list Token) : bool :=
  match names, toks with
  | [], [] => true
  | x :: names', c :: i :: toks' =>
      (type c =? 44) && (type i =? tok_identifier) && String.eqb (lexeme i) x
      && comma_led names' toks'
  | _, _ => false
  end.

(** What the next [get_token]s return first: the buffered tokens. *)
Definition upcoming (toks : list Token) (st : State) : Prop :=
  exists more, _buffer st = toks ++ more.

End Declarations.

(** White space as [is_space] and the skipping loop see it: C-locale
    spaces and the two-byte no-break space. *)
Fixpoint all_blank (l : list ascii) : bool :=
  match l with
  | [] => true
  | c :: l' =>
      if isspace (to_int_type c) then all_blank l'
      else
        match l' with
        | d :: l'' => (to_int_type c =? 194) && (to_int_type d =? 160) && all_blank l''
        | [] => false
        end
  end.

(** The bytes start with white space. *)
Definition starts_blank (l : list ascii) : bool :=
  match l with
  | [] => false
  | c :: l' =>
      isspace (to_int_type c) ||
      ((to_int_type c =? 194) &&
       match l' with d :: _ => to_int_type d =? 160 | [] => false end)
  end.

(** A byte of a comment's body: not a line end, and not the byte [0xFF],
    which as a [char] equals [EOF]. *)
Definition comment_byte (c : ascii) : bool :=
  negb (to_int_type c =? 10) && negb (to_int_type c =? 13)
  && negb (to_int_type c =? 255).

(** A byte that is a token of its own: it starts no word, no number and no
    comment. *)
Definition punct_byte (c : ascii) : bool :=
  negb (isalpha (to_int_type c)) && negb (digit_or_dot c)
  && negb (to_int_type c =? 35).

(** The stream is at its end: [eofbit] is set, or the stream is good and
    no byte is left. *)
Definition at_end (s : istream) : bool :=
  eofbit s || (good s && (length (data s) <=? pos s)%nat).

(** A byte of a word after its first letter, and what may follow a word. *)
Definition alnum_byte (c : ascii) : bool := isalnum (to_int_type c).

Definition word_ends (rest : list ascii) : bool :=
  match rest with
  | [] => true
  | ch :: _ => negb (alnum_byte ch)
  end.


Section Diagnostics.
Context `{ParserHpp}.


End Diagnostics.

(** Two precedence tables give every token code the same precedence. *)
Definition same_prec (t1 t2 : gmap Z Z) : Prop :=
  forall code, prec_in t1 code = prec_in t2 code.

Section Chains.
Context `{ParserHpp}.

(** The node [parse_num_expr] makes of a number token. *)
Definition number_node (t : Token) : Expr :=
  NumberExpr (strtod (lexeme t)) (tok_span t).

(** The tokens of a chain of operators, each with its right operand. *)
Definition chain_tokens (pairs : list (Token * Token)) : list Token :=
  flat_map (fun ob => [fst ob; snd ob]) pairs.

(** The chain merged into [lhs] from the left, as the loop of
    [parse_binop_rhs] does it. *)
Fixpoint merge_left (lhs : Expr) (pairs : list (Token * Token)) : Expr :=
  match pairs with
  | [] => lhs
  | (o, b) :: ps =>
      merge_left (BinaryExpr (type o) lhs (number_node b) (expr_span lhs)) ps
  end.

(** Every operator of the chain has a positive precedence in [T] and every
    operand is a number token. *)
Definition chain_of_numbers (T : gmap Z Z) (pairs : list (Token * Token)) : bool :=
  forallb (fun ob => (0 <? prec_in T (type (fst ob))) && (type (snd ob) =? tok_number))
          pairs.

(** No operator of the chain binds tighter than the one before it. *)
Fixpoint non_increasing (T : gmap Z Z) (pairs : list (Token * Token)) : bool :=
  match pairs with
  | ob1 :: (ob2 :: _) as ps =>
      (prec_in T (type (fst ob2)) <=? prec_in T (type (fst ob1))) && non_increasing T ps
  | _ => true
  end.

(** The arguments of a call after the first one: each is a number token
    with a comma before it. *)
Definition comma_args (more : list (Token * Token)) : bool :=
  forallb (fun ca => (type (fst ca) =? 44) && (type (snd ca) =? tok_number)) more.

End Chains.

Section TokenRuns.
Context `{ParserHpp}.

(** The state whose buffer, stream and span are those of [L] and whose
    other members are given. *)
Definition at_lexer (L : State) (c : option Token) (tbl : gmap Z Z)
    (err : list string) : State :=
  mkState (_buffer L) (src L) (span L) c tbl err.

(** Two states with the same buffer, stream and span. *)
Definition same_lexer (st st2 : State) : Prop :=
  _buffer st2 = _buffer st /\ src st2 = src st /\ span st2 = span st.

(** A computation that reads and writes the buffer, the stream and the
    span only: started from a state with the same three, it returns the
    same value and leaves the same three, and the other members as they
    were. *)
Definition lexer_only {A : Type} (m : M A) : Prop :=
  forall st st2 a st1,
    same_lexer st st2 -> m st = Done a st1 ->
    m st2 = Done a (at_lexer st1 (cur_token st2) (binop_prec st2) (stderr st2)).

(** [m'] returns whatever [m] returns. *)
Definition refines {A : Type} (m m' : M A) : Prop :=
  forall st a st', m st = Done a st' -> m' st = Done a st'.

(** The next [count] tokens: [get_token] called [count] times in a row. *)
Fixpoint lex_tokens (fuel count : nat) (st : State) : option (list Token * State) :=
  match count with
  | O => Some ([], st)
  | S c =>
      match get_token fuel st with
      | Done t st1 =>
          match lex_tokens fuel c st1 with
          | Some (ts, st2) => Some (t :: ts, st2)
          | None => None
          end
      | _ => None
      end
  end.

(** The tokens [lex_tokens] returns, and the state it ends in. *)
Definition lexed (fuel count : nat) (st : State) : list Token :=
  match lex_tokens fuel count st with
  | Some (ts, _) => ts
  | None => []
  end.

Definition lexed_to (fuel count : nat) (st : State) : State :=
  match lex_tokens fuel count st with
  | Some (_, L) => L
  | None => st
  end.

(** The state after one call of [next_token], which is how a driver
    starts the parser. *)
Definition started (fuel : nat) (st : State) : State :=
  match next_token fuel st with
  | Done _ st' => st'
  | _ => st
  end.

End TokenRuns.

(** A parser of the sample header on [text], and its [i]-th next token. *)
Definition sample_parser (text : string) : State (H := sample_hpp) :=
  Parser_new (H := sample_hpp) "sample" (stream_of text) [].

Definition sample_token (st : State (H := sample_hpp)) (i : nat) : Token (H := sample_hpp) :=
  nth i (lexed (H := sample_hpp) 40 (S i) st)
        (mkToken (H := sample_hpp) 0 EmptyString (Span_new (ParserHpp := sample_hpp) "sample" 0 0 0)).

(** The same parser after its first [next_token], and a parser on given
    bytes. *)
Definition sample_started (text : string) : State (H := sample_hpp) :=
  started (H := sample_hpp) 40 (sample_parser text).

Definition sample_bytes (bytes : list ascii) : State (H := sample_hpp) :=
  Parser_new (H := sample_hpp) "sample" (mkIstream bytes 0 false false false) [].

(** A parser with the identifier [f] as current token and ['('] in the
    look-ahead buffer. *)
Definition sample_buffered : State (H := sample_hpp) :=
  mkState (H := sample_hpp)
    [mkToken (H := sample_hpp) 40 "(" (Span_new (ParserHpp := sample_hpp) "sample" 0 1 2)]
    (stream_of ")")
    (Span_new (ParserHpp := sample_hpp) "sample" 0 1 2)
    (Some (mkToken (H := sample_hpp) (-4) "f" (Span_new (ParserHpp := sample_hpp) "sample" 0 0 1)))
    initial_binop_prec [].
(* ===================================================================== *)
(** ** Theorems about Part I *)
(* ===================================================================== *)

Section KindEquality.

Lemma Kind_eq_refl (k : Kind) : Kind_eq k k = true.
Proof. induction k as [|l IHl r IHr]; simpl; [reflexivity|]. now rewrite IHl, IHr. Qed.

Lemma Kind_eq_sym (a : Kind) : forall b, Kind_eq a b = Kind_eq b a.
Proof.
  induction a as [|l IHl r IHr]; intros [|l' r']; simpl; try reflexivity.
  now rewrite IHl, IHr.
Qed.

Lemma Kind_eq_true_iff (a : Kind) : forall b, Kind_eq a b = true <-> a = b.
Proof.
  induction a as [|l IHl r IHr]; intros [|l' r']; simpl; split; intros E;
    try reflexivity; try discriminate.
  - apply andb_true_iff in E as [E1 E2].
    apply IHl in E1. apply IHr in E2. now subst.
  - injection E as -> ->. now rewrite Kind_eq_refl, Kind_eq_refl.
Qed.

(** C4. Kind equality is reflexive and symmetric; two star kinds are
    equal; two arrow kinds are equal exactly when their left components
    are equal and their right components are equal; a star and an arrow
    are never equal (in either order).  Being structural, it decides
    identity of kinds. *)
Theorem Kind_eq_structural :
  (forall k, Kind_eq k k = true) /\
  (forall a b, Kind_eq a b = Kind_eq b a) /\
  Kind_eq KStar KStar = true /\
  (forall l1 r1 l2 r2,
     Kind_eq (KArr l1 r1) (KArr l2 r2) = true <->
     Kind_eq l1 l2 = true /\ Kind_eq r1 r2 = true) /\
  (forall l r, Kind_eq KStar (KArr l r) = false /\ Kind_eq (KArr l r) KStar = false) /\
  (forall a b, Kind_eq a b = true <-> a = b).
Proof.
  repeat split; auto using Kind_eq_refl, Kind_eq_sym.
  - simpl in H. now apply andb_true_iff in H as [? _].
  - simpl in H. now apply andb_true_iff in H as [_ ?].
  - intros [E1 E2]. simpl. now rewrite E1, E2.
  - now apply Kind_eq_true_iff.
  - intros ->. apply Kind_eq_refl.
Qed.

End KindEquality.

Section KindOfType.
Context `{GenKinds}.

Lemma kind_Var i k : kind (Var i k) = Some (Ok k).
Proof. reflexivity. Qed.

Lemma kind_Con i k : kind (Con i k) = Some (Ok k).
Proof. reflexivity. Qed.

Lemma kind_App l r : kind (App l r) = TyApp_kind (kind l).
Proof. reflexivity. Qed.

Lemma kind_Gen i : kind (Gen i) = Some (TyGen_kind i).
Proof. reflexivity. Qed.

(** [kind] always returns, and what it returns is a kind or the invariant
    violation. *)
Lemma kind_total t :
  (exists k, kind t = Some (Ok k)) \/ kind t = Some (Fail InvariantViolation).
Proof.
  induction t as [i k|i k|l IHl r _|i].
  - left. now exists k.
  - left. now exists k.
  - rewrite kind_App. destruct IHl as [[k ->]| ->]; simpl.
    + destruct k; [now right | left; eauto].
    + now right.
  - rewrite kind_Gen. unfold TyGen_kind.
    destruct (recorded_kind i); [left; eauto | now right].
Qed.

(** C5. [kind] returns the stored kind of a [Var] and of a [Con]; for an
    application whose left side has an arrow kind it returns the arrow's
    right-hand component; for an application whose left side has a
    non-arrow kind it fails with the invariant violation; and on no term
    at all does it fail with a recoverable error. *)
Theorem kind_by_variant :
  (forall i k, kind (Var i k) = Some (Ok k)) /\
  (forall i k, kind (Con i k) = Some (Ok k)) /\
  (forall l r ka kr,
     kind l = Some (Ok (KArr ka kr)) -> kind (App l r) = Some (Ok kr)) /\
  (forall l r,
     kind l = Some (Ok KStar) -> kind (App l r) = Some (Fail InvariantViolation)) /\
  (forall t e, kind t <> Some (Fail (Recoverable e))) /\
  (forall t, kind t <> None).
Proof.
  repeat split.
  - intros l r ka kr Hl. rewrite kind_App, Hl. reflexivity.
  - intros l r Hl. rewrite kind_App, Hl. reflexivity.
  - intros t e. destruct (kind_total t) as [[k ->]| ->]; discriminate.
  - intros t. destruct (kind_total t) as [[k ->]| ->]; discriminate.
Qed.

End KindOfType.

Section Rendering.
Context `{VariantPrinters}.

(** C6. Both dispatchers return a string on every kind and on every type,
    and it is the rendering of the active alternative: no alternative
    leaves the dispatch without one. *)
Theorem to_string_total :
  (forall k : Kind, exists s, Kind_to_string k = Some s) /\
  Kind_to_string KStar = Some KStar_to_string /\
  (forall l r, Kind_to_string (KArr l r) = Some (KArr_to_string l r)) /\
  (forall t : Ty, exists s, Type_to_string t = Some s) /\
  (forall i k, Type_to_string (Var i k) = Some (TyVar_to_string i k)) /\
  (forall i k, Type_to_string (Con i k) = Some (TyCon_to_string i k)) /\
  (forall l r, Type_to_string (App l r) = Some (TyApp_to_string l r)) /\
  (forall i, Type_to_string (Gen i) = Some (TyGen_to_string i)).
Proof.
  repeat split; try reflexivity.
  - intros [|l r]; eexists; reflexivity.
  - intros [i k|i k|l r|i]; eexists; reflexivity.
Qed.

End Rendering.

Section FreeVariables.

Lemma occ_tv (a : Id) (t : Ty) : occ a t <-> Exists (fun v => id v = a) (tv t).
Proof.
  induction t as [i k|i k|l IHl r IHr|i]; simpl.
  - rewrite Exists_cons, Exists_nil. simpl. tauto.
  - rewrite Exists_nil. tauto.
  - rewrite IHl, IHr, Exists_app, !Exists_exists.
    split.
    + intros [Hl|(v & Hv & <-)]; [now left|].
      destruct (existsb (TyVar_eq v) (tv l)) eqn:E.
      * left. apply existsb_exists in E as (w & Hw & Ew).
        exists w. split; [now apply list_elem_of_In|].
        symmetry. now apply String.eqb_eq.
      * right. exists v. split; [|reflexivity].
        apply list_elem_of_In, filter_In. split; [now apply list_elem_of_In|].
        now rewrite E.
    + intros [Hl|(v & Hv & <-)]; [now left|].
      right. exists v. split; [|reflexivity].
      apply list_elem_of_In, filter_In in Hv as [Hv _]. now apply list_elem_of_In.
  - rewrite Exists_nil. tauto.
Qed.

Lemma occurs_occ (a : Id) (t : Ty) : occurs a t = true <-> occ a t.
Proof.
  rewrite occ_tv, Exists_exists. unfold occurs. rewrite existsb_exists.
  split; intros (v & Hv & E); exists v.
  - split; [now apply list_elem_of_In | now apply String.eqb_eq].
  - split; [now apply list_elem_of_In | now apply String.eqb_eq].
Qed.


Lemma occ_range_avoids (sub : Subst) (d : gset string) :
  (forall i r a, sub !! i = Some r -> occ a r -> a ∉ d) -> range_avoids sub d.
Proof.
  intros Hocc i r Hi. simpl. apply Forall_forall. intros v Hv.
  apply (Hocc i r (id v) Hi). apply occ_tv, Exists_exists. now exists v.
Qed.

End FreeVariables.

Section SubstitutionLaws.





Lemma lookup_composed (outer inner : Subst) (i : Id) :
  composed outer inner !! i =
  match inner !! i with
  | Some r => Some (apply_once outer r)
  | None => outer !! i
  end.
Proof.
  unfold composed. rewrite lookup_union, lookup_fmap.
  destruct (inner !! i); simpl.
  - now destruct (outer !! i).
  - now destruct (outer !! i).
Qed.

(** For a single pass of each substitution the law of composition holds
    on all substitutions. *)
Lemma apply_once_composed (outer inner : Subst) (t : Ty) :
  apply_once (composed outer inner) t = apply_once outer (apply_once inner t).
Proof.
  induction t as [i k|i k|l IHl r IHr|i]; simpl; try reflexivity.
  - rewrite lookup_composed. destruct (inner !! i); reflexivity.
  - now rewrite IHl, IHr.
Qed.

End SubstitutionLaws.

Section ComposeLaw.









End ComposeLaw.

Section Unification.
Context `{GenKinds}.







End Unification.

Section UnificationExamples.



(** The unification examples of the spec. *)
Example unify_list_int :
  unify (H := no_scheme) 3 (App (Var "a" (KArr KStar KStar)) (Var "b" KStar))
          (App (Con "List" (KArr KStar KStar)) (Con "Int" KStar))
  = Some (Ok (<["a" := Con "List" (KArr KStar KStar)]> {["b" := Con "Int" KStar]})).
Proof. vm_compute. reflexivity. Qed.

Example unify_int_bool :
  unify (H := no_scheme) 1 (Con "Int" KStar) (Con "Bool" KStar)
  = Some (Fail (Recoverable ConstructorMismatchError)).
Proof. reflexivity. Qed.

End UnificationExamples.

(* ===================================================================== *)
(** ** Theorems about Part II *)
(* ===================================================================== *)

Section Streams.

(** What [peek] does: it never moves; it returns a byte exactly when the
    stream is good and not at its end, and then leaves the stream as it
    is. *)
Lemma peek_spec (s : istream) :
  (exists ch, good s = true /\ data s !! pos s = Some ch /\
              peek s = (to_int_type ch, s)) \/
  (fst (peek s) = EOF /\ good (snd (peek s)) = false /\
   pos (snd (peek s)) = pos s /\ data (snd (peek s)) = data s).
Proof.
  unfold peek. destruct (good s) eqn:G.
  - destruct (data s !! pos s) as [ch|] eqn:E.
    + left. exists ch. auto.
    + right. simpl. repeat split.
  - right. simpl. repeat split. unfold good in *. simpl.
    destruct (eofbit s), (badbit s); reflexivity.
Qed.

(** What [get] does: it consumes one byte exactly when the stream is good
    and not at its end; otherwise it returns [EOF], stays where it is, and
    the stream is not good afterwards. *)
Lemma get_spec (s : istream) :
  (exists ch, good s = true /\ data s !! pos s = Some ch /\
              get s = (to_int_type ch, set_pos (S (pos s)) s)) \/
  (fst (get s) = EOF /\ good (snd (get s)) = false /\
   pos (snd (get s)) = pos s /\ data (snd (get s)) = data s).
Proof.
  unfold get. destruct (good s) eqn:G.
  - destruct (data s !! pos s) as [ch|] eqn:E.
    + left. exists ch. auto.
    + right. simpl. repeat split.
  - right. simpl. repeat split. unfold good in *. simpl.
    destruct (eofbit s), (badbit s); reflexivity.
Qed.

Lemma to_int_type_range (ch : ascii) : 0 <= to_int_type ch < 256.
Proof.
  unfold to_int_type. pose proof (N_ascii_bounded ch). lia.
Qed.

Lemma char_byte_to_int_type (ch : ascii) : char_byte (to_int_type ch) = ch.
Proof.
  unfold char_byte. pose proof (to_int_type_range ch).
  rewrite Z.mod_small by lia. unfold to_int_type.
  rewrite N2Z.id. apply ascii_N_embedding.
Qed.

Lemma remaining_step (s : istream) (ch : ascii) :
  data s !! pos s = Some ch ->
  (remaining (set_pos (S (pos s)) s) < remaining s)%nat.
Proof.
  intros E. apply lookup_lt_Some in E. unfold remaining. simpl. lia.
Qed.

Lemma peek_remaining (s : istream) : remaining (snd (peek s)) = remaining s.
Proof.
  unfold remaining.
  destruct (peek_spec s) as [(ch & _ & _ & ->)|(_ & _ & -> & ->)]; reflexivity.
Qed.

Lemma get_remaining (s : istream) : (remaining (snd (get s)) <= remaining s)%nat.
Proof.
  destruct (get_spec s) as [(ch & _ & E & ->)|(_ & _ & Hp & Hd)].
  - simpl. pose proof (remaining_step s ch E). lia.
  - unfold remaining. rewrite Hp, Hd. lia.
Qed.

(** A [get] that leaves the stream good, or that returns a byte, has
    consumed one. *)
Lemma get_good_progress (s : istream) :
  good (snd (get s)) = true -> (remaining (snd (get s)) < remaining s)%nat.
Proof.
  destruct (get_spec s) as [(ch & _ & E & ->)|(_ & G & _)].
  - intros _. simpl. now apply (remaining_step s ch).
  - congruence.
Qed.

Lemma get_byte_progress (s : istream) :
  fst (get s) <> EOF -> (remaining (snd (get s)) < remaining s)%nat.
Proof.
  destruct (get_spec s) as [(ch & _ & E & ->)|(Hc & _)].
  - intros _. simpl. now apply (remaining_step s ch).
  - congruence.
Qed.

(** A [peek] that returns a byte leaves the stream as it is, and the
    next [get] consumes that byte. *)
Lemma peek_byte (s : istream) :
  fst (peek s) <> EOF ->
  snd (peek s) = s /\ good s = true /\
  (remaining (snd (get s)) < remaining s)%nat.
Proof.
  destruct (peek_spec s) as [(ch & G & E & ->)|(Hc & _)]; [|congruence].
  intros _. simpl. repeat split; [assumption|].
  unfold get. rewrite G, E. simpl. now apply (remaining_step s ch).
Qed.

Lemma peek_good (s : istream) : good (snd (peek s)) = true -> snd (peek s) = s.
Proof.
  destruct (peek_spec s) as [(ch & G & E & ->)|(_ & G & _)]; [reflexivity|congruence].
Qed.

(** C9. Whenever [is_space] returns false the read position is where it
    was.  When it returns true, either nothing was consumed (the next byte
    is a C-locale space) or exactly the byte [0xC2] was consumed and the
    next byte is [0xA0].  The bytes of the stream are never changed. *)
Theorem is_space_position (s : istream) :
  data (snd (is_space s)) = data s /\
  match fst (is_space s) with
  | false => pos (snd (is_space s)) = pos s
  | true =>
      (pos (snd (is_space s)) = pos s /\
       exists ch, data s !! pos s = Some ch /\ isspace (to_int_type ch) = true) \/
      (pos (snd (is_space s)) = S (pos s) /\
       to_int_type <$> data s !! pos s = Some 194 /\
       to_int_type <$> data s !! S (pos s) = Some 160)
  end.
Proof.
  destruct s as [d p e f b].
  unfold is_space, peek, get, unget, good; simpl.
  destruct e, f, b; simpl; try (split; reflexivity).
  destruct (d !! p) as [ch|] eqn:E; simpl; [|split; reflexivity].
  destruct (isspace (to_int_type ch)) eqn:Sp; simpl.
  { split; [reflexivity|]. left. eauto. }
  rewrite E. simpl.
  destruct (to_int_type ch =? 194) eqn:C2; simpl; [|split; reflexivity].
  rewrite E. simpl. apply Z.eqb_eq in C2.
  destruct (d !! S p) as [ch'|] eqn:E'; simpl.
  - destruct (to_int_type ch' =? 160) eqn:A0; simpl; [|split; reflexivity].
    split; [reflexivity|]. right. apply Z.eqb_eq in A0. now rewrite C2, A0.
  - split; reflexivity.
Qed.

Lemma is_space_false_remaining (s : istream) :
  fst (is_space s) = false -> remaining (snd (is_space s)) = remaining s.
Proof.
  destruct s as [d p e f b].
  unfold is_space, peek, get, unget, good, remaining; simpl.
  destruct e, f, b; simpl; try reflexivity.
  destruct (d !! p) as [ch|] eqn:E; simpl; [|reflexivity].
  destruct (isspace (to_int_type ch)); simpl; [discriminate|].
  rewrite E. simpl.
  destruct (to_int_type ch =? 194); simpl; [|reflexivity].
  rewrite E. simpl.
  destruct (d !! S p) as [ch'|]; simpl; [|reflexivity].
  destruct (to_int_type ch' =? 160); simpl; [discriminate | reflexivity].
Qed.

(** After [is_space] has returned true, the [getc] of the skipping loop
    leaves fewer bytes than there were before [is_space]. *)
Lemma is_space_true_progress (s : istream) :
  fst (is_space s) = true ->
  (remaining (snd (get (snd (is_space s)))) < remaining s)%nat.
Proof.
  destruct s as [d p e f b].
  unfold is_space, peek, get, unget, good, remaining; simpl.
  destruct e, f, b; simpl; try discriminate.
  destruct (d !! p) as [ch|] eqn:E; simpl; [|discriminate].
  pose proof (lookup_lt_Some _ _ _ E) as Hlt.
  destruct (isspace (to_int_type ch)) eqn:Sp; simpl.
  { intros _. rewrite E. simpl. lia. }
  rewrite E. simpl.
  destruct (to_int_type ch =? 194) eqn:C2; simpl; [|discriminate].
  rewrite E. simpl.
  destruct (d !! S p) as [ch'|] eqn:E'; simpl; [|discriminate].
  destruct (to_int_type ch' =? 160) eqn:A0; simpl; [|discriminate].
  intros _. rewrite E'. simpl. lia.
Qed.

End Streams.

(** Running one monadic step whose outcome is known. *)
Ltac mstep E := unfold bind at 1; rewrite E; cbv beta iota.

Section Lexer.
Context `{ParserHpp}.


Lemma on_src_eq {A : Type} (f : istream -> A * istream) (st : State) :
  on_src f st = Done (fst (f (src st))) (set_src (snd (f (src st))) st).
Proof. unfold on_src. now destruct (f (src st)). Qed.

(** [getc] always returns: the value of [get], on the stream [get] leaves;
    only [src] and [span] change. *)
Lemma getc_done (st : State) :
  exists st', getc st = Done (fst (get (src st))) st' /\
    src st' = snd (get (src st)) /\
    _buffer st' = _buffer st /\ cur_token st' = cur_token st /\
    binop_prec st' = binop_prec st /\ stderr st' = stderr st.
Proof.
  unfold getc. mstep (on_src_eq get st).
  destruct (fst (get (src st)) =? 10); unfold bind, modify, ret; simpl;
    eexists; repeat split.
Qed.

Lemma skip_spaces_total (n : nat) : forall st : State,
  (remaining (src st) < n)%nat ->
  exists st', skip_spaces n st = Done tt st' /\
    (remaining (src st') <= remaining (src st))%nat.
Proof.
  induction n as [|n IH]; intros st Hn; [lia|].
  simpl. mstep (on_src_eq is_space st).
  destruct (fst (is_space (src st))) eqn:Sp.
  - destruct (getc_done (set_src (snd (is_space (src st))) st))
      as (st1 & E1 & Hs1 & _).
    mstep E1. simpl in Hs1.
    pose proof (is_space_true_progress (src st) Sp) as Hlt.
    rewrite <- Hs1 in Hlt.
    destruct (IH st1) as (st2 & E2 & Hle); [lia|].
    exists st2. split; [exact E2 | lia].
  - eexists. split; [reflexivity|]. simpl.
    rewrite (is_space_false_remaining (src st) Sp). lia.
Qed.

Lemma isalnum_not_EOF (c : Z) : isalnum c = true -> c <> EOF.
Proof. intros Hc ->. discriminate Hc. Qed.

Lemma read_alnum_total (n : nat) : forall (st : State) (tmp : string),
  (remaining (src st) < n)%nat ->
  exists r st', read_alnum n tmp st = Done r st' /\
    (remaining (src st') <= remaining (src st))%nat.
Proof.
  induction n as [|n IH]; intros st tmp Hn; [lia|].
  simpl. mstep (on_src_eq peek st).
  destruct (isalnum (fst (peek (src st)))) eqn:Al.
  - destruct (peek_byte (src st) (isalnum_not_EOF _ Al)) as (Es & _ & Hlt).
    rewrite Es.
    destruct (getc_done (set_src (src st) st)) as (st1 & E1 & Hs1 & _).
    mstep E1. simpl in Hs1. rewrite <- Hs1 in Hlt.
    destruct (IH st1 (push_back tmp (fst (get (src (set_src (src st) st))))))
      as (r & st2 & E2 & Hle); [lia|].
    exists r, st2. split; [exact E2 | lia].
  - eexists _, _. split; [reflexivity|]. simpl.
    rewrite peek_remaining. lia.
Qed.

(** The look-ahead of the number loop always returns and never moves; when
    it says yes, the stream is good and a byte is there. *)
Lemma digit_or_dot_ahead_done (st : State) :
  exists b st', digit_or_dot_ahead st = Done b st' /\
    remaining (src st') = remaining (src st) /\
    (b = true -> good (src st) = true /\ src st' = src st).
Proof.
  unfold digit_or_dot_ahead. mstep (on_src_eq peek st).
  destruct (isdigit (fst (peek (src st)))) eqn:Dg.
  - eexists _, _. split; [reflexivity|]. simpl.
    split; [apply peek_remaining|]. intros _.
    assert (Hne : fst (peek (src st)) <> EOF) by (intros E; rewrite E in Dg; discriminate).
    destruct (peek_byte (src st) Hne) as (Es & G & _). now rewrite Es.
  - mstep (on_src_eq peek (set_src (snd (peek (src st))) st)).
    eexists _, _. split; [reflexivity|]. simpl.
    split; [now rewrite !peek_remaining|].
    intros Hq. apply Z.eqb_eq in Hq.
    assert (Hne : fst (peek (snd (peek (src st)))) <> EOF) by (rewrite Hq; discriminate).
    destruct (peek_byte _ Hne) as (Es & G & _).
    rewrite Es. rewrite (peek_good (src st) G) in *.
    split; [|reflexivity]. now rewrite <- Es.
Qed.

Lemma read_number_total (n : nat) : forall (st : State) (num_str : string),
  (remaining (src st) < n)%nat ->
  exists r st', read_number n num_str st = Done r st' /\
    (remaining (src st') <= remaining (src st))%nat.
Proof.
  induction n as [|n IH]; intros st num_str Hn; [lia|].
  simpl. destruct (getc_done st) as (st1 & E1 & Hs1 & _). mstep E1.
  destruct (digit_or_dot_ahead_done st1) as (b & st2 & E2 & Hr2 & Hb). mstep E2.
  pose proof (get_remaining (src st)) as Hle. rewrite <- Hs1 in Hle.
  destruct b.
  - destruct (Hb eq_refl) as (G & _). rewrite Hs1 in G.
    pose proof (get_good_progress (src st) G) as Hlt. rewrite <- Hs1 in Hlt.
    destruct (IH st2 (push_back num_str (fst (get (src st))))) as (r & st3 & E3 & Hle3);
      [lia|].
    exists r, st3. split; [exact E3 | lia].
  - eexists _, _. split; [reflexivity | lia].
Qed.

Lemma to_char_EOF : to_char EOF = EOF.
Proof. reflexivity. Qed.

(** The comment loop returns; when the character it stops on is not [EOF],
    at least one byte was consumed. *)
Lemma skip_comment_total (n : nat) : forall st : State,
  (remaining (src st) < n)%nat ->
  exists tmp st', skip_comment n st = Done tmp st' /\
    (remaining (src st') <= remaining (src st))%nat /\
    (tmp <> EOF -> (remaining (src st') < remaining (src st))%nat).
Proof.
  induction n as [|n IH]; intros st Hn; [lia|].
  simpl. destruct (getc_done st) as (st1 & E1 & Hs1 & _). mstep E1.
  pose proof (get_remaining (src st)) as Hle. rewrite <- Hs1 in Hle.
  destruct (negb (to_char (fst (get (src st))) =? EOF)
            && negb (to_char (fst (get (src st))) =? 10)
            && negb (to_char (fst (get (src st))) =? 13)) eqn:C.
  - assert (Hne : fst (get (src st)) <> EOF).
    { intros E. rewrite E in C. discriminate C. }
    pose proof (get_byte_progress (src st) Hne) as Hlt. rewrite <- Hs1 in Hlt.
    destruct (IH st1) as (tmp & st2 & E2 & Hle2 & _); [lia|].
    exists tmp, st2. split; [exact E2|]. split; lia.
  - eexists _, _. split; [reflexivity|]. split; [lia|].
    intros Hne.
    assert (Hne' : fst (get (src st)) <> EOF).
    { intros E. rewrite E in Hne. now apply Hne. }
    pose proof (get_byte_progress (src st) Hne') as Hlt. rewrite <- Hs1 in Hlt. lia.
Qed.

Lemma char_token_done (st : State) :
  exists t st', char_token st = Done t st' /\
    (remaining (src st') <= remaining (src st))%nat.
Proof.
  unfold char_token. destruct (getc_done st) as (st1 & E1 & Hs1 & _). mstep E1.
  eexists _, _. split; [reflexivity|]. simpl.
  rewrite Hs1. apply get_remaining.
Qed.

(** The lexer returns a token on every state, once the fuel exceeds the
    number of bytes left by two. *)
Lemma get_token_total (n : nat) : forall st : State,
  (remaining (src st) + 1 < n)%nat ->
  exists t st', get_token n st = Done t st' /\
    (remaining (src st') <= remaining (src st))%nat.
Proof.
  induction n as [|n IH]; intros st Hn; [lia|].
  simpl. unfold bind at 1, gets at 1. cbv beta iota.
  destruct (_buffer st) as [|p rest] eqn:Eb.
  { destruct (skip_spaces_total n st) as (st1 & E1 & Hle1); [lia|]. mstep E1.
    unfold bind at 1, gets at 1. cbv beta iota.
    destruct (eof (src st1)) eqn:Eof.
    { eexists _, _. split; [reflexivity|]. exact Hle1. }
    mstep (on_src_eq peek st1).
    set (st2 := set_src (snd (peek (src st1))) st1).
    assert (Hr2 : remaining (src st2) = remaining (src st1)) by apply peek_remaining.
    destruct (isalpha (fst (peek (src st1)))) eqn:Al.
    { unfold bind at 1, gets at 1. cbv beta iota.
      destruct (getc_done st2) as (st3 & E3 & Hs3 & _). mstep E3.
      pose proof (get_remaining (src st2)) as Hle3. rewrite <- Hs3 in Hle3.
      destruct (read_alnum_total n st3 (String (char_byte (fst (get (src st2)))) EmptyString))
        as (r & st4 & E4 & Hle4); [lia|]. mstep E4.
      unfold bind at 1, gets at 1. cbv beta iota.
      destruct (String.eqb r "fn"); [|destruct (String.eqb r "extern")];
        eexists _, _; (split; [reflexivity | lia]). }
    destruct (digit_or_dot_ahead_done st2) as (b & st3 & E3 & Hr3 & _). mstep E3.
    destruct b.
    { unfold bind at 1, gets at 1. cbv beta iota.
      destruct (read_number_total n st3 EmptyString) as (r & st4 & E4 & Hle4); [lia|].
      mstep E4. unfold bind at 1, gets at 1. cbv beta iota.
      eexists _, _. split; [reflexivity | lia]. }
    mstep (on_src_eq peek st3).
    set (st4 := set_src (snd (peek (src st3))) st3).
    assert (Hr4 : remaining (src st4) = remaining (src st3)) by apply peek_remaining.
    destruct (fst (peek (src st3)) =? 35) eqn:Hash.
    - destruct (skip_comment_total n st4) as (tmp & st5 & E5 & Hle5 & Hlt5); [lia|].
      mstep E5.
      destruct (negb (tmp =? EOF)) eqn:Ne.
      + assert (Hne : tmp <> EOF).
        { intros E. rewrite E in Ne. discriminate Ne. }
        specialize (Hlt5 Hne).
        destruct (IH st5) as (t & st6 & E6 & Hle6); [lia|].
        exists t, st6. split; [exact E6 | lia].
      + destruct (char_token_done st5) as (t & st6 & E6 & Hle6).
        exists t, st6. split; [exact E6 | lia].
    - destruct (char_token_done st4) as (t & st5 & E5 & Hle5).
      exists t, st5. split; [exact E5 | lia]. }
  unfold bind, modify, ret. eexists _, _. split; [reflexivity|]. simpl. lia.
Qed.

Lemma next_token_total (n : nat) (st : State) :
  (remaining (src st) + 1 < n)%nat ->
  exists t st', next_token n st = Done (type t) st' /\
    cur_token st' = Some t /\
    (remaining (src st') <= remaining (src st))%nat.
Proof.
  intros Hn. destruct (get_token_total n st Hn) as (t & st1 & E1 & Hle1).
  unfold next_token. mstep E1.
  unfold bind, modify, ret. exists t. eexists. split; [reflexivity|].
  simpl. auto.
Qed.

End Lexer.

Section Assignment.
Context `{ParserHpp}.

Lemma token_codes_not_char (c : Z) :
  token_codes_ok = true -> 0 <= c ->
  c <> tok_identifier /\ c <> tok_number /\ c <> tok_let /\ c <> tok_eof.
Proof.
  unfold token_codes_ok. intros Hok Hc. apply andb_true_iff in Hok as [_ Hneg].
  simpl in Hneg. repeat (apply andb_true_iff in Hneg as [?%Z.ltb_lt Hneg]).
  lia.
Qed.

(** An expression cannot start with ['=']: [parse_expr] reports the token
    and returns the null pointer. *)
Lemma parse_expr_at_equals (n : nat) (st : State) (t : Token) :
  token_codes_ok = true ->
  cur_token st = Some t -> type t = 61 ->
  exists st', parse_expr (S (S n)) st = Done None st' /\ src st' = src st.
Proof.
  intros Hok Hc Ht.
  destruct (token_codes_not_char 61 Hok ltac:(lia)) as (Hi & Hnum & _).
  simpl. unfold bind at 1. unfold bind at 1, cur at 1. rewrite Hc. cbv beta iota.
  rewrite Ht.
  destruct (Z.eqb_spec 61 tok_identifier) as [E|_]; [contradiction|].
  destruct (Z.eqb_spec 61 tok_number) as [E|_]; [contradiction|].
  simpl. eexists. split; reflexivity.
Qed.

(** Every [return] of [parse_assignment] returns the null pointer. *)
Lemma parse_assignment_only_null (n : nat) (st st' : State) (r : option Stmt) :
  parse_assignment n st = Done r st' -> r = None.
Proof.
  unfold parse_assignment, bind, ret.
  repeat (match goal with
          | |- context [match ?m with _ => _ end] => destruct m
          end; try discriminate);
    now intros [= <- _].
Qed.

Lemma cur_eq (st : State) (t : Token) : cur_token st = Some t -> cur st = Done t st.
Proof. unfold cur. now intros ->. Qed.

(** C7. [parse_assignment] returns the null pointer and nothing else: every
    result it returns is null, and on every parser whose current token is
    set it does return, also when the tokens are [let], an identifier,
    ['='] and an expression (the ['='] is never consumed, so the
    expression parser is entered on it and fails). *)
Theorem parse_assignment_null (n : nat) (st : State) :
  token_codes_ok = true ->
  is_Some (cur_token st) ->
  (remaining (src st) + 3 <= n)%nat ->
  (forall r st', parse_assignment n st = Done r st' -> r = None) /\
  (exists st', parse_assignment n st = Done None st').
Proof.
  intros Hok [t Ht] Hn.
  split; [intros r st'; apply parse_assignment_only_null|].
  unfold parse_assignment. mstep (cur_eq st t Ht).
  destruct (negb (type t =? tok_let)); [eexists; reflexivity|].
  destruct (next_token_total n st) as (t1 & st1 & E1 & Hc1 & Hle1); [lia|].
  mstep E1.
  unfold parse_id_expr. unfold bind at 1. mstep (cur_eq st1 t1 Hc1).
  destruct (negb (type t1 =? tok_identifier)); [eexists; reflexivity|].
  destruct (next_token_total n st1) as (t2 & st2 & E2 & Hc2 & Hle2); [lia|].
  mstep E2. mstep (cur_eq st2 t2 Hc2). unfold ret at 1. cbv beta iota.
  mstep (cur_eq st2 t2 Hc2).
  destruct (Z.eqb_spec (type t2) 61) as [E61|_]; [|eexists; reflexivity].
  destruct n as [|[|n]]; try lia.
  destruct (parse_expr_at_equals n st2 t2 Hok Hc2 E61) as (st3 & E3 & _).
  change (negb true) with false. cbv iota. mstep E3. eexists; reflexivity.
Qed.

End Assignment.


Section Numbers.
Context `{ParserHpp}.

Lemma input_cons (s : istream) (ch : ascii) (l : list ascii) :
  input s = ch :: l ->
  data s !! pos s = Some ch /\ input (set_pos (S (pos s)) s) = l.
Proof.
  unfold input. simpl. intros E.
  assert (E0 : data s !! pos s = Some ch).
  { rewrite <- (Nat.add_0_r (pos s)), <- lookup_drop, E. reflexivity. }
  split; [exact E0|].
  rewrite (drop_S _ _ _ E0) in E. now injection E.
Qed.

Lemma input_nil (s : istream) : input s = [] -> data s !! pos s = None.
Proof.
  unfold input. intros E. apply lookup_ge_None.
  apply drop_nil_inv in E. exact E.
Qed.

Lemma same_members_refl (st : State) : same_members st st.
Proof. repeat split. Qed.

Lemma same_members_trans (a b c : State) :
  same_members a b -> same_members b c -> same_members a c.
Proof.
  unfold same_members. intros (?&?&?&?) (?&?&?&?). repeat split; congruence.
Qed.

Lemma getc_at (st : State) (ch : ascii) (l : list ascii) :
  good (src st) = true -> input (src st) = ch :: l ->
  exists st', getc st = Done (to_int_type ch) st' /\
    src st' = set_pos (S (pos (src st))) (src st) /\ same_members st st'.
Proof.
  intros G E. destruct (input_cons _ _ _ E) as [E0 _].
  destruct (getc_done st) as (st' & E1 & Hs & Hb & Hc & Hp & He).
  unfold get in E1, Hs. rewrite G, E0 in E1, Hs. simpl in E1, Hs.
  exists st'. repeat split; assumption.
Qed.

Lemma ahead_at_cons (st : State) (ch : ascii) (l : list ascii) :
  good (src st) = true -> input (src st) = ch :: l ->
  exists st', digit_or_dot_ahead st = Done (digit_or_dot ch) st' /\
    src st' = src st /\ span st' = span st /\ same_members st st'.
Proof.
  intros G E. destruct (input_cons _ _ _ E) as [E0 _].
  assert (Ep : peek (src st) = (to_int_type ch, src st)).
  { unfold peek. now rewrite G, E0. }
  unfold digit_or_dot_ahead, digit_or_dot.
  mstep (on_src_eq peek st). rewrite Ep. cbn [fst snd].
  destruct (isdigit (to_int_type ch)).
  - eexists. split; [reflexivity|]. repeat split.
  - mstep (on_src_eq peek (set_src (src st) st)). simpl src. rewrite Ep.
    eexists. split; [reflexivity|]. repeat split.
Qed.

Lemma ahead_at_nil (st : State) :
  good (src st) = true -> input (src st) = [] ->
  exists st', digit_or_dot_ahead st = Done false st' /\
    pos (src st') = pos (src st) /\ data (src st') = data (src st) /\
    span st' = span st /\ same_members st st'.
Proof.
  intros G E. pose proof (input_nil _ E) as E0.
  unfold digit_or_dot_ahead.
  mstep (on_src_eq peek st). unfold peek at 1. rewrite G, E0. cbn [fst snd].
  change (isdigit EOF) with false. cbv iota.
  mstep (on_src_eq peek (set_src (peek (src st)).2 st)).
  unfold peek. rewrite G, E0. simpl.
  eexists. split; [reflexivity|]. repeat split.
Qed.

Lemma String_append_assoc (a b c : string) :
  ((a ++ b) ++ c)%string = (a ++ (b ++ c))%string.
Proof.
  induction a as [|x a IH]; [reflexivity|].
  change (String x ((a ++ b) ++ c) = String x (a ++ (b ++ c)))%string.
  now rewrite IH.
Qed.

(** The number loop on a run of number characters: it consumes the
    character it starts on and the whole run, and stops before [rest]. *)
Lemma read_number_run (run : list ascii) :
  forall (n : nat) (st : State) (acc : string) (c : ascii) (rest : list ascii),
  good (src st) = true ->
  input (src st) = c :: run ++ rest ->
  forallb digit_or_dot run = true ->
  run_ends rest = true ->
  (length run < n)%nat ->
  exists st',
    read_number n acc st = Done (acc ++ String c (string_of_list_ascii run))%string st' /\
    pos (src st') = (pos (src st) + S (length run))%nat /\
    data (src st') = data (src st) /\
    same_members st st'.
Proof.
  induction run as [|c' run IH]; intros n st acc c rest G E Hrun Hrest Hn;
    (destruct n as [|n]; [simpl in Hn; lia|]).
  - simpl. destruct (getc_at st c _ G E) as (st1 & E1 & Hs1 & Hm1). mstep E1.
    destruct (input_cons _ _ _ E) as [_ E'].
    assert (G1 : good (src st1) = true) by (rewrite Hs1; exact G).
    rewrite <- Hs1 in E'. simpl in E'.
    destruct rest as [|ch rest].
    + destruct (ahead_at_nil st1 G1 E') as (st2 & E2 & Hp2 & Hd2 & _ & Hm2).
      mstep E2. exists st2. unfold push_back. rewrite char_byte_to_int_type.
      split; [reflexivity|]. rewrite Hp2, Hd2, Hs1. simpl.
      split; [lia|]. split; [reflexivity|]. eapply same_members_trans; eauto.
    + destruct (ahead_at_cons st1 ch rest G1 E') as (st2 & E2 & Hs2 & _ & Hm2).
      mstep E2. simpl in Hrest. apply negb_true_iff in Hrest. rewrite Hrest.
      exists st2. unfold push_back. rewrite char_byte_to_int_type.
      split; [reflexivity|]. rewrite Hs2, Hs1. simpl.
      split; [lia|]. split; [reflexivity|]. eapply same_members_trans; eauto.
  - simpl in Hrun. apply andb_true_iff in Hrun as [Hc' Hrun].
    simpl. destruct (getc_at st c _ G E) as (st1 & E1 & Hs1 & Hm1). mstep E1.
    destruct (input_cons _ _ _ E) as [_ E'].
    assert (G1 : good (src st1) = true) by (rewrite Hs1; exact G).
    rewrite <- Hs1 in E'. simpl in E'.
    destruct (ahead_at_cons st1 c' _ G1 E') as (st2 & E2 & Hs2 & _ & Hm2).
    mstep E2. rewrite Hc'.
    destruct (IH n st2 (push_back acc (to_int_type c)) c' rest) as (st3 & E3 & Hp3 & Hd3 & Hm3);
      try assumption; [now rewrite Hs2 | now rewrite Hs2 | simpl in Hn; lia |].
    exists st3. rewrite E3. unfold push_back. rewrite char_byte_to_int_type.
    rewrite String_append_assoc. simpl.
    split; [reflexivity|]. rewrite Hp3, Hd3, Hs2, Hs1. simpl.
    split; [lia|]. split; [reflexivity|].
    eapply same_members_trans; [|exact Hm3]. eapply same_members_trans; eauto.
Qed.

Lemma digit_or_dot_classes (ch : ascii) :
  digit_or_dot ch = true ->
  isspace (to_int_type ch) = false /\ isalpha (to_int_type ch) = false /\
  (to_int_type ch =? 194) = false.
Proof.
  unfold digit_or_dot, isdigit, isspace, isalpha. intros Hd.
  apply orb_true_iff in Hd as [Hd|Hd].
  - apply andb_true_iff in Hd as [?%Z.leb_le ?%Z.leb_le].
    repeat split; lia.
  - apply Z.eqb_eq in Hd. rewrite Hd. repeat split.
Qed.

(** C10. On a parser with no token buffered and a good stream whose
    unread bytes start with a non-empty maximal run of digits and ['.'],
    [get_token] consumes exactly that run and returns it as one
    [tok_number] token, whatever the number of ['.'] in it. *)
Theorem get_token_number (n : nat) (st : State) (run rest : list ascii) :
  _buffer st = [] ->
  good (src st) = true ->
  input (src st) = run ++ rest ->
  (0 < length run)%nat ->
  forallb digit_or_dot run = true ->
  run_ends rest = true ->
  (length run < n)%nat ->
  exists (sp : Span) (st' : State),
    get_token (S n) st = Done (mkToken tok_number (string_of_list_ascii run) sp) st' /\
    pos (src st') = (pos (src st) + length run)%nat /\
    data (src st') = data (src st) /\
    same_members st st'.
Proof.
  intros Hb G E Hne Hrun Hrest Hn.
  destruct run as [|c run]; [simpl in Hne; lia|]. clear Hne.
  simpl in Hrun. apply andb_true_iff in Hrun as [Hc Hrun].
  destruct (digit_or_dot_classes c Hc) as (Hsp & Hal & Hc2).
  simpl in E. destruct (input_cons _ _ _ E) as [E0 _].
  assert (Ep : peek (src st) = (to_int_type c, src st)).
  { unfold peek. now rewrite G, E0. }
  assert (Eset : set_src (src st) st = st) by (now destruct st).
  simpl get_token. unfold bind at 1, gets at 1. cbv beta iota. rewrite Hb.
  destruct n as [|n]; [simpl in Hn; lia|].
  (* no space to skip *)
  assert (Esk : skip_spaces (S n) st = Done tt st).
  { simpl. mstep (on_src_eq is_space st). unfold is_space.
    rewrite Ep, Hsp, Ep, Hc2. simpl. unfold ret. now rewrite Eset. }
  mstep Esk. unfold bind at 1, gets at 1. cbv beta iota.
  assert (Eeof : eof (src st) = false).
  { unfold eof. unfold good in G. now destruct (eofbit (src st)). }
  rewrite Eeof.
  mstep (on_src_eq peek st). rewrite Ep. cbn [fst snd]. rewrite Hal, Eset.
  destruct (ahead_at_cons st c _ G E) as (st1 & E1 & Hs1 & Hsp1 & Hm1).
  mstep E1. rewrite Hc.
  unfold bind at 1, gets at 1. cbv beta iota.
  destruct (read_number_run run (S n) st1 EmptyString c rest)
    as (st2 & E2 & Hp2 & Hd2 & Hm2); try assumption;
    [now rewrite Hs1 | now rewrite Hs1 | simpl in Hn; lia |].
  mstep E2. unfold bind at 1, gets at 1. cbv beta iota.
  eexists _, st2. split; [reflexivity|].
  rewrite Hp2, Hd2, Hs1. split; [reflexivity|]. split; [reflexivity|].
  eapply same_members_trans; eauto.
Qed.

End Numbers.


(* ===================================================================== *)
(** ** More about the lexer and the parsers *)
(* ===================================================================== *)

Section LexFrame.
Context `{ParserHpp}.

Lemma lex_frame_refl (st : State) : lex_frame st st.
Proof. split; [apply same_members_refl | reflexivity]. Qed.

Lemma lex_frame_trans (a b c : State) : lex_frame a b -> lex_frame b c -> lex_frame a c.
Proof.
  intros [Hm1 Hd1] [Hm2 Hd2]. split; [eapply same_members_trans; eauto | congruence].
Qed.

(** Inversion of a monadic step. *)
Lemma bind_Done {A B : Type} (m : M A) (k : A -> M B) (st st' : State) (b : B) :
  bind m k st = Done b st' ->
  exists a st1, m st = Done a st1 /\ k a st1 = Done b st'.
Proof.
  unfold bind. destruct (m st) as [a st1| |]; [eauto | discriminate | discriminate].
Qed.

Lemma lexical_ret {A : Type} (a : A) : lexical (ret a).
Proof. intros st a' st' [= _ <-]. apply lex_frame_refl. Qed.

Lemma lexical_bind {A B : Type} (m : M A) (k : A -> M B) :
  lexical m -> (forall a, lexical (k a)) -> lexical (bind m k).
Proof.
  intros Hm Hk st b st' Hb. apply bind_Done in Hb as (a & st1 & E1 & E2).
  eapply lex_frame_trans; [eapply Hm | eapply Hk]; eassumption.
Qed.

Lemma lexical_gets {A : Type} (f : State -> A) : lexical (gets f).
Proof. intros st a st' [= _ <-]. apply lex_frame_refl. Qed.

Lemma lexical_out_of_fuel {A : Type} : lexical (@out_of_fuel _ A).
Proof. intros st a st' E. discriminate E. Qed.

Lemma lexical_on_src {A : Type} (f : istream -> A * istream) :
  (forall s, data (snd (f s)) = data s) -> lexical (on_src f).
Proof.
  intros Hf st a st' E. rewrite on_src_eq in E. injection E as _ <-.
  split; [repeat split | apply Hf].
Qed.

Lemma lexical_set_span (g : State -> Span) :
  lexical (modify (fun st => set_span (g st) st)).
Proof. intros st a st' [= _ <-]. repeat split. Qed.

Lemma peek_data (s : istream) : data (snd (peek s)) = data s.
Proof.
  destruct (peek_spec s) as [(ch & _ & _ & ->)|(_ & _ & _ & Hd)]; [reflexivity|exact Hd].
Qed.

Lemma get_data (s : istream) : data (snd (get s)) = data s.
Proof.
  destruct (get_spec s) as [(ch & _ & _ & ->)|(_ & _ & _ & Hd)]; [reflexivity|exact Hd].
Qed.

Lemma is_space_data (s : istream) : data (snd (is_space s)) = data s.
Proof.
  destruct s as [d p e f b].
  unfold is_space, peek, get, unget, good; simpl.
  destruct e, f, b; simpl; try reflexivity.
  destruct (d !! p) as [ch|] eqn:E; simpl; [|reflexivity].
  destruct (isspace (to_int_type ch)); simpl; [reflexivity|].
  rewrite E. simpl.
  destruct (to_int_type ch =? 194); simpl; [|reflexivity].
  rewrite E. simpl.
  destruct (d !! S p) as [ch'|]; simpl; [|reflexivity].
  destruct (to_int_type ch' =? 160); reflexivity.
Qed.

Lemma lexical_getc : lexical getc.
Proof.
  unfold getc. apply lexical_bind; [apply lexical_on_src, get_data|].
  intros c. apply lexical_bind.
  - destruct (c =? 10); [apply lexical_set_span | apply lexical_ret].
  - intros _. apply lexical_bind; [apply lexical_set_span|].
    intros _. apply lexical_ret.
Qed.

Lemma lexical_skip_spaces (n : nat) : lexical (skip_spaces n).
Proof.
  induction n as [|n IH]; simpl; [apply lexical_out_of_fuel|].
  apply lexical_bind; [apply lexical_on_src, is_space_data|].
  intros [|]; [|apply lexical_ret].
  apply lexical_bind; [apply lexical_getc | intros _; exact IH].
Qed.

Lemma lexical_read_alnum (n : nat) : forall tmp, lexical (read_alnum n tmp).
Proof.
  induction n as [|n IH]; intros tmp; simpl; [apply lexical_out_of_fuel|].
  apply lexical_bind; [apply lexical_on_src, peek_data|].
  intros p. destruct (isalnum p); [|apply lexical_ret].
  apply lexical_bind; [apply lexical_getc | intros c; apply IH].
Qed.

Lemma lexical_digit_or_dot_ahead : lexical digit_or_dot_ahead.
Proof.
  unfold digit_or_dot_ahead.
  apply lexical_bind; [apply lexical_on_src, peek_data|].
  intros p. destruct (isdigit p); [apply lexical_ret|].
  apply lexical_bind; [apply lexical_on_src, peek_data | intros q; apply lexical_ret].
Qed.

Lemma lexical_read_number (n : nat) : forall acc, lexical (read_number n acc).
Proof.
  induction n as [|n IH]; intros acc; simpl; [apply lexical_out_of_fuel|].
  apply lexical_bind; [apply lexical_getc|]. intros c.
  apply lexical_bind; [apply lexical_digit_or_dot_ahead|].
  intros [|]; [apply IH | apply lexical_ret].
Qed.

Lemma lexical_skip_comment (n : nat) : lexical (skip_comment n).
Proof.
  induction n as [|n IH]; simpl; [apply lexical_out_of_fuel|].
  apply lexical_bind; [apply lexical_getc|]. intros c.
  destruct (_ && _); [exact IH | apply lexical_ret].
Qed.

Lemma lexical_char_token : lexical char_token.
Proof.
  unfold char_token. apply lexical_bind; [apply lexical_getc|]. intros c.
  apply lexical_bind; [apply lexical_gets | intros sp; apply lexical_ret].
Qed.

(** A buffered token is handed out first, and nothing else changes. *)
Lemma get_token_buffered (n : nat) (st : State) (p : Token) (rest : list Token) :
  _buffer st = p :: rest -> get_token (S n) st = Done p (set_buffer rest st).
Proof.
  intros Hb. simpl. unfold bind at 1, gets at 1. cbv beta iota. now rewrite Hb.
Qed.

Lemma lexical_weaken {A : Type} (m : M A) : lexical m -> lexical_unbuffered m.
Proof. intros Hm st a st' _. apply Hm. Qed.

Lemma lexical_unbuffered_bind {A B : Type} (m : M A) (k : A -> M B) :
  lexical m -> (forall a, lexical_unbuffered (k a)) -> lexical_unbuffered (bind m k).
Proof.
  intros Hm Hk st b st' Hb0 Hb. apply bind_Done in Hb as (a & st1 & E1 & E2).
  pose proof (Hm _ _ _ E1) as F1.
  eapply lex_frame_trans; [exact F1|]. eapply Hk; [|exact E2].
  destruct F1 as [(Hbuf & _) _]. congruence.
Qed.

(** With nothing buffered, [get_token] works on the stream and the span
    only. *)
Lemma get_token_lexical (n : nat) : lexical_unbuffered (get_token n).
Proof.
  induction n as [|n IH]; [intros st a st' _ E; discriminate E|].
  intros st t st' Hb E.
  simpl in E. unfold bind at 1, gets at 1 in E. cbv beta iota in E.
  rewrite Hb in E. revert E.
  assert (Hrest : forall k : M Token, lexical_unbuffered k ->
            k st = Done t st' -> lex_frame st st') by (intros k Hk; now apply Hk).
  apply Hrest.
  apply lexical_unbuffered_bind; [apply lexical_skip_spaces|]. intros _.
  apply lexical_unbuffered_bind; [apply lexical_gets|]. intros [|].
  { apply lexical_weaken.
    apply lexical_bind; [apply lexical_set_span|]. intros _.
    apply lexical_bind; [apply lexical_gets | intros sp; apply lexical_ret]. }
  apply lexical_unbuffered_bind; [apply lexical_on_src, peek_data|]. intros c1.
  destruct (isalpha c1).
  { apply lexical_weaken.
    apply lexical_bind; [apply lexical_gets|]. intros beg.
    apply lexical_bind; [apply lexical_getc|]. intros c.
    apply lexical_bind; [apply lexical_read_alnum|]. intros tmp.
    apply lexical_bind; [apply lexical_gets|]. intros sp.
    destruct (String.eqb tmp "fn"); [apply lexical_ret|].
    destruct (String.eqb tmp "extern"); apply lexical_ret. }
  apply lexical_unbuffered_bind; [apply lexical_digit_or_dot_ahead|]. intros [|].
  { apply lexical_weaken.
    apply lexical_bind; [apply lexical_gets|]. intros beg.
    apply lexical_bind; [apply lexical_read_number|]. intros num.
    apply lexical_bind; [apply lexical_gets | intros sp; apply lexical_ret]. }
  apply lexical_unbuffered_bind; [apply lexical_on_src, peek_data|]. intros c2.
  destruct (c2 =? 35); [|apply lexical_weaken, lexical_char_token].
  apply lexical_unbuffered_bind; [apply lexical_skip_comment|]. intros tmp.
  destruct (negb (tmp =? EOF)); [exact IH | apply lexical_weaken, lexical_char_token].
Qed.

(** What [get_token] leaves alone, buffered token or not. *)
Lemma get_token_frame (n : nat) (st st' : State) (t : Token) :
  get_token n st = Done t st' ->
  cur_token st' = cur_token st /\ binop_prec st' = binop_prec st /\
  stderr st' = stderr st /\ data (src st') = data (src st) /\
  (length (_buffer st') <= length (_buffer st))%nat.
Proof.
  intros E. destruct (_buffer st) as [|p rest] eqn:Hb.
  - destruct (get_token_lexical n st t st' Hb E) as [(Hbuf & Hc & Hp & He) Hd].
    rewrite Hbuf, Hb. simpl. auto.
  - destruct n as [|n]; [discriminate E|].
    rewrite (get_token_buffered n st p rest Hb) in E. injection E as _ <-.
    simpl. repeat split; lia.
Qed.

(** X1. The lexer returns a token on every parser state once the fuel
    exceeds the number of unread bytes by two.  It never un-reads, it
    never adds to the buffer, and it changes neither the bytes of the
    stream nor the current token, the precedence table or what was
    printed to standard error. *)
Theorem get_token_terminates (n : nat) (st : State) :
  (remaining (src st) + 1 < n)%nat ->
  exists t st', get_token n st = Done t st' /\
    (remaining (src st') <= remaining (src st))%nat /\
    (length (_buffer st') <= length (_buffer st))%nat /\
    data (src st') = data (src st) /\
    cur_token st' = cur_token st /\ binop_prec st' = binop_prec st /\
    stderr st' = stderr st.
Proof.
  intros Hn. destruct (get_token_total n st Hn) as (t & st' & E & Hle).
  destruct (get_token_frame n st st' t E) as (Hc & Hp & He & Hd & Hb).
  exists t, st'. auto 10.
Qed.

End LexFrame.
Section LexerCases.
Context `{ParserHpp}.

Lemma set_src_same (st : State) : set_src (src st) st = st.
Proof. now destruct st. Qed.

(** At the end of the stream [is_space] says no, and [eofbit] is set
    afterwards. *)
Lemma is_space_at_end (s : istream) :
  at_end s = true ->
  fst (is_space s) = false /\ eofbit (snd (is_space s)) = true /\
  pos (snd (is_space s)) = pos s /\ data (snd (is_space s)) = data s.
Proof.
  destruct s as [d p e f b]. unfold at_end, is_space, peek, get, unget, good. simpl.
  destruct e; simpl.
  { intros _. repeat split. }
  destruct f, b; simpl; try discriminate.
  intros Hle. apply Nat.leb_le in Hle.
  rewrite (proj2 (lookup_ge_None d p) Hle). simpl. repeat split.
Qed.

(** X2. At the end of the stream [get_token] returns the [tok_eof] token
    with an empty lexeme, consumes nothing and leaves [eofbit] set, so that
    every later call returns [tok_eof] again. *)
Theorem get_token_at_end (n : nat) (st : State) :
  _buffer st = [] ->
  at_end (src st) = true ->
  exists st',
    get_token (S (S n)) st
      = Done (mkToken tok_eof EmptyString
                (span_set_begin 0 (span_set_end (span_begin (span st)) (span st)))) st' /\
    at_end (src st') = true /\ _buffer st' = [] /\
    pos (src st') = pos (src st) /\ lex_frame st st'.
Proof.
  intros Hb He.
  destruct (is_space_at_end (src st) He) as (Hsp & Heof & Hpos & Hdata).
  simpl get_token. unfold bind at 1, gets at 1. cbv beta iota. rewrite Hb.
  unfold bind at 1. unfold bind at 1. rewrite (on_src_eq is_space st), Hsp.
  cbv beta iota. unfold ret at 1. cbv beta iota.
  unfold bind at 1, gets at 1. cbv beta iota. unfold eof. cbn [src set_src]. rewrite Heof.
  unfold bind, modify, gets, ret. simpl.
  eexists. split; [reflexivity|]. simpl.
  unfold at_end. rewrite Heof. simpl.
  repeat split; assumption.
Qed.


(** On a good stream whose next bytes are not white space, [is_space]
    says no and leaves the stream exactly as it was. *)
Lemma is_space_not_blank (s : istream) (c : ascii) (rest : list ascii) :
  good s = true -> input s = c :: rest -> starts_blank (c :: rest) = false ->
  is_space s = (false, s).
Proof.
  intros G E Hnb. destruct (input_cons _ _ _ E) as [E0 E1].
  simpl in Hnb. apply orb_false_iff in Hnb as [Hsp Hnbsp].
  assert (Ep : peek s = (to_int_type c, s)) by (unfold peek; now rewrite G, E0).
  unfold is_space. rewrite Ep, Hsp, Ep.
  destruct (to_int_type c =? 194) eqn:C2; simpl; [|reflexivity].
  simpl in Hnbsp.
  unfold get. rewrite G, E0.
  destruct s as [d p e f b]. unfold good in G. simpl in *.
  destruct e, f, b; try discriminate G.
  destruct rest as [|ch rest].
  - pose proof (input_nil _ E1) as E2. simpl in E2.
    unfold peek, good. simpl. rewrite E2. simpl. reflexivity.
  - destruct (input_cons _ _ _ E1) as [E2 _]. simpl in E2.
    unfold peek, good. simpl. rewrite E2, Hnbsp. reflexivity.
Qed.

Lemma skip_spaces_not_blank (n : nat) (st : State) (c : ascii) (rest : list ascii) :
  good (src st) = true -> input (src st) = c :: rest ->
  starts_blank (c :: rest) = false ->
  (0 < n)%nat ->
  skip_spaces n st = Done tt st.
Proof.
  intros G E Hnb Hn. destruct n as [|n]; [lia|]. simpl. mstep (on_src_eq is_space st).
  rewrite (is_space_not_blank _ _ _ G E Hnb). cbn [fst snd].
  unfold ret. now rewrite set_src_same.
Qed.

Lemma peek_at (s : istream) (c : ascii) (rest : list ascii) :
  good s = true -> input s = c :: rest -> peek s = (to_int_type c, s).
Proof.
  intros G E. destruct (input_cons _ _ _ E) as [E0 _].
  unfold peek. now rewrite G, E0.
Qed.

Lemma on_src_peek_at (st : State) (c : ascii) (rest : list ascii) :
  good (src st) = true -> input (src st) = c :: rest ->
  on_src peek st = Done (to_int_type c) st.
Proof.
  intros G E. rewrite on_src_eq, (peek_at _ _ _ G E). cbn [fst snd].
  now rewrite set_src_same.
Qed.

(** [getc] where there is a byte: it is consumed and returned. *)
Lemma getc_step (st : State) (c : ascii) (rest : list ascii) :
  good (src st) = true -> input (src st) = c :: rest ->
  exists st', getc st = Done (to_int_type c) st' /\
    src st' = set_pos (S (pos (src st))) (src st) /\
    good (src st') = true /\ input (src st') = rest /\ lex_frame st st'.
Proof.
  intros G E. destruct (getc_at st c rest G E) as (st' & E1 & Hs & Hm).
  destruct (input_cons _ _ _ E) as [_ E'].
  exists st'. split; [exact E1|]. split; [exact Hs|].
  rewrite Hs. split; [exact G|]. split; [exact E'|].
  split; [exact Hm | now rewrite Hs].
Qed.

Lemma alnum_byte_not_EOF (c : ascii) : to_int_type c <> EOF.
Proof. pose proof (to_int_type_range c). unfold EOF. lia. Qed.

(** The word loop on a run of letters and digits. *)
Lemma read_alnum_run (run : list ascii) :
  forall (n : nat) (st : State) (acc : string) (rest : list ascii),
  good (src st) = true ->
  input (src st) = run ++ rest ->
  forallb alnum_byte run = true ->
  word_ends rest = true ->
  (length run < n)%nat ->
  exists st',
    read_alnum n acc st = Done (acc ++ string_of_list_ascii run)%string st' /\
    pos (src st') = (pos (src st) + length run)%nat /\
    lex_frame st st'.
Proof.
  induction run as [|c run IH]; intros n st acc rest G E Hrun Hrest Hn;
    (destruct n as [|n]; [simpl in Hn; lia|]).
  - simpl in E. simpl read_alnum.
    assert (Hacc : (acc ++ string_of_list_ascii [])%string = acc).
    { simpl. induction acc as [|x acc IHacc]; [reflexivity|].
      change (String x (acc ++ "") = String x acc)%string. now rewrite IHacc. }
    rewrite Hacc.
    destruct rest as [|ch rest].
    + mstep (on_src_eq peek st). unfold peek. rewrite G, (input_nil _ E).
      cbn [fst snd]. change (isalnum EOF) with false. cbv iota.
      eexists. split; [reflexivity|]. simpl.
      split; [now rewrite Nat.add_0_r|]. repeat split.
    + mstep (on_src_peek_at st ch rest G E).
      simpl in Hrest. apply negb_true_iff in Hrest. unfold alnum_byte in Hrest.
      rewrite Hrest. eexists. split; [reflexivity|].
      split; [simpl; now rewrite Nat.add_0_r|]. apply lex_frame_refl.
  - simpl in Hrun. apply andb_true_iff in Hrun as [Hc Hrun].
    simpl in E. simpl read_alnum.
    mstep (on_src_peek_at st c _ G E). unfold alnum_byte in Hc. rewrite Hc.
    destruct (getc_step st c _ G E) as (st1 & E1 & Hs1 & G1 & I1 & F1). mstep E1.
    destruct (IH n st1 (push_back acc (to_int_type c)) rest G1 I1 Hrun Hrest)
      as (st2 & E2 & Hp2 & F2); [simpl in Hn; lia|].
    exists st2. rewrite E2. unfold push_back. rewrite char_byte_to_int_type.
    rewrite String_append_assoc. simpl.
    split; [reflexivity|]. rewrite Hp2, Hs1. simpl. split; [lia|].
    eapply lex_frame_trans; eassumption.
Qed.

Lemma isalpha_classes (c : ascii) :
  isalpha (to_int_type c) = true ->
  isspace (to_int_type c) = false /\ (to_int_type c =? 194) = false.
Proof.
  unfold isalpha, isspace. intros Ha.
  apply orb_true_iff in Ha as [Ha|Ha];
    apply andb_true_iff in Ha as [?%Z.leb_le ?%Z.leb_le]; split; lia.
Qed.

(** The word case of [get_token]. *)
Lemma get_token_word_run (n : nat) (st : State) (c : ascii) (run rest : list ascii) :
  _buffer st = [] ->
  good (src st) = true ->
  input (src st) = c :: run ++ rest ->
  isalpha (to_int_type c) = true ->
  forallb alnum_byte run = true ->
  word_ends rest = true ->
  (length run + 1 < n)%nat ->
  exists (sp : Span) (st' : State),
    get_token (S n) st
      = Done (mkToken (word_code (string_of_list_ascii (c :: run)))
                      (string_of_list_ascii (c :: run)) sp) st' /\
    pos (src st') = (pos (src st) + S (length run))%nat /\
    lex_frame st st'.
Proof.
  intros Hb G E Hc Hrun Hrest Hn.
  destruct (isalpha_classes c Hc) as (Hsp & Hc2).
  assert (Hnb : starts_blank (c :: run ++ rest) = false).
  { simpl. now rewrite Hsp, Hc2. }
  simpl get_token. unfold bind at 1, gets at 1. cbv beta iota. rewrite Hb.
  mstep (skip_spaces_not_blank n st c _ G E Hnb ltac:(lia)).
  unfold bind at 1, gets at 1. cbv beta iota.
  assert (Eeof : eof (src st) = false).
  { unfold eof. unfold good in G. now destruct (eofbit (src st)). }
  rewrite Eeof.
  mstep (on_src_peek_at st c _ G E). rewrite Hc.
  unfold bind at 1, gets at 1. cbv beta iota.
  destruct (getc_step st c _ G E) as (st1 & E1 & Hs1 & G1 & I1 & F1). mstep E1.
  destruct (read_alnum_run run n st1 (String (char_byte (to_int_type c)) EmptyString)
              rest G1 I1 Hrun Hrest) as (st2 & E2 & Hp2 & F2); [lia|].
  mstep E2. unfold bind at 1, gets at 1. cbv beta iota.
  rewrite char_byte_to_int_type.
  change (String c "" ++ string_of_list_ascii run)%string
    with (string_of_list_ascii (c :: run)).
  unfold word_code.
  exists (span_mkfrom (span st2) (span_begin (span st))), st2.
  split.
  - destruct (String.eqb (string_of_list_ascii (c :: run)) "fn"); [reflexivity|].
    destruct (String.eqb (string_of_list_ascii (c :: run)) "extern"); reflexivity.
  - rewrite Hp2, Hs1. simpl. split; [lia|]. eapply lex_frame_trans; eassumption.
Qed.

(** X3. On a parser with nothing buffered and a good stream whose unread
    bytes start with a letter followed by a maximal run of letters and
    digits, [get_token] consumes exactly that word and returns it as one
    token: [tok_fn] for [fn], [tok_extern] for [extern], [tok_identifier]
    for every other word ([let] included). *)
Theorem get_token_word (n : nat) (st : State) (c : ascii) (run rest : list ascii) :
  _buffer st = [] ->
  good (src st) = true ->
  input (src st) = c :: run ++ rest ->
  isalpha (to_int_type c) = true ->
  forallb alnum_byte run = true ->
  word_ends rest = true ->
  (length run + 1 < n)%nat ->
  exists (sp : Span) (st' : State),
    get_token (S n) st
      = Done (mkToken (word_code (string_of_list_ascii (c :: run)))
                      (string_of_list_ascii (c :: run)) sp) st' /\
    pos (src st') = (pos (src st) + S (length run))%nat /\
    lex_frame st st'.
Proof. apply get_token_word_run. Qed.

End LexerCases.
Section LexerSkips.
Context `{ParserHpp}.

Lemma good_not_eof (s : istream) : good s = true -> eof s = false.
Proof. unfold good, eof. now destruct (eofbit s). Qed.

Lemma good_input_nil_at_end (s : istream) :
  good s = true -> input s = [] -> at_end s = true.
Proof.
  intros G E. unfold at_end. rewrite G. simpl.
  apply input_nil, lookup_ge_None in E. apply Nat.leb_le in E. rewrite E.
  apply orb_true_r.
Qed.

(** Where the white space ends, the skipping loop stops at once. *)
Lemma skip_spaces_stop (k : nat) (st : State) :
  good (src st) = true -> starts_blank (input (src st)) = false -> (0 < k)%nat ->
  skip_spaces k st = Done tt (set_src (snd (is_space (src st))) st).
Proof.
  intros G Hnb Hk. destruct k as [|k]; [lia|]. simpl.
  mstep (on_src_eq is_space st).
  destruct (input (src st)) as [|c rest] eqn:E.
  - destruct (is_space_at_end _ (good_input_nil_at_end _ G E)) as (-> & _).
    reflexivity.
  - rewrite (is_space_not_blank _ _ _ G E Hnb). reflexivity.
Qed.

Lemma skip_spaces_blanks (n : nat) :
  forall (blanks rest : list ascii) (st : State),
  good (src st) = true ->
  input (src st) = blanks ++ rest ->
  all_blank blanks = true ->
  starts_blank rest = false ->
  (length blanks < n)%nat ->
  exists st1,
    src st1 = set_pos (pos (src st) + length blanks) (src st) /\
    lex_frame st st1 /\
    skip_spaces n st = Done tt (set_src (snd (is_space (src st1))) st1).
Proof.
  induction n as [|n IH]; intros blanks rest st G E Hb Hr Hn; [lia|].
  destruct blanks as [|c blanks].
  - exists st. simpl in E. rewrite Nat.add_0_r.
    split; [now destruct (src st)|]. split; [apply lex_frame_refl|].
    apply skip_spaces_stop; [assumption | now rewrite E | lia].
  - simpl in E, Hb. simpl skip_spaces. mstep (on_src_eq is_space st).
    destruct (isspace (to_int_type c)) eqn:Sp.
    + assert (Eis : is_space (src st) = (true, src st)).
      { unfold is_space. now rewrite (peek_at _ _ _ G E), Sp. }
      rewrite Eis. cbn [fst snd]. rewrite set_src_same.
      destruct (getc_step st c _ G E) as (st1 & E1 & Hs1 & G1 & I1 & F1). mstep E1.
      destruct (IH blanks rest st1 G1 I1 Hb Hr) as (st2 & Hs2 & F2 & E2);
        [simpl in Hn; lia|].
      exists st2. split; [|split; [eapply lex_frame_trans; eassumption | exact E2]].
      rewrite Hs2, Hs1. unfold set_pos. cbn [pos data eofbit failbit badbit].
      f_equal. simpl length. lia.
    + destruct blanks as [|d blanks]; [discriminate Hb|].
      apply andb_true_iff in Hb as [Hb Hb']. apply andb_true_iff in Hb as [C2 A0].
      destruct (input_cons _ _ _ E) as [E0 E'].
      assert (Eis : is_space (src st) = (true, set_pos (S (pos (src st))) (src st))).
      { unfold is_space. rewrite (peek_at _ _ _ G E), Sp, (peek_at _ _ _ G E), C2.
        cbn [negb]. unfold get. rewrite G, E0.
        rewrite (peek_at (set_pos (S (pos (src st))) (src st)) d (blanks ++ rest) G E').
        now rewrite A0. }
      rewrite Eis. cbn [fst snd].
      set (sta := set_src (set_pos (S (pos (src st))) (src st)) st).
      assert (Ga : good (src sta) = true) by exact G.
      assert (Ia : input (src sta) = d :: blanks ++ rest) by exact E'.
      destruct (getc_step sta d _ Ga Ia) as (st1 & E1 & Hs1 & G1 & I1 & F1). mstep E1.
      destruct (IH blanks rest st1 G1 I1 Hb' Hr) as (st2 & Hs2 & F2 & E2);
        [simpl in Hn; lia|].
      exists st2. split; [|split; [|exact E2]].
      * rewrite Hs2, Hs1. unfold sta, set_pos.
        cbn [src set_src pos data eofbit failbit badbit]. f_equal. simpl length. lia.
      * eapply lex_frame_trans; [|exact F2]. eapply lex_frame_trans; [|exact F1].
        repeat split.
Qed.

(** X4. Leading white space (C-locale spaces and the two-byte no-break
    space [0xC2 0xA0]) is skipped: with nothing buffered, [get_token]
    returns what it returns on the parser whose stream stands after the
    white space. *)
Theorem get_token_skips_blanks (n : nat) (st : State) (blanks rest : list ascii) :
  _buffer st = [] ->
  good (src st) = true ->
  input (src st) = blanks ++ rest ->
  all_blank blanks = true ->
  starts_blank rest = false ->
  (length blanks < n)%nat ->
  exists st1,
    src st1 = set_pos (pos (src st) + length blanks) (src st) /\
    lex_frame st st1 /\
    get_token (S n) st = get_token (S n) st1.
Proof.
  intros Hb G E Hbl Hr Hn.
  destruct (skip_spaces_blanks n blanks rest st G E Hbl Hr Hn) as (st1 & Hs1 & F1 & E1).
  exists st1. split; [exact Hs1|]. split; [exact F1|].
  assert (Hb1 : _buffer st1 = []).
  { destruct F1 as [(Hbuf & _) _]. congruence. }
  assert (G1 : good (src st1) = true) by (rewrite Hs1; exact G).
  assert (I1 : input (src st1) = rest).
  { rewrite Hs1. unfold input in *. simpl.
    rewrite <- drop_drop, E. apply drop_app_length. }
  assert (E1' : skip_spaces n st1 = Done tt (set_src (snd (is_space (src st1))) st1)).
  { apply skip_spaces_stop; [assumption | now rewrite I1 | lia]. }
  simpl get_token. unfold bind, gets. rewrite Hb, Hb1, E1, E1'. reflexivity.
Qed.

End LexerSkips.
Section LexerComments.
Context `{ParserHpp}.

Lemma digit_or_dot_ahead_at (st : State) (c : ascii) (rest : list ascii) :
  good (src st) = true -> input (src st) = c :: rest ->
  digit_or_dot_ahead st = Done (digit_or_dot c) st.
Proof.
  intros G E. unfold digit_or_dot_ahead, digit_or_dot.
  mstep (on_src_peek_at st c rest G E).
  destruct (isdigit (to_int_type c)); [reflexivity|].
  mstep (on_src_peek_at st c rest G E). reflexivity.
Qed.

Lemma to_char_byte (c : ascii) :
  to_char (to_int_type c)
  = if to_int_type c <? 128 then to_int_type c else to_int_type c - 256.
Proof.
  unfold to_char. pose proof (to_int_type_range c).
  now rewrite Z.mod_small by lia.
Qed.





Lemma hash_classes (c : ascii) :
  to_int_type c = 35 ->
  starts_blank [c] = false /\ isalpha (to_int_type c) = false /\
  digit_or_dot c = false /\ comment_byte c = true.
Proof.
  intros Hc. unfold starts_blank, digit_or_dot, comment_byte. rewrite Hc.
  repeat split.
Qed.



Lemma char_byte_to_char (z : Z) : char_byte (to_char z) = char_byte z.
Proof.
  unfold char_byte, to_char. pose proof (Z.mod_pos_bound z 256 ltac:(lia)).
  destruct (z mod 256 <? 128).
  - now rewrite Z.mod_mod by lia.
  - replace (z mod 256 - 256) with (z mod 256 + (-1) * 256) by lia.
    now rewrite Z.mod_add, Z.mod_mod by lia.
Qed.



(** X7. Any other byte is a token of its own: on a byte that is not white
    space and starts no word, number or comment, [get_token] consumes that
    one byte and returns it as lexeme; the token code is the byte as a
    signed [char], hence negative for the bytes from [0x80] on. *)
Theorem get_token_char (n : nat) (st : State) (c : ascii) (rest : list ascii) :
  _buffer st = [] ->
  good (src st) = true ->
  input (src st) = c :: rest ->
  starts_blank (c :: rest) = false ->
  punct_byte c = true ->
  (0 < n)%nat ->
  exists (sp : Span) (st' : State),
    get_token (S n) st
      = Done (mkToken (if to_int_type c <? 128 then to_int_type c
                       else to_int_type c - 256)
                      (String c EmptyString) sp) st' /\
    src st' = set_pos (S (pos (src st))) (src st) /\
    lex_frame st st'.
Proof.
  intros Hb G E Hnb Hp Hn.
  unfold punct_byte in Hp. apply andb_true_iff in Hp as [Hp Hhash].
  apply andb_true_iff in Hp as [Hal Hdd].
  apply negb_true_iff in Hal, Hdd, Hhash.
  destruct (getc_step st c _ G E) as (st1 & E1 & Hs1 & G1 & I1 & F1).
  exists (span_mkfrom (span st1) (span_begin (span st1) - 1)), st1.
  split; [|split; assumption].
  simpl get_token. unfold bind at 1, gets at 1. cbv beta iota. rewrite Hb.
  mstep (skip_spaces_not_blank n st c _ G E Hnb Hn).
  unfold bind at 1, gets at 1. cbv beta iota. rewrite (good_not_eof _ G).
  mstep (on_src_peek_at st c _ G E). rewrite Hal.
  mstep (digit_or_dot_ahead_at st c _ G E). rewrite Hdd.
  mstep (on_src_peek_at st c _ G E). rewrite Hhash.
  unfold char_token. mstep E1. unfold bind, gets, ret.
  now rewrite char_byte_to_char, char_byte_to_int_type, to_char_byte.
Qed.

End LexerComments.
Section LookAhead.
Context `{ParserHpp}.

(** X8. [get_token_prec] on a token returns [-1] or a positive
    precedence, and a positive one only as the table has it for the token
    code; for a code that is not ASCII it returns [-1] and changes
    nothing.  The table only grows: every entry stays, and the only entry
    that can be added maps the token code to 0. *)
Theorem get_token_prec_range (t : Token) (st : State) :
  exists v st',
    get_token_prec (Some t) st = Done v st' /\
    (v = -1 \/ 0 < v) /\
    (0 < v -> binop_prec st !! type t = Some v) /\
    (isascii (type t) = false -> v = -1 /\ st' = st) /\
    binop_prec st ⊆ binop_prec st' /\
    (forall k x, binop_prec st' !! k = Some x ->
       binop_prec st !! k = Some x \/ (k = type t /\ x = 0)) /\
    st' = set_binop_prec (binop_prec st') st.
Proof.
  unfold get_token_prec.
  destruct (isascii (type t)) eqn:Ea; cbn [negb].
  2:{ exists (-1), st. split; [reflexivity|]. split; [now left|].
      split; [lia|]. split; [auto|]. split; [reflexivity|].
      split; [auto | now destruct st]. }
  unfold bind, gets, modify, ret. cbv beta iota.
  destruct (binop_prec st !! type t) as [v|] eqn:Ev.
  - destruct (Z.leb_spec v 0).
    + exists (-1), st. split; [reflexivity|]. split; [now left|].
      split; [lia|]. split; [discriminate|]. split; [reflexivity|].
      split; [auto | now destruct st].
    + exists v, st. split; [reflexivity|]. split; [now right|].
      split; [auto|]. split; [discriminate|]. split; [reflexivity|].
      split; [auto | now destruct st].
  - simpl.
    eexists (-1), _. split; [reflexivity|]. split; [now left|].
    split; [lia|]. split; [discriminate|]. simpl.
    split; [now apply insert_subseteq|]. split; [|reflexivity].
    intros k x Hk. destruct (decide (k = type t)) as [->|Hne].
    + rewrite lookup_insert_eq in Hk. injection Hk as <-. now right.
    + rewrite lookup_insert_ne in Hk by congruence. now left.
Qed.

Lemma buffer_back_Done (st st' : State) (b : Token) :
  buffer_back st = Done b st' -> st' = st /\ last (_buffer st) = Some b.
Proof.
  unfold buffer_back. destruct (last (_buffer st)); [|discriminate].
  now intros [= -> ->].
Qed.

(** The filling loop of [peek_token] takes tokens from the front of the
    buffer and puts them at its back. *)
Lemma peek_token_fill_rotates (i : nat) : forall (fuel : nat) (st st' : State),
  peek_token_fill fuel i st = Done tt st' ->
  st' = set_buffer (_buffer st') st /\ _buffer st' ≡ₚ _buffer st.
Proof.
  induction i as [|i IH]; intros fuel st st' E; simpl in E.
  - injection E as <-. split; [now destruct st | reflexivity].
  - apply bind_Done in E as (b & st0 & E0 & E).
    apply buffer_back_Done in E0 as [-> Hlast].
    destruct (negb (type b =? tok_eof)).
    2:{ injection E as <-. split; [now destruct st | reflexivity]. }
    apply bind_Done in E as (t & st1 & E1 & E).
    destruct (_buffer st) as [|p rest] eqn:Hb; [discriminate Hlast|].
    destruct fuel as [|fuel]; [discriminate E1|].
    rewrite (get_token_buffered fuel st p rest Hb) in E1. injection E1 as <- <-.
    apply bind_Done in E as ([] & st2 & E2 & E).
    injection E2 as <-.
    apply IH in E as [Hst Hperm]. simpl in Hst, Hperm.
    split.
    + rewrite Hst. now destruct st.
    + rewrite Hperm. now rewrite Permutation_app_comm.
Qed.

(** X9. [peek_token] never reads from the stream: whenever it returns,
    the returned code is the code of the current token or of a buffered
    token, the buffer holds the same tokens as before (tokens taken from
    its front are put at its back), and nothing else has changed. *)
Theorem peek_token_reads_nothing (fuel n : nat) (st st' : State) (v : Z) :
  peek_token fuel n st = Done v st' ->
  st' = set_buffer (_buffer st') st /\
  _buffer st' ≡ₚ _buffer st /\
  v ∈ type <$> (option_list (cur_token st) ++ _buffer st).
Proof.
  unfold peek_token. destruct (n <? 1)%nat.
  { intros E. apply bind_Done in E as (t & st0 & E0 & E).
    unfold cur in E0. destruct (cur_token st) as [t0|] eqn:Hc; [|discriminate].
    injection E0 as <- <-. injection E as <- <-.
    split; [now destruct st|]. split; [reflexivity|].
    simpl. apply list_elem_of_here. }
  intros E. apply bind_Done in E as (buf & st0 & E0 & E).
  injection E0 as <- <-.
  destruct (n <=? length (_buffer st))%nat.
  { destruct (_buffer st !! (n - 1)%nat) as [t|] eqn:Et; [|discriminate].
    injection E as <- <-.
    split; [now destruct st|]. split; [reflexivity|].
    rewrite fmap_app. apply elem_of_app. right.
    apply list_elem_of_fmap. exists t. split; [reflexivity|].
    eapply list_elem_of_lookup_2; eassumption. }
  apply bind_Done in E as ([] & st1 & E1 & E).
  apply peek_token_fill_rotates in E1 as [Hst Hperm].
  apply bind_Done in E as (b & st2 & E2 & E).
  apply buffer_back_Done in E2 as [-> Hlast]. injection E as <- <-.
  split; [exact Hst|]. split; [exact Hperm|].
  rewrite fmap_app. apply elem_of_app. right.
  apply list_elem_of_fmap. exists b. split; [reflexivity|].
  rewrite <- Hperm. apply last_Some_elem_of. exact Hlast.
Qed.

(** Looking ahead with an empty buffer calls [back()] on it. *)
Lemma peek_token_empty (fuel n : nat) (st : State) :
  _buffer st = [] -> (0 < n)%nat -> peek_token fuel n st = Undefined.
Proof.
  intros Hb Hn. unfold peek_token.
  destruct (Nat.ltb_spec n 1); [lia|].
  unfold bind at 1, gets at 1. cbv beta iota. rewrite Hb. simpl length.
  destruct (Nat.leb_spec n 0); [lia|].
  rewrite Nat.sub_0_r. destruct n as [|n]; [lia|]. simpl.
  unfold bind, buffer_back. now rewrite Hb.
Qed.

Lemma parse_primary_identifier_empty (n : nat) (st : State) (t : Token) :
  _buffer st = [] -> cur_token st = Some t -> type t = tok_identifier ->
  parse_primary (S n) st = Undefined.
Proof.
  intros Hb Hc Ht. simpl. mstep (cur_eq st t Hc).
  rewrite Ht, Z.eqb_refl. unfold bind.
  now rewrite (peek_token_empty n 1 st Hb ltac:(lia)).
Qed.

End LookAhead.
Section Prototypes.
Context `{ParserHpp}.

Lemma parse_identifier_empty (n : nat) (st : State) (t : Token) :
  _buffer st = [] ->
  cur_token st = Some t ->
  type t = tok_identifier ->
  parse_primary (S n) st = Undefined /\
  parse_expr (S (S n)) st = Undefined /\
  parse_tle (S (S n)) st = Undefined.
Proof.
  intros Hb Hc Ht.
  pose proof (parse_primary_identifier_empty n st t Hb Hc Ht) as E.
  split; [exact E|].
  assert (E' : parse_expr (S (S n)) st = Undefined).
  { change (parse_expr (S (S n)) st)
      with (bind (parse_primary (S n))
              (fun lhs => match lhs with
                          | None => ret None
                          | Some l => parse_binop_rhs (S n) 0 l
                          end) st).
    unfold bind. now rewrite E. }
  split; [exact E'|]. unfold parse_tle, bind. now rewrite E'.
Qed.

(** X10. With an empty look-ahead buffer, an expression that starts with
    an identifier cannot be parsed: [parse_primary] looks one token ahead,
    and [peek_token] calls [back()] on the empty buffer, which is
    undefined; so are [parse_expr] and [parse_tle]. *)
Theorem parse_identifier_undefined (n : nat) (st : State) (t : Token) :
  _buffer st = [] ->
  cur_token st = Some t ->
  type t = tok_identifier ->
  parse_primary (S n) st = Undefined /\
  parse_expr (S (S n)) st = Undefined /\
  parse_tle (S (S n)) st = Undefined.
Proof. apply parse_identifier_empty. Qed.



End Prototypes.

Section Diagnosed.
Context `{ParserHpp}.











End Diagnosed.
Section LexerOnly.
Context `{ParserHpp}.

Lemma same_lexer_refl (st : State) : same_lexer st st.
Proof. repeat split. Qed.

Lemma same_lexer_at (L : State) c tbl err : same_lexer L (at_lexer L c tbl err).
Proof. repeat split. Qed.

Lemma lexer_only_ret {A : Type} (a : A) : lexer_only (ret a).
Proof.
  intros st st2 a' st1 (Hb & Hs & Hp) [= <- <-]. unfold ret, at_lexer.
  rewrite <- Hb, <- Hs, <- Hp. now destruct st2.
Qed.

Lemma lexer_only_bind {A B : Type} (m : M A) (k : A -> M B) :
  lexer_only m -> (forall a, lexer_only (k a)) -> lexer_only (bind m k).
Proof.
  intros Hm Hk st st2 b st' Hsl E. apply bind_Done in E as (a & st1 & E1 & E2).
  unfold bind. rewrite (Hm st st2 a st1 Hsl E1).
  apply (Hk a st1 _ b st' (same_lexer_at st1 _ _ _) E2).
Qed.

Lemma lexer_only_gets {A : Type} (f : State -> A) :
  (forall st st2, same_lexer st st2 -> f st2 = f st) -> lexer_only (gets f).
Proof.
  intros Hf st st2 a st1 Hsl [= <- <-]. unfold gets. rewrite (Hf st st2 Hsl).
  destruct Hsl as (Hb & Hs & Hp). unfold at_lexer.
  rewrite <- Hb, <- Hs, <- Hp. now destruct st2.
Qed.

Lemma lexer_only_out_of_fuel {A : Type} : lexer_only (@out_of_fuel _ A).
Proof. intros st st2 a st1 _ E. discriminate E. Qed.

Lemma lexer_only_on_src {A : Type} (f : istream -> A * istream) : lexer_only (on_src f).
Proof.
  intros st st2 a st1 (Hb & Hs & Hp) E. rewrite on_src_eq in E. injection E as <- <-.
  rewrite on_src_eq, Hs. unfold at_lexer, set_src. simpl. now rewrite Hb, Hp.
Qed.

Lemma lexer_only_set_span (g : State -> Span) :
  (forall st st2, same_lexer st st2 -> g st2 = g st) ->
  lexer_only (modify (fun st => set_span (g st) st)).
Proof.
  intros Hg st st2 a st1 Hsl [= <- <-]. unfold modify. rewrite (Hg st st2 Hsl).
  destruct Hsl as (Hb & Hs & Hp). unfold at_lexer, set_span. simpl.
  now rewrite Hb, Hs.
Qed.

Lemma lexer_only_set_buffer (b : list Token) : lexer_only (modify (set_buffer b)).
Proof.
  intros st st2 a st1 (Hb & Hs & Hp) [= <- <-]. unfold modify, at_lexer, set_buffer.
  simpl. now rewrite Hs, Hp.
Qed.

Lemma span_same (st st2 : State) : same_lexer st st2 -> span st2 = span st.
Proof. now intros (_ & _ & Hp). Qed.

Lemma lexer_only_getc : lexer_only getc.
Proof.
  unfold getc. apply lexer_only_bind; [apply lexer_only_on_src|]. intros c.
  apply lexer_only_bind.
  - destruct (c =? 10); [|apply lexer_only_ret].
    apply lexer_only_set_span. intros st st2 Hsl. now rewrite (span_same _ _ Hsl).
  - intros _. apply lexer_only_bind; [|intros _; apply lexer_only_ret].
    apply lexer_only_set_span. intros st st2 Hsl. now rewrite (span_same _ _ Hsl).
Qed.

Lemma lexer_only_skip_spaces (n : nat) : lexer_only (skip_spaces n).
Proof.
  induction n as [|n IH]; simpl; [apply lexer_only_out_of_fuel|].
  apply lexer_only_bind; [apply lexer_only_on_src|].
  intros [|]; [|apply lexer_only_ret].
  apply lexer_only_bind; [apply lexer_only_getc | intros _; exact IH].
Qed.

Lemma lexer_only_read_alnum (n : nat) : forall tmp, lexer_only (read_alnum n tmp).
Proof.
  induction n as [|n IH]; intros tmp; simpl; [apply lexer_only_out_of_fuel|].
  apply lexer_only_bind; [apply lexer_only_on_src|].
  intros p. destruct (isalnum p); [|apply lexer_only_ret].
  apply lexer_only_bind; [apply lexer_only_getc | intros c; apply IH].
Qed.

Lemma lexer_only_digit_or_dot_ahead : lexer_only digit_or_dot_ahead.
Proof.
  unfold digit_or_dot_ahead. apply lexer_only_bind; [apply lexer_only_on_src|].
  intros p. destruct (isdigit p); [apply lexer_only_ret|].
  apply lexer_only_bind; [apply lexer_only_on_src | intros q; apply lexer_only_ret].
Qed.

Lemma lexer_only_read_number (n : nat) : forall acc, lexer_only (read_number n acc).
Proof.
  induction n as [|n IH]; intros acc; simpl; [apply lexer_only_out_of_fuel|].
  apply lexer_only_bind; [apply lexer_only_getc|]. intros c.
  apply lexer_only_bind; [apply lexer_only_digit_or_dot_ahead|].
  intros [|]; [apply IH | apply lexer_only_ret].
Qed.

Lemma lexer_only_skip_comment (n : nat) : lexer_only (skip_comment n).
Proof.
  induction n as [|n IH]; simpl; [apply lexer_only_out_of_fuel|].
  apply lexer_only_bind; [apply lexer_only_getc|]. intros c.
  destruct (_ && _); [exact IH | apply lexer_only_ret].
Qed.

Lemma lexer_only_char_token : lexer_only char_token.
Proof.
  unfold char_token. apply lexer_only_bind; [apply lexer_only_getc|]. intros c.
  apply lexer_only_bind; [|intros sp; apply lexer_only_ret].
  apply lexer_only_gets. intros st st2 Hsl. apply (span_same _ _ Hsl).
Qed.

(** [get_token] reads and writes the buffer, the stream and the span
    only. *)
Lemma lexer_only_get_token (n : nat) : lexer_only (get_token n).
Proof.
  induction n as [|n IH]; simpl; [apply lexer_only_out_of_fuel|].
  apply lexer_only_bind.
  { apply lexer_only_gets. now intros st st2 (Hb & _). }
  intros [|p rest].
  2:{ apply lexer_only_bind; [apply lexer_only_set_buffer | intros _; apply lexer_only_ret]. }
  apply lexer_only_bind; [apply lexer_only_skip_spaces|]. intros _.
  apply lexer_only_bind.
  { apply lexer_only_gets. intros st st2 (_ & Hs & _). now rewrite Hs. }
  intros [|].
  { apply lexer_only_bind.
    - apply lexer_only_set_span. intros st st2 Hsl. now rewrite (span_same _ _ Hsl).
    - intros _. apply lexer_only_bind; [|intros sp; apply lexer_only_ret].
      apply lexer_only_gets. intros st st2 Hsl. apply (span_same _ _ Hsl). }
  apply lexer_only_bind; [apply lexer_only_on_src|]. intros c1.
  destruct (isalpha c1).
  { apply lexer_only_bind.
    { apply lexer_only_gets. intros st st2 Hsl. now rewrite (span_same _ _ Hsl). }
    intros beg.
    apply lexer_only_bind; [apply lexer_only_getc|]. intros c.
    apply lexer_only_bind; [apply lexer_only_read_alnum|]. intros tmp.
    apply lexer_only_bind.
    { apply lexer_only_gets. intros st st2 Hsl. apply (span_same _ _ Hsl). }
    intros sp.
    destruct (String.eqb tmp "fn"); [apply lexer_only_ret|].
    destruct (String.eqb tmp "extern"); apply lexer_only_ret. }
  apply lexer_only_bind; [apply lexer_only_digit_or_dot_ahead|]. intros [|].
  { apply lexer_only_bind.
    { apply lexer_only_gets. intros st st2 Hsl. now rewrite (span_same _ _ Hsl). }
    intros beg.
    apply lexer_only_bind; [apply lexer_only_read_number|]. intros num.
    apply lexer_only_bind; [|intros sp; apply lexer_only_ret].
    apply lexer_only_gets. intros st st2 Hsl. apply (span_same _ _ Hsl). }
  apply lexer_only_bind; [apply lexer_only_on_src|]. intros c2.
  destruct (c2 =? 35); [|apply lexer_only_char_token].
  apply lexer_only_bind; [apply lexer_only_skip_comment|]. intros tmp.
  destruct (negb (tmp =? EOF)); [exact IH | apply lexer_only_char_token].
Qed.

(** More fuel gives the same result. *)
Lemma refines_refl {A : Type} (m : M A) : refines m m.
Proof. intros st a st' E. exact E. Qed.

Lemma refines_bind {A B : Type} (m m' : M A) (k k' : A -> M B) :
  refines m m' -> (forall a, refines (k a) (k' a)) -> refines (bind m k) (bind m' k').
Proof.
  intros Hm Hk st b st' E. apply bind_Done in E as (a & st1 & E1 & E2).
  unfold bind. rewrite (Hm _ _ _ E1). now apply Hk.
Qed.

Lemma refines_out_of_fuel {A : Type} (m : M A) : refines out_of_fuel m.
Proof. intros st a st' E. discriminate E. Qed.

Lemma skip_spaces_mono (n : nat) : forall m, (n <= m)%nat ->
  refines (skip_spaces n) (skip_spaces m).
Proof.
  induction n as [|n IH]; intros m Hm; [apply refines_out_of_fuel|].
  destruct m as [|m]; [lia|]. simpl.
  apply refines_bind; [apply refines_refl|]. intros [|]; [|apply refines_refl].
  apply refines_bind; [apply refines_refl | intros _; apply IH; lia].
Qed.

Lemma read_alnum_mono (n : nat) : forall m tmp, (n <= m)%nat ->
  refines (read_alnum n tmp) (read_alnum m tmp).
Proof.
  induction n as [|n IH]; intros m tmp Hm; [apply refines_out_of_fuel|].
  destruct m as [|m]; [lia|]. simpl.
  apply refines_bind; [apply refines_refl|]. intros p.
  destruct (isalnum p); [|apply refines_refl].
  apply refines_bind; [apply refines_refl | intros c; apply IH; lia].
Qed.

Lemma read_number_mono (n : nat) : forall m acc, (n <= m)%nat ->
  refines (read_number n acc) (read_number m acc).
Proof.
  induction n as [|n IH]; intros m acc Hm; [apply refines_out_of_fuel|].
  destruct m as [|m]; [lia|]. simpl.
  apply refines_bind; [apply refines_refl|]. intros c.
  apply refines_bind; [apply refines_refl|].
  intros [|]; [apply IH; lia | apply refines_refl].
Qed.

Lemma skip_comment_mono (n : nat) : forall m, (n <= m)%nat ->
  refines (skip_comment n) (skip_comment m).
Proof.
  induction n as [|n IH]; intros m Hm; [apply refines_out_of_fuel|].
  destruct m as [|m]; [lia|]. simpl.
  apply refines_bind; [apply refines_refl|]. intros c.
  destruct (_ && _); [apply IH; lia | apply refines_refl].
Qed.

(** The token [get_token] returns does not depend on the fuel, once there
    is enough of it. *)
Lemma get_token_mono (n : nat) : forall m, (n <= m)%nat ->
  refines (get_token n) (get_token m).
Proof.
  induction n as [|n IH]; intros m Hm; [apply refines_out_of_fuel|].
  destruct m as [|m]; [lia|]. simpl.
  assert (Hnm : (n <= m)%nat) by lia.
  apply refines_bind; [apply refines_refl|]. intros [|p rest]; [|apply refines_refl].
  apply refines_bind; [now apply skip_spaces_mono|]. intros _.
  apply refines_bind; [apply refines_refl|]. intros [|]; [apply refines_refl|].
  apply refines_bind; [apply refines_refl|]. intros c1.
  destruct (isalpha c1).
  { apply refines_bind; [apply refines_refl|]. intros beg.
    apply refines_bind; [apply refines_refl|]. intros c.
    apply refines_bind; [now apply read_alnum_mono | intros tmp; apply refines_refl]. }
  apply refines_bind; [apply refines_refl|]. intros [|].
  { apply refines_bind; [apply refines_refl|]. intros beg.
    apply refines_bind; [now apply read_number_mono | intros num; apply refines_refl]. }
  apply refines_bind; [apply refines_refl|]. intros c2.
  destruct (c2 =? 35); [|apply refines_refl].
  apply refines_bind; [now apply skip_comment_mono|]. intros tmp.
  destruct (negb (tmp =? EOF)); [now apply IH | apply refines_refl].
Qed.

(** [next_token] on a parser whose buffer, stream and span are those of a
    state [L] on which [get_token] is known to return [t]. *)
Lemma next_token_at (n0 n : nat) (L L1 : State) (t : Token)
    (c : option Token) (tbl : gmap Z Z) (err : list string) :
  get_token n0 L = Done t L1 -> (n0 <= n)%nat ->
  next_token n (at_lexer L c tbl err) = Done (type t) (at_lexer L1 (Some t) tbl err).
Proof.
  intros E Hn. apply (get_token_mono n0 n Hn) in E.
  apply (lexer_only_get_token n L (at_lexer L c tbl err) t L1 (same_lexer_at L c tbl err)) in E.
  unfold next_token. mstep E. reflexivity.
Qed.

Lemma lex_tokens_cons (n0 c : nat) (L Lend : State) (t : Token) (ts : list Token) :
  lex_tokens n0 (S c) L = Some (t :: ts, Lend) ->
  exists L1, get_token n0 L = Done t L1 /\ lex_tokens n0 c L1 = Some (ts, Lend).
Proof.
  intros E. simpl in E. destruct (get_token n0 L) as [t' L1| |]; try discriminate E.
  destruct (lex_tokens n0 c L1) as [[ts' L2]|] eqn:E'; [|discriminate E].
  injection E as -> -> ->. exists L1. split; [reflexivity | exact E'].
Qed.

Lemma lex_tokens_length (n0 : nat) : forall (c : nat) (L Lend : State) (ts : list Token),
  lex_tokens n0 c L = Some (ts, Lend) -> length ts = c.
Proof.
  induction c as [|c IH]; intros L Lend ts E.
  - now injection E as <- _.
  - simpl in E. destruct (get_token n0 L) as [t' L1| |]; try discriminate.
    destruct (lex_tokens n0 c L1) as [[ts' L2]|] eqn:E'; [|discriminate].
    injection E as <- _. simpl. f_equal. eapply IH. eassumption.
Qed.

End LexerOnly.
Section PrototypesLexed.
Context `{ParserHpp}.

Lemma cur_at (L : State) (t : Token) (tbl : gmap Z Z) (err : list string) :
  cur (at_lexer L (Some t) tbl err) = Done t (at_lexer L (Some t) tbl err).
Proof. reflexivity. Qed.

Lemma at_lexer_self (st : State) :
  at_lexer st (cur_token st) (binop_prec st) (stderr st) = st.
Proof. now destruct st. Qed.

(** The last of the next tokens. *)
Lemma lex_tokens_snoc (n0 : nat) (ups : list Token) (t : Token) :
  forall (L Lend : State),
  lex_tokens n0 (length ups + 1) L = Some (ups ++ [t], Lend) ->
  exists L3, lex_tokens n0 (length ups) L = Some (ups, L3) /\
             get_token n0 L3 = Done t Lend.
Proof.
  induction ups as [|u ups IH]; intros L Lend Hlex.
  - change (lex_tokens n0 1 L = Some ([t], Lend)) in Hlex.
    apply lex_tokens_cons in Hlex as (L3 & E3 & Hlex).
    injection Hlex as <-. exists L. split; [reflexivity | exact E3].
  - change (lex_tokens n0 (S (length ups + 1)) L = Some (u :: ups ++ [t], Lend)) in Hlex.
    apply lex_tokens_cons in Hlex as (La & Ea & Hlex).
    destruct (IH La Lend Hlex) as (L3 & Hl3 & E3).
    exists L3. split; [|exact E3]. simpl. now rewrite Ea, Hl3.
Qed.

(** The parameter loop on a list in which a comma precedes every name;
    [t0] is the current token, [ups] are the tokens [get_token] returns
    next. *)
Lemma parse_params_lexed (n0 : nat) (names : list string) :
  forall (f : nat) (L Lend : State) (acc : list string) (t0 close : Token)
         (toks ups : list Token) (tbl : gmap Z Z) (err : list string),
  comma_led names toks = true ->
  type close = 41 ->
  t0 :: ups = toks ++ [close] ->
  lex_tokens n0 (length ups) L = Some (ups, Lend) ->
  (n0 + length names < f)%nat ->
  parse_params f acc (at_lexer L (Some t0) tbl err)
    = Done (acc ++ names) (at_lexer Lend (Some close) tbl err).
Proof.
  induction names as [|x names IH];
    intros f L Lend acc t0 close toks ups tbl err Hcl Hclose Hb Hlex Hn;
    (destruct f as [|n]; [lia|]).
  - destruct toks as [|? ?]; [|discriminate Hcl]. simpl in Hb. injection Hb as -> ->.
    simpl in Hlex. injection Hlex as <-.
    simpl. mstep (cur_at L close tbl err). rewrite Hclose. simpl.
    unfold ret. now rewrite app_nil_r.
  - destruct toks as [|c [|i toks]]; try discriminate Hcl. simpl in Hcl.
    apply andb_true_iff in Hcl as [Hcl Hrec]. apply andb_true_iff in Hcl as [Hcl Hx].
    apply andb_true_iff in Hcl as [Hcomma Hid].
    apply Z.eqb_eq in Hcomma. apply String.eqb_eq in Hx.
    simpl in Hb. injection Hb as -> ->.
    simpl length in Hlex. apply lex_tokens_cons in Hlex as (L1 & E1 & Hlex).
    destruct (toks ++ [close]) as [|h tl] eqn:Htl.
    { destruct toks; discriminate Htl. }
    simpl length in Hlex. apply lex_tokens_cons in Hlex as (L2 & E2 & Hlex).
    simpl in Hn.
    simpl parse_params. mstep (cur_at L c tbl err). rewrite Hcomma.
    change (negb (44 =? 41)) with true. change (44 =? 44) with true. cbv iota.
    mstep (next_token_at n0 n L L1 i (Some c) tbl err E1 ltac:(lia)).
    mstep (cur_at L1 i tbl err). rewrite Hid.
    mstep (next_token_at n0 n L1 L2 h (Some i) tbl err E2 ltac:(lia)).
    rewrite (IH n L2 Lend (acc ++ [lexeme i]) h close toks tl tbl err Hrec Hclose);
      [| now rewrite Htl | exact Hlex | lia].
    now rewrite <- app_assoc, Hx.
Qed.

(** [parse_prototype] on a parameter list in which a comma precedes every
    name; the tokens are those [get_token] returns from [L] on. *)
Lemma parse_prototype_at
    (n0 n : nat) (L Lend : State) (names : list string)
    (name lp rp nxt : Token) (toks : list Token) (tbl : gmap Z Z) (err : list string) :
  type name = tok_identifier ->
  lex_tokens n0 (length (lp :: toks ++ [rp; nxt])) L
    = Some (lp :: toks ++ [rp; nxt], Lend) ->
  type lp = 40 ->
  type rp = 41 ->
  comma_led names toks = true ->
  (n0 + length names < n)%nat ->
  parse_prototype n (at_lexer L (Some name) tbl err)
    = Done (Some (mkPrototype (lexeme name) names None))
           (at_lexer Lend (Some nxt) tbl err).
Proof.
  intros Hname Hlex Hlp Hrp Hcl Hn.
  simpl length in Hlex. apply lex_tokens_cons in Hlex as (L1 & E1 & Hlex).
  destruct (toks ++ [rp; nxt]) as [|h tl] eqn:Htl.
  { destruct toks; discriminate Htl. }
  simpl length in Hlex. apply lex_tokens_cons in Hlex as (L2 & E2 & Hlex).
  (* the tokens after [h]: the rest of the parameters, [rp], [nxt] *)
  assert (Hsplit : exists ups, tl = ups ++ [nxt] /\ h :: ups = toks ++ [rp]).
  { destruct toks as [|t0 toks'].
    - simpl in Htl. injection Htl as <- <-. exists []. split; reflexivity.
    - simpl in Htl. injection Htl as <- <-. exists (toks' ++ [rp]).
      split; [now rewrite <- app_assoc | reflexivity]. }
  destruct Hsplit as (ups & -> & Hups).
  rewrite length_app in Hlex. simpl length in Hlex.
  destruct (lex_tokens_snoc n0 ups nxt L2 Lend Hlex) as (L3 & Hlex3 & E3).
  unfold parse_prototype. mstep (cur_at L name tbl err). rewrite Hname, Z.eqb_refl.
  cbn [negb].
  mstep (next_token_at n0 n L L1 lp (Some name) tbl err E1 ltac:(lia)).
  mstep (cur_at L1 lp tbl err). rewrite Hlp. change (40 =? 40) with true. cbn [negb].
  mstep (next_token_at n0 n L1 L2 h (Some lp) tbl err E2 ltac:(lia)).
  mstep (parse_params_lexed n0 names n L2 L3 [] h rp toks ups tbl err Hcl Hrp Hups Hlex3 Hn).
  mstep (cur_at L3 rp tbl err). rewrite Hrp. change (41 =? 41) with true. cbn [negb].
  mstep (next_token_at n0 n L3 Lend nxt (Some rp) tbl err E3 ltac:(lia)).
  reflexivity.
Qed.

(** X12. [parse_prototype] accepts a name, ['('], a parameter list in
    which a comma precedes every name (the empty list included), and
    [')']: when these are the current token and the tokens [get_token]
    returns next, it returns the prototype with that name and these
    parameters, and the token after [')'] is the current one. *)
Theorem parse_prototype_comma_led
    (n0 n : nat) (st Lend : State) (names : list string)
    (name lp rp nxt : Token) (toks : list Token) :
  cur_token st = Some name ->
  type name = tok_identifier ->
  lex_tokens n0 (length (lp :: toks ++ [rp; nxt])) st
    = Some (lp :: toks ++ [rp; nxt], Lend) ->
  type lp = 40 ->
  type rp = 41 ->
  comma_led names toks = true ->
  (n0 + length names < n)%nat ->
  parse_prototype n st
    = Done (Some (mkPrototype (lexeme name) names None))
           (at_lexer Lend (Some nxt) (binop_prec st) (stderr st)).
Proof.
  intros Hc Hname Hlex Hlp Hrp Hcl Hn.
  rewrite <- (at_lexer_self st) at 1. rewrite Hc.
  now apply (parse_prototype_at n0 n st Lend names name lp rp nxt toks).
Qed.

(** X13. [parse_prototype] rejects a parameter list that starts with
    anything but [')'] or a comma, a parameter name included: it prints
    that a comma and that [')'] was expected and returns the null
    pointer, with the offending token still the current one. *)
Theorem parse_prototype_rejects
    (n0 n : nat) (st Lend : State) (name lp p : Token) :
  cur_token st = Some name ->
  type name = tok_identifier ->
  lex_tokens n0 2 st = Some ([lp; p], Lend) ->
  type lp = 40 ->
  type p <> 41 ->
  type p <> 44 ->
  (n0 < n)%nat ->
  parse_prototype n st
    = Done None
        (at_lexer Lend (Some p) (binop_prec st)
           (stderr st ++ ["parse error:<unknown>: expected ','";
                          "parse error:<unknown>: ')' expected"])).
Proof.
  intros Hc Hname Hlex Hlp Hp1 Hp2 Hn.
  rewrite <- (at_lexer_self st) at 1. rewrite Hc.
  set (tbl := binop_prec st). set (err := stderr st).
  apply lex_tokens_cons in Hlex as (L1 & E1 & Hlex).
  apply lex_tokens_cons in Hlex as (L2 & E2 & Hlex). injection Hlex as <-.
  destruct n as [|n]; [lia|].
  unfold parse_prototype. mstep (cur_at st name tbl err). rewrite Hname, Z.eqb_refl.
  cbn [negb].
  mstep (next_token_at n0 (S n) st L1 lp (Some name) tbl err E1 ltac:(lia)).
  mstep (cur_at L1 lp tbl err). rewrite Hlp. change (40 =? 40) with true. cbn [negb].
  mstep (next_token_at n0 (S n) L1 L2 p (Some lp) tbl err E2 ltac:(lia)).
  simpl parse_params. unfold bind at 1. mstep (cur_at L2 p tbl err).
  apply Z.eqb_neq in Hp1, Hp2. rewrite Hp1, Hp2. cbn [negb].
  unfold parse_errorP, parse_errorE, parse_error, bind, modify, ret, cur. simpl.
  rewrite Hp1. simpl. unfold at_lexer, set_stderr. simpl.
  now rewrite <- app_assoc.
Qed.

End PrototypesLexed.
Section Precedence.
Context `{ParserHpp}.

Lemma same_prec_refl (t : gmap Z Z) : same_prec t t.
Proof. intros code. reflexivity. Qed.

(** [get_token_prec] on a table that gives the precedences of [T0]. *)
Lemma get_token_prec_step (T0 : gmap Z Z) (t : Token) (L : State)
    (c : option Token) (tbl : gmap Z Z) (err : list string) :
  same_prec tbl T0 ->
  exists tbl',
    same_prec tbl' T0 /\
    get_token_prec (Some t) (at_lexer L c tbl err)
      = Done (prec_in T0 (type t)) (at_lexer L c tbl' err).
Proof.
  intros Hs. rewrite <- (Hs (type t)).
  unfold get_token_prec, prec_in.
  destruct (negb (isascii (type t))).
  { exists tbl. split; [exact Hs | reflexivity]. }
  unfold bind, gets, modify, ret, at_lexer. cbn [binop_prec].
  destruct (tbl !! type t) as [v|] eqn:Ev; simpl.
  - exists tbl. split; [exact Hs|]. now destruct (v <=? 0).
  - exists (<[type t := 0]> tbl). split; [|reflexivity].
    intros code. rewrite <- (Hs code). unfold prec_in.
    destruct (negb (isascii code)); [reflexivity|].
    destruct (decide (code = type t)) as [->|Hne].
    + now rewrite lookup_insert_eq, Ev.
    + now rewrite lookup_insert_ne by congruence.
Qed.

Lemma token_codes_number :
  token_codes_ok = true -> (tok_number =? tok_identifier) = false.
Proof.
  unfold token_codes_ok. intros Hok. apply andb_true_iff in Hok as [Hnd _].
  apply bool_decide_eq_true in Hnd. apply Z.eqb_neq. intros E.
  rewrite !NoDup_cons in Hnd. destruct Hnd as (_ & _ & _ & Hid & _).
  apply Hid. rewrite E. set_solver.
Qed.

(** A number token is a primary expression; the token after it becomes
    the current one. *)
Lemma parse_primary_number (n0 n : nat) (t p : Token) (L L1 : State)
    (tbl : gmap Z Z) (err : list string) :
  token_codes_ok = true -> type t = tok_number ->
  get_token n0 L = Done p L1 -> (n0 <= n)%nat ->
  parse_primary (S n) (at_lexer L (Some t) tbl err)
  = Done (Some (number_node t)) (at_lexer L1 (Some p) tbl err).
Proof.
  intros Hok Ht E Hn. simpl parse_primary.
  mstep (cur_at L t tbl err).
  rewrite Ht, (token_codes_number Hok), Z.eqb_refl.
  unfold parse_num_expr. mstep (cur_at L t tbl err).
  mstep (next_token_at n0 n L L1 p (Some t) tbl err E Hn). reflexivity.
Qed.

Lemma parse_binop_rhs_unfold (n : nat) (expr_prec : Z) (lhs : Expr) :
  parse_binop_rhs (S n) expr_prec lhs
  = bind (gets cur_token) (fun tok =>
    bind (get_token_prec tok) (fun tprec =>
    if tprec <? expr_prec then ret (Some lhs)
    else
      bind cur (fun t =>
      let binop := type t in
      bind (next_token n) (fun _ =>
      bind (parse_primary n) (fun rhs =>
      match rhs with
      | None => ret None
      | Some rhs0 =>
          bind (gets cur_token) (fun tok' =>
          bind (get_token_prec tok') (fun nprec =>
          bind (if tprec <? nprec then parse_binop_rhs n (tprec + 1) rhs0
                else ret (Some rhs0)) (fun rhs1 =>
          match rhs1 with
          | None => ret None
          | Some rhs' =>
              let s := expr_span lhs in
              parse_binop_rhs n expr_prec (BinaryExpr binop lhs rhs' s)
          end)))
      end))))).
Proof. reflexivity. Qed.

Lemma parse_expr_unfold (n : nat) :
  parse_expr (S n)
  = bind (parse_primary n) (fun lhs =>
      match lhs with
      | None => ret None
      | Some l => parse_binop_rhs n 0 l
      end).
Proof. reflexivity. Qed.

Lemma gets_cur_at (L : State) (c : option Token) (tbl : gmap Z Z) (err : list string) :
  gets cur_token (at_lexer L c tbl err) = Done c (at_lexer L c tbl err).
Proof. reflexivity. Qed.

(** The loop of [parse_binop_rhs] stops on a token whose precedence is
    below the one asked for. *)
Lemma parse_binop_rhs_stop (T0 : gmap Z Z) (n : nat) (expr_prec : Z) (lhs : Expr)
    (e : Token) (L : State) (tbl : gmap Z Z) (err : list string) :
  same_prec tbl T0 ->
  prec_in T0 (type e) < expr_prec ->
  exists tbl',
    same_prec tbl' T0 /\
    parse_binop_rhs (S n) expr_prec lhs (at_lexer L (Some e) tbl err)
      = Done (Some lhs) (at_lexer L (Some e) tbl' err).
Proof.
  intros Hs Hlt.
  destruct (get_token_prec_step T0 e L (Some e) tbl err Hs) as (tbl' & Hs' & E).
  exists tbl'. split; [exact Hs'|].
  rewrite parse_binop_rhs_unfold.
  mstep (gets_cur_at L (Some e) tbl err).
  mstep E. apply Z.ltb_lt in Hlt. now rewrite Hlt.
Qed.

(** One operator and its right operand, when the operator after them does
    not bind tighter: the loop merges them into the left side and goes
    on. *)
Lemma parse_binop_rhs_merge (T0 : gmap Z Z) (n0 n : nat) (expr_prec : Z) (lhs : Expr)
    (o b nxt : Token) (L L1 L2 : State) (tbl : gmap Z Z) (err : list string) :
  token_codes_ok = true ->
  same_prec tbl T0 ->
  type b = tok_number ->
  get_token n0 L = Done b L1 ->
  get_token n0 L1 = Done nxt L2 ->
  (n0 < n)%nat ->
  expr_prec <= prec_in T0 (type o) ->
  prec_in T0 (type nxt) <= prec_in T0 (type o) ->
  exists tbl',
    same_prec tbl' T0 /\
    parse_binop_rhs (S n) expr_prec lhs (at_lexer L (Some o) tbl err)
    = parse_binop_rhs n expr_prec
        (BinaryExpr (type o) lhs (number_node b) (expr_span lhs))
        (at_lexer L2 (Some nxt) tbl' err).
Proof.
  intros Hok Hs Hb Eb Enxt Hn Hge Hnxt.
  destruct (get_token_prec_step T0 o L (Some o) tbl err Hs) as (tbl1 & Hs1 & E1).
  destruct (get_token_prec_step T0 nxt L2 (Some nxt) tbl1 err Hs1) as (tbl2 & Hs2 & E2).
  exists tbl2. split; [exact Hs2|].
  destruct n as [|n]; [lia|].
  rewrite parse_binop_rhs_unfold.
  mstep (gets_cur_at L (Some o) tbl err).
  mstep E1. destruct (Z.ltb_spec (prec_in T0 (type o)) expr_prec); [lia|].
  mstep (cur_at L o tbl1 err).
  mstep (next_token_at n0 (S n) L L1 b (Some o) tbl1 err Eb ltac:(lia)).
  mstep (parse_primary_number n0 n b nxt L1 L2 tbl1 err Hok Hb Enxt ltac:(lia)).
  mstep (gets_cur_at L2 (Some nxt) tbl1 err).
  mstep E2.
  destruct (Z.ltb_spec (prec_in T0 (type o)) (prec_in T0 (type nxt))); [lia|].
  unfold bind at 1, ret at 1. cbv beta iota. reflexivity.
Qed.

Lemma parse_binop_rhs_chain (T0 : gmap Z Z) (n0 : nat) (e : Token) (Lend : State)
    (err : list string) :
  token_codes_ok = true ->
  prec_in T0 (type e) = -1 ->
  forall (pairs : list (Token * Token)) (f : nat) (lhs : Expr) (tbl : gmap Z Z)
         (L : State) (hd : Token) (ups : list Token),
  same_prec tbl T0 ->
  chain_of_numbers T0 pairs = true ->
  non_increasing T0 pairs = true ->
  hd :: ups = chain_tokens pairs ++ [e] ->
  lex_tokens n0 (length ups) L = Some (ups, Lend) ->
  (n0 + length pairs + 1 < f)%nat ->
  exists tbl',
    same_prec tbl' T0 /\
    parse_binop_rhs f 0 lhs (at_lexer L (Some hd) tbl err)
      = Done (Some (merge_left lhs pairs)) (at_lexer Lend (Some e) tbl' err).
Proof.
  intros Hok He. induction pairs as [|[o b] ps IH];
    intros f lhs tbl L hd ups Hs Hnum Hni Htoks Hlex Hn; (destruct f as [|n]; [lia|]).
  - simpl in Htoks. injection Htoks as -> ->. injection Hlex as <-. simpl.
    apply parse_binop_rhs_stop; [exact Hs | lia].
  - simpl in Htoks. injection Htoks as -> ->.
    simpl in Hnum. apply andb_true_iff in Hnum as [Hob Hnum].
    apply andb_true_iff in Hob as [Ho Hb]. apply Z.ltb_lt in Ho. apply Z.eqb_eq in Hb.
    simpl length in Hlex. apply lex_tokens_cons in Hlex as (L1 & E1 & Hlex).
    destruct (chain_tokens ps ++ [e]) as [|nxt rest] eqn:Hrest.
    { destruct ps as [|[? ?] ?]; discriminate Hrest. }
    simpl length in Hlex. apply lex_tokens_cons in Hlex as (L2 & E2 & Hlex).
    assert (Hnxt : prec_in T0 (type nxt) <= prec_in T0 (type o)).
    { destruct ps as [|[o2 b2] ps'].
      - simpl in Hrest. injection Hrest as <- _. lia.
      - simpl in Hrest. injection Hrest as <- _.
        simpl in Hni. apply andb_true_iff in Hni as [Hle _]. now apply Z.leb_le in Hle. }
    assert (Hni' : non_increasing T0 ps = true).
    { destruct ps as [|ob2 ps']; [reflexivity|].
      simpl in Hni. now apply andb_true_iff in Hni as [_ Hni]. }
    simpl length in Hn.
    destruct (parse_binop_rhs_merge T0 n0 n 0 lhs o b nxt L L1 L2 tbl err
                Hok Hs Hb E1 E2 ltac:(lia) ltac:(lia) Hnxt) as (tbl1 & Hs1 & Em).
    destruct (IH n (BinaryExpr (type o) lhs (number_node b) (expr_span lhs)) tbl1 L2 nxt rest
                Hs1 Hnum Hni' eq_refl Hlex ltac:(lia)) as (tbl2 & Hs2 & E3).
    exists tbl2. split; [exact Hs2|]. rewrite Em. exact E3.
Qed.

(** A number and a chain of operators and numbers, none of the operators
    binding tighter than the one before it, from the lexer state [L] on. *)
Lemma parse_expr_chain_at (T0 : gmap Z Z) (n0 n : nat) (L Lend : State) (a e : Token)
    (pairs : list (Token * Token)) (tbl : gmap Z Z) (err : list string) :
  token_codes_ok = true ->
  same_prec tbl T0 ->
  type a = tok_number ->
  lex_tokens n0 (length (chain_tokens pairs ++ [e])) L
    = Some (chain_tokens pairs ++ [e], Lend) ->
  chain_of_numbers T0 pairs = true ->
  non_increasing T0 pairs = true ->
  prec_in T0 (type e) = -1 ->
  (n0 + length pairs + 2 < n)%nat ->
  exists tbl',
    same_prec tbl' T0 /\
    parse_expr n (at_lexer L (Some a) tbl err)
      = Done (Some (merge_left (number_node a) pairs)) (at_lexer Lend (Some e) tbl' err).
Proof.
  intros Hok Hs Ha Hlex Hnum Hni He Hn.
  destruct (chain_tokens pairs ++ [e]) as [|hd ups] eqn:Htoks.
  { destruct pairs as [|[? ?] ?]; discriminate Htoks. }
  simpl length in Hlex. apply lex_tokens_cons in Hlex as (L1 & E1 & Hlex).
  destruct n as [|[|n]]; try lia.
  destruct (parse_binop_rhs_chain T0 n0 e Lend err Hok He pairs (S n) (number_node a) tbl
              L1 hd ups Hs Hnum Hni (eq_sym Htoks) Hlex ltac:(lia))
    as (tbl' & Hs' & E).
  exists tbl'. split; [exact Hs'|].
  rewrite parse_expr_unfold.
  mstep (parse_primary_number n0 n a hd L L1 tbl err Hok Ha E1 ltac:(lia)).
  exact E.
Qed.

(** X15. A chain of number operands joined by operators none of which
    binds tighter than the one before it (the same operator repeated, for
    one) is parsed as a left-nested tree: [a o1 b o2 c] is
    [(a o1 b) o2 c].  The parse stops at the first token that is not an
    operator and makes it the current token.  [a] is the current token;
    the chain and the token [e] that ends it are what [get_token] returns
    next. *)
Theorem parse_expr_left_assoc
    (n0 n : nat) (st Lend : State) (a e : Token) (pairs : list (Token * Token)) :
  token_codes_ok = true ->
  cur_token st = Some a ->
  type a = tok_number ->
  lex_tokens n0 (length (chain_tokens pairs ++ [e])) st
    = Some (chain_tokens pairs ++ [e], Lend) ->
  chain_of_numbers (binop_prec st) pairs = true ->
  non_increasing (binop_prec st) pairs = true ->
  prec_in (binop_prec st) (type e) = -1 ->
  (n0 + length pairs + 2 < n)%nat ->
  exists tbl,
    same_prec tbl (binop_prec st) /\
    parse_expr n st
      = Done (Some (merge_left (number_node a) pairs))
             (at_lexer Lend (Some e) tbl (stderr st)).
Proof.
  intros Hok Hc Ha Hlex Hnum Hni He Hn.
  replace (parse_expr n st)
    with (parse_expr n (at_lexer st (Some a) (binop_prec st) (stderr st)))
    by (now rewrite <- Hc, at_lexer_self).
  apply (parse_expr_chain_at (binop_prec st) n0 n st Lend a e pairs);
    auto using same_prec_refl.
Qed.

(** X16. An operator that binds tighter than the one before it takes the
    operand between them: with [o1] of lower precedence than [o2],
    [a o1 b o2 c] is parsed as [a o1 (b o2 c)]. *)
Theorem parse_expr_tighter_right
    (n0 n : nat) (st Lend : State) (a o1 b o2 c e : Token) :
  token_codes_ok = true ->
  cur_token st = Some a ->
  lex_tokens n0 5 st = Some ([o1; b; o2; c; e], Lend) ->
  type a = tok_number -> type b = tok_number -> type c = tok_number ->
  0 < prec_in (binop_prec st) (type o1) ->
  prec_in (binop_prec st) (type o1) < prec_in (binop_prec st) (type o2) ->
  prec_in (binop_prec st) (type e) = -1 ->
  (n0 + 4 < n)%nat ->
  exists tbl,
    same_prec tbl (binop_prec st) /\
    parse_expr n st
      = Done (Some (BinaryExpr (type o1) (number_node a)
                      (BinaryExpr (type o2) (number_node b) (number_node c) (tok_span b))
                      (tok_span a)))
             (at_lexer Lend (Some e) tbl (stderr st)).
Proof.
  intros Hok Hc Hlex Ha Hbn Hcn Hp1 Hp12 He Hn.
  replace (parse_expr n st)
    with (parse_expr n (at_lexer st (Some a) (binop_prec st) (stderr st)))
    by (now rewrite <- Hc, at_lexer_self).
  set (T0 := binop_prec st) in *. set (err := stderr st).
  apply lex_tokens_cons in Hlex as (L1 & Eo1 & Hlex).
  apply lex_tokens_cons in Hlex as (L2 & Eb & Hlex).
  apply lex_tokens_cons in Hlex as (L3 & Eo2 & Hlex).
  apply lex_tokens_cons in Hlex as (L4 & Ec & Hlex).
  apply lex_tokens_cons in Hlex as (L5 & Ee & Hlex). injection Hlex as <-.
  destruct n as [|[|[|[|n]]]]; try lia.
  destruct (get_token_prec_step T0 o1 L1 (Some o1) T0 err (same_prec_refl T0))
    as (tbl1 & Hs1 & E1).
  destruct (get_token_prec_step T0 o2 L3 (Some o2) tbl1 err Hs1) as (tbl2 & Hs2 & E2).
  destruct (parse_binop_rhs_merge T0 n0 (S n) (prec_in T0 (type o1) + 1) (number_node b)
              o2 c e L3 L4 L5 tbl2 err Hok Hs2 Hcn Ec Ee ltac:(lia) ltac:(lia) ltac:(lia))
    as (tbl3 & Hs3 & E3).
  destruct (parse_binop_rhs_stop T0 n (prec_in T0 (type o1) + 1)
              (BinaryExpr (type o2) (number_node b) (number_node c)
                          (expr_span (number_node b)))
              e L5 tbl3 err Hs3 ltac:(lia)) as (tbl4 & Hs4 & E4).
  destruct (parse_binop_rhs_stop T0 (S n) 0
              (BinaryExpr (type o1) (number_node a)
                 (BinaryExpr (type o2) (number_node b) (number_node c)
                             (expr_span (number_node b)))
                 (expr_span (number_node a)))
              e L5 tbl4 err Hs4 ltac:(lia)) as (tbl5 & Hs5 & E5).
  exists tbl5. split; [exact Hs5|].
  rewrite parse_expr_unfold.
  mstep (parse_primary_number n0 (S (S n)) a o1 st L1 T0 err Hok Ha Eo1 ltac:(lia)).
  rewrite parse_binop_rhs_unfold.
  mstep (gets_cur_at L1 (Some o1) T0 err).
  mstep E1. destruct (Z.ltb_spec (prec_in T0 (type o1)) 0); [lia|].
  mstep (cur_at L1 o1 tbl1 err).
  mstep (next_token_at n0 (S (S n)) L1 L2 b (Some o1) tbl1 err Eb ltac:(lia)).
  mstep (parse_primary_number n0 (S n) b o2 L2 L3 tbl1 err Hok Hbn Eo2 ltac:(lia)).
  mstep (gets_cur_at L3 (Some o2) tbl1 err).
  mstep E2.
  destruct (Z.ltb_spec (prec_in T0 (type o1)) (prec_in T0 (type o2))); [|lia].
  unfold bind at 1. rewrite E3, E4. cbv beta iota.
  exact E5.
Qed.

End Precedence.

Section Compositions.
Context `{ParserHpp}.

Lemma lex_tokens_app (n0 : nat) (xs ys : list Token) : forall (L Lend : State),
  lex_tokens n0 (length (xs ++ ys)) L = Some (xs ++ ys, Lend) ->
  exists Lm, lex_tokens n0 (length xs) L = Some (xs, Lm) /\
             lex_tokens n0 (length ys) Lm = Some (ys, Lend).
Proof.
  induction xs as [|x xs IH]; intros L Lend Hlex.
  - exists L. split; [reflexivity | exact Hlex].
  - change (lex_tokens n0 (S (length (xs ++ ys))) L = Some (x :: xs ++ ys, Lend)) in Hlex.
    apply lex_tokens_cons in Hlex as (L1 & E1 & Hlex).
    destruct (IH L1 Lend Hlex) as (Lm & Hx & Hy).
    exists Lm. split; [|exact Hy].
    change (lex_tokens n0 (S (length xs)) L = Some (x :: xs, Lm)).
    simpl. now rewrite E1, Hx.
Qed.

(** What [parse_function] and [parse_extern] start with: the keyword is
    replaced by the next token, whatever it is, and the prototype is
    parsed. *)
Lemma declaration_head (n0 n : nat) (st Lend : State) (names : list string)
    (name lp rp nxt : Token) (toks : list Token) :
  lex_tokens n0 (length (name :: lp :: toks ++ [rp; nxt])) st
    = Some (name :: lp :: toks ++ [rp; nxt], Lend) ->
  type name = tok_identifier ->
  type lp = 40 ->
  type rp = 41 ->
  comma_led names toks = true ->
  (n0 + length names < n)%nat ->
  exists st1,
    next_token n st = Done (type name) st1 /\
    parse_prototype n st1
      = Done (Some (mkPrototype (lexeme name) names None))
             (at_lexer Lend (Some nxt) (binop_prec st) (stderr st)).
Proof.
  intros Hlex Hname Hlp Hrp Hcl Hn.
  change (lex_tokens n0 (S (length (lp :: toks ++ [rp; nxt]))) st
          = Some (name :: lp :: toks ++ [rp; nxt], Lend)) in Hlex.
  apply lex_tokens_cons in Hlex as (L1 & E1 & Hlex).
  exists (at_lexer L1 (Some name) (binop_prec st) (stderr st)). split.
  - rewrite <- (at_lexer_self st) at 1.
    apply (next_token_at n0 n st L1 name); [exact E1 | lia].
  - now apply (parse_prototype_at n0 n L1 Lend names name lp rp nxt toks).
Qed.

(** X17. [parse_function] on a function whose body is a chain of numbers:
    the token after the current one is the name, then come ['('], the
    parameters, a comma before each, and [')'], then the body with no
    brace around it.  The result holds the prototype and the body's tree.
    The current token, which a caller has found to be [fn], is not looked
    at. *)
Theorem parse_function_accepts
    (n0 n : nat) (st Lend : State) (names : list string)
    (name lp rp a e : Token) (toks : list Token) (pairs : list (Token * Token)) :
  token_codes_ok = true ->
  lex_tokens n0 (length (name :: lp :: toks ++ rp :: a :: chain_tokens pairs ++ [e])) st
    = Some (name :: lp :: toks ++ rp :: a :: chain_tokens pairs ++ [e], Lend) ->
  type name = tok_identifier ->
  type lp = 40 ->
  type rp = 41 ->
  comma_led names toks = true ->
  type a = tok_number ->
  chain_of_numbers (binop_prec st) pairs = true ->
  non_increasing (binop_prec st) pairs = true ->
  prec_in (binop_prec st) (type e) = -1 ->
  (n0 + length names + length pairs + 2 < n)%nat ->
  exists tbl,
    same_prec tbl (binop_prec st) /\
    parse_function n st
      = Done (Some (mkFunction (mkPrototype (lexeme name) names None)
                               (merge_left (number_node a) pairs)))
             (at_lexer Lend (Some e) tbl (stderr st)).
Proof.
  intros Hok Hlex Hname Hlp Hrp Hcl Ha Hnum Hni He Hn.
  assert (Esplit : name :: lp :: toks ++ rp :: a :: chain_tokens pairs ++ [e]
                   = (name :: lp :: toks ++ [rp; a]) ++ (chain_tokens pairs ++ [e])).
  { simpl. do 2 f_equal. now rewrite <- app_assoc. }
  rewrite Esplit in Hlex. apply lex_tokens_app in Hlex as (Lm & Hhead & Hbody).
  destruct (declaration_head n0 n st Lm names name lp rp a toks
              Hhead Hname Hlp Hrp Hcl ltac:(lia)) as (st1 & E1 & E2).
  destruct (parse_expr_chain_at (binop_prec st) n0 n Lm Lend a e pairs
              (binop_prec st) (stderr st) Hok (same_prec_refl _) Ha Hbody Hnum Hni He
              ltac:(lia)) as (tbl & Hs & E3).
  exists tbl. split; [exact Hs|].
  unfold parse_function. mstep E1. mstep E2. mstep E3. reflexivity.
Qed.

(** X18. [parse_extern] on a declaration: the token after the current one
    is the name, then come ['('], the parameters, a comma before each, and
    [')'].  The prototype it returns is flagged external, and the token
    after [')'] is the current one. *)
Theorem parse_extern_accepts
    (n0 n : nat) (st Lend : State) (names : list string)
    (name lp rp nxt : Token) (toks : list Token) :
  lex_tokens n0 (length (name :: lp :: toks ++ [rp; nxt])) st
    = Some (name :: lp :: toks ++ [rp; nxt], Lend) ->
  type name = tok_identifier ->
  type lp = 40 ->
  type rp = 41 ->
  comma_led names toks = true ->
  (n0 + length names < n)%nat ->
  parse_extern n st
    = Done (Some (mkPrototype (lexeme name) names (Some true)))
           (at_lexer Lend (Some nxt) (binop_prec st) (stderr st)).
Proof.
  intros Hlex Hname Hlp Hrp Hcl Hn.
  destruct (declaration_head n0 n st Lend names name lp rp nxt toks
              Hlex Hname Hlp Hrp Hcl Hn) as (st1 & E1 & E2).
  unfold parse_extern. mstep E1. mstep E2. reflexivity.
Qed.

(** A token that starts no expression. *)
Lemma parse_expr_unknown (n : nat) (L : State) (t : Token) (tbl : gmap Z Z)
    (err : list string) :
  type t <> tok_identifier -> type t <> tok_number -> type t <> 40 ->
  parse_expr (S (S n)) (at_lexer L (Some t) tbl err)
    = Done None
        (at_lexer L (Some t) tbl
           (err ++ [String.append "parse error:<unknown>: "
                      (format_d "unknown token (%d) when expecting an expression"
                                (type t))])).
Proof.
  intros H1 H2 H3. apply Z.eqb_neq in H1, H2, H3.
  rewrite parse_expr_unfold. simpl parse_primary. unfold bind at 1.
  mstep (cur_at L t tbl err). rewrite H1, H2, H3.
  reflexivity.
Qed.

(** X19. [parse_function] has no case for the braces its grammar comment
    puts around the body: when the token after the prototype's [')'] is
    neither an identifier, a number nor ['('] (a ['{'], for one), it prints
    that the token is unknown and returns the null pointer. *)
Theorem parse_function_rejects
    (n0 n : nat) (st Lend : State) (names : list string)
    (name lp rp nxt : Token) (toks : list Token) :
  lex_tokens n0 (length (name :: lp :: toks ++ [rp; nxt])) st
    = Some (name :: lp :: toks ++ [rp; nxt], Lend) ->
  type name = tok_identifier ->
  type lp = 40 ->
  type rp = 41 ->
  comma_led names toks = true ->
  type nxt <> tok_identifier -> type nxt <> tok_number -> type nxt <> 40 ->
  (n0 + length names + 1 < n)%nat ->
  parse_function n st
    = Done None
        (at_lexer Lend (Some nxt) (binop_prec st)
           (stderr st ++ [String.append "parse error:<unknown>: "
                            (format_d "unknown token (%d) when expecting an expression"
                                      (type nxt))])).
Proof.
  intros Hlex Hname Hlp Hrp Hcl H1 H2 H3 Hn.
  destruct (declaration_head n0 n st Lend names name lp rp nxt toks
              Hlex Hname Hlp Hrp Hcl ltac:(lia)) as (st1 & E1 & E2).
  unfold parse_function. mstep E1. mstep E2.
  destruct n as [|[|n]]; try lia.
  mstep (parse_expr_unknown n Lend nxt (binop_prec st) (stderr st) H1 H2 H3).
  reflexivity.
Qed.

(** X20. Parentheses group: with ['('] the current token, a chain of
    numbers up to [')'] and a second chain after it, the tree of the first
    chain is the leftmost operand of the second, whatever the precedences
    of the operators inside and outside are.  The parentheses leave no
    node of their own. *)
Theorem parse_expr_parens
    (n0 n : nat) (st Lend : State) (lp a rp e : Token)
    (inner outer : list (Token * Token)) :
  token_codes_ok = true ->
  cur_token st = Some lp ->
  type lp = 40 ->
  lex_tokens n0 (length (a :: chain_tokens inner ++ rp :: chain_tokens outer ++ [e])) st
    = Some (a :: chain_tokens inner ++ rp :: chain_tokens outer ++ [e], Lend) ->
  type a = tok_number ->
  type rp = 41 ->
  prec_in (binop_prec st) 41 = -1 ->
  chain_of_numbers (binop_prec st) inner = true ->
  non_increasing (binop_prec st) inner = true ->
  chain_of_numbers (binop_prec st) outer = true ->
  non_increasing (binop_prec st) outer = true ->
  prec_in (binop_prec st) (type e) = -1 ->
  (n0 + length inner + length outer + 5 < n)%nat ->
  exists tbl,
    same_prec tbl (binop_prec st) /\
    parse_expr n st
      = Done (Some (merge_left (merge_left (number_node a) inner) outer))
             (at_lexer Lend (Some e) tbl (stderr st)).
Proof.
  intros Hok Hc Hlp Hlex Ha Hrp Hp41 Hnum1 Hni1 Hnum2 Hni2 He Hn.
  replace (parse_expr n st)
    with (parse_expr n (at_lexer st (Some lp) (binop_prec st) (stderr st)))
    by (now rewrite <- Hc, at_lexer_self).
  set (T0 := binop_prec st) in *. set (err := stderr st).
  change (lex_tokens n0 (S (length (chain_tokens inner ++ rp :: chain_tokens outer ++ [e]))) st
          = Some (a :: chain_tokens inner ++ rp :: chain_tokens outer ++ [e], Lend)) in Hlex.
  apply lex_tokens_cons in Hlex as (L1 & Ea & Hlex).
  assert (Esplit : chain_tokens inner ++ rp :: chain_tokens outer ++ [e]
                   = (chain_tokens inner ++ [rp]) ++ (chain_tokens outer ++ [e])).
  { now rewrite <- app_assoc. }
  rewrite Esplit in Hlex. apply lex_tokens_app in Hlex as (L2 & Hin & Hout).
  destruct (chain_tokens outer ++ [e]) as [|hd ups] eqn:Htoks.
  { destruct outer as [|[? ?] ?]; discriminate Htoks. }
  simpl length in Hout. apply lex_tokens_cons in Hout as (L3 & Ehd & Hout).
  destruct n as [|[|[|n]]]; try lia.
  destruct (parse_expr_chain_at T0 n0 n L1 L2 a rp inner T0 err Hok (same_prec_refl _)
              Ha Hin Hnum1 Hni1 ltac:(now rewrite Hrp) ltac:(lia)) as (tbl1 & Hs1 & E1).
  destruct (parse_binop_rhs_chain T0 n0 e Lend err Hok He outer (S (S n))
              (merge_left (number_node a) inner) tbl1 L3 hd ups Hs1 Hnum2 Hni2
              (eq_sym Htoks) Hout ltac:(lia)) as (tbl2 & Hs2 & E2).
  exists tbl2. split; [exact Hs2|].
  destruct (token_codes_not_char 40 Hok ltac:(lia)) as (Hid & Hnb & _).
  rewrite parse_expr_unfold. simpl parse_primary. unfold bind at 1.
  mstep (cur_at st lp T0 err).
  rewrite Hlp. apply not_eq_sym, Z.eqb_neq in Hid, Hnb.
  rewrite Z.eqb_sym in Hid, Hnb. rewrite Hid, Hnb. change (40 =? 40) with true. cbv iota.
  simpl parse_paren_expr.
  mstep (next_token_at n0 n st L1 a (Some lp) T0 err Ea ltac:(lia)).
  mstep E1.
  mstep (cur_at L2 rp tbl1 err). rewrite Hrp. change (41 =? 41) with true. cbn [negb].
  mstep (next_token_at n0 n L2 L3 hd (Some rp) tbl1 err Ehd ltac:(lia)).
  unfold ret at 1. cbv beta iota.
  exact E2.
Qed.

(** An identifier token becomes a variable node that carries the span of
    the token after it. *)
Lemma parse_id_expr_at (n0 n : nat) (t p : Token) (L L1 : State)
    (tbl : gmap Z Z) (err : list string) :
  type t = tok_identifier ->
  get_token n0 L = Done p L1 -> (n0 <= n)%nat ->
  parse_id_expr n (at_lexer L (Some t) tbl err)
  = Done (Some (VariableExpr (lexeme t) (tok_span p))) (at_lexer L1 (Some p) tbl err).
Proof.
  intros Ht E Hn. unfold parse_id_expr.
  mstep (cur_at L t tbl err). rewrite Ht, Z.eqb_refl. cbn [negb].
  mstep (next_token_at n0 n L L1 p (Some t) tbl err E Hn).
  mstep (cur_at L1 p tbl err). reflexivity.
Qed.

(** The loop of [parse_call_expr] on number arguments. *)
Lemma parse_call_args_numbers (T0 : gmap Z Z) (n0 : nat) (rp : Token) (Lend : State)
    (err : list string) :
  token_codes_ok = true ->
  type rp = 41 ->
  prec_in T0 44 = -1 ->
  prec_in T0 41 = -1 ->
  forall (more : list (Token * Token)) (f : nat) (args : list Expr) (a : Token)
         (tbl : gmap Z Z) (L : State),
  same_prec tbl T0 ->
  type a = tok_number ->
  comma_args more = true ->
  lex_tokens n0 (length (chain_tokens more ++ [rp])) L
    = Some (chain_tokens more ++ [rp], Lend) ->
  (n0 + length more + 3 < f)%nat ->
  exists tbl',
    same_prec tbl' T0 /\
    parse_call_args f args (at_lexer L (Some a) tbl err)
      = Done (Some (args ++ number_node a :: map (fun ca => number_node (snd ca)) more))
             (at_lexer Lend (Some rp) tbl' err).
Proof.
  intros Hok Hrp Hp44 Hp41.
  induction more as [|[c b] ms IH]; intros f args a tbl L Hs Ha Hcm Hlex Hn;
    (destruct f as [|n]; [lia|]).
  - destruct (parse_expr_chain_at T0 n0 n L Lend a rp [] tbl err Hok Hs Ha Hlex
                eq_refl eq_refl ltac:(now rewrite Hrp) ltac:(simpl length in *; lia))
      as (tbl1 & Hs1 & E1).
    exists tbl1. split; [exact Hs1|].
    simpl parse_call_args. mstep E1.
    mstep (cur_at Lend rp tbl1 err). rewrite Hrp. reflexivity.
  - simpl in Hcm. apply andb_true_iff in Hcm as [Hcb Hcm].
    apply andb_true_iff in Hcb as [Hc Hb]. apply Z.eqb_eq in Hc, Hb.
    change (lex_tokens n0 (S (S (length (chain_tokens ms ++ [rp])))) L
            = Some (c :: b :: chain_tokens ms ++ [rp], Lend)) in Hlex.
    apply lex_tokens_cons in Hlex as (L1 & Ec & Hlex).
    apply lex_tokens_cons in Hlex as (L2 & Eb & Hlex).
    assert (Hone : lex_tokens n0 (length (chain_tokens [] ++ [c])) L
                   = Some (chain_tokens [] ++ [c], L1)).
    { simpl. now rewrite Ec. }
    simpl length in Hn.
    destruct (parse_expr_chain_at T0 n0 n L L1 a c [] tbl err Hok Hs Ha Hone
                eq_refl eq_refl ltac:(now rewrite Hc) ltac:(simpl length; lia))
      as (tbl1 & Hs1 & E1).
    destruct (IH n (args ++ [number_node a]) b tbl1 L2 Hs1 Hb Hcm Hlex ltac:(lia))
      as (tbl2 & Hs2 & E2).
    exists tbl2. split; [exact Hs2|].
    simpl parse_call_args. mstep E1.
    mstep (cur_at L1 c tbl1 err). rewrite Hc.
    change (44 =? 41) with false. change (44 =? 44) with true. cbn [negb]. cbv iota.
    mstep (next_token_at n0 n L1 L2 b (Some c) tbl1 err Eb ltac:(lia)).
    cbn [merge_left]. rewrite E2. simpl map. now rewrite <- app_assoc.
Qed.

(** X21. [parse_call_expr] on a call with number arguments: the current
    token is the callee, the token after it is eaten without being looked
    at, then come the arguments, a comma between them, and [')'].  The
    result names the callee and holds the arguments in order; its span
    runs from the eaten token to the token after [')'], which is the
    current one in the end. *)
Theorem parse_call_expr_numbers
    (n0 n : nat) (st Lend : State) (callee lp a rp nxt : Token)
    (more : list (Token * Token)) :
  token_codes_ok = true ->
  cur_token st = Some callee ->
  type callee = tok_identifier ->
  lex_tokens n0 (length (lp :: a :: chain_tokens more ++ [rp; nxt])) st
    = Some (lp :: a :: chain_tokens more ++ [rp; nxt], Lend) ->
  type a = tok_number ->
  comma_args more = true ->
  type rp = 41 ->
  prec_in (binop_prec st) 44 = -1 ->
  prec_in (binop_prec st) 41 = -1 ->
  (n0 + length more + 4 < n)%nat ->
  exists tbl,
    same_prec tbl (binop_prec st) /\
    parse_call_expr n st
      = Done (Some (CallExpr (lexeme callee)
                      (number_node a :: map (fun ca => number_node (snd ca)) more)
                      (span_rangeFrom (tok_span nxt) (tok_span lp))))
             (at_lexer Lend (Some nxt) tbl (stderr st)).
Proof.
  intros Hok Hc Hcallee Hlex Ha Hcm Hrp Hp44 Hp41 Hn.
  replace (parse_call_expr n st)
    with (parse_call_expr n (at_lexer st (Some callee) (binop_prec st) (stderr st)))
    by (now rewrite <- Hc, at_lexer_self).
  set (T0 := binop_prec st) in *. set (err := stderr st).
  change (lex_tokens n0 (S (S (length (chain_tokens more ++ [rp; nxt])))) st
          = Some (lp :: a :: chain_tokens more ++ [rp; nxt], Lend)) in Hlex.
  apply lex_tokens_cons in Hlex as (L1 & Elp & Hlex).
  apply lex_tokens_cons in Hlex as (L2 & Ea & Hlex).
  assert (Esplit : chain_tokens more ++ [rp; nxt] = (chain_tokens more ++ [rp]) ++ [nxt]).
  { now rewrite <- app_assoc. }
  rewrite Esplit in Hlex. apply lex_tokens_app in Hlex as (L3 & Hargs & Hnxt).
  apply lex_tokens_cons in Hnxt as (L4 & Enxt & Hnxt). injection Hnxt as <-.
  destruct n as [|n]; [lia|].
  destruct (parse_call_args_numbers T0 n0 rp L3 err Hok Hrp Hp44 Hp41 more n [] a T0 L2
              (same_prec_refl _) Ha Hcm Hargs ltac:(lia)) as (tbl & Hs & E).
  exists tbl. split; [exact Hs|].
  simpl parse_call_expr.
  mstep (parse_id_expr_at n0 n callee lp st L1 T0 err Hcallee Elp ltac:(lia)).
  cbn [expr_name expr_span].
  mstep (next_token_at n0 n L1 L2 a (Some lp) T0 err Ea ltac:(lia)).
  mstep (cur_at L2 a T0 err).
  destruct (token_codes_not_char 41 Hok ltac:(lia)) as (_ & Hnb & _).
  apply not_eq_sym, Z.eqb_neq in Hnb. rewrite Ha, Hnb. cbn [negb].
  mstep E.
  mstep (next_token_at n0 n L3 L4 nxt (Some rp) tbl err Enxt ltac:(lia)).
  mstep (cur_at L4 nxt tbl err).
  reflexivity.
Qed.

End Compositions.
Section TokenNames.
Context `{ParserHpp}.

Lemma char_byte_eq (a b : Z) : char_byte a = char_byte b -> a mod 256 = b mod 256.
Proof.
  unfold char_byte. intros E.
  pose proof (Z.mod_pos_bound a 256 ltac:(lia)) as Ha.
  pose proof (Z.mod_pos_bound b 256 ltac:(lia)) as Hb.
  apply (f_equal N_of_ascii) in E.
  rewrite !N_ascii_embedding in E by lia. lia.
Qed.

Lemma default_name (x : ascii) :
  String.append "tok_" (String x EmptyString)
  = String "t" (String "o" (String "k" (String "_" (String x EmptyString)))).
Proof. reflexivity. Qed.

(** The name [tok_to_string] gives a code: the one of its [case] label, or
    the one of the [default]. *)
Lemma tok_to_string_cases (c : Z) :
  ((c ∈ token_enumerators) /\
   (c, tok_to_string c) ∈ [(tok_eof, "<EOF>"%string); (tok_fn, "tok_fn"%string);
                           (tok_extern, "tok_extern"%string);
                           (tok_identifier, "tok_id"%string);
                           (tok_number, "tok_number"%string);
                           (tok_op, "tok_op"%string); (tok_let, "tok_let"%string)]) \/
  ((c ∉ token_enumerators) /\
   tok_to_string c = String.append "tok_" (String (char_byte c) EmptyString)).
Proof.
  unfold tok_to_string, token_enumerators.
  repeat (match goal with
          | |- context [c =? ?k] =>
              destruct (Z.eqb_spec c k) as [->|?];
              [left; split; repeat constructor|]
          end).
  right. split; [|reflexivity].
  rewrite !not_elem_of_cons. repeat (split; [assumption|]). apply not_elem_of_nil.
Qed.

(** X22. [tok_to_string] tells the token codes apart as far as one [char]
    can: two codes get the same name only when they are equal, or when
    neither is an enumerator and they agree modulo 256 (the [default] case
    appends the code as one [char]). *)
Theorem tok_to_string_distinct (a b : Z) :
  tok_to_string a = tok_to_string b ->
  a = b \/
  ((a ∉ token_enumerators) /\ (b ∉ token_enumerators) /\ a mod 256 = b mod 256).
Proof.
  intros E.
  destruct (tok_to_string_cases a) as [[_ Ha]|[Ha Ea]];
    destruct (tok_to_string_cases b) as [[_ Hb]|[Hb Eb]].
  - left. rewrite E in Ha.
    repeat (apply elem_of_cons in Ha as [Ha|Ha]; [injection Ha as -> Ha|]);
      try (now apply elem_of_nil in Ha);
      repeat (apply elem_of_cons in Hb as [Hb|Hb]; [injection Hb as -> Hb|]);
      try (now apply elem_of_nil in Hb);
      try reflexivity; rewrite Ha in Hb; discriminate Hb.
  - exfalso. rewrite E, Eb, default_name in Ha.
    repeat (apply elem_of_cons in Ha as [Ha|Ha]; [injection Ha as _ Ha; congruence|]).
    now apply elem_of_nil in Ha.
  - exfalso. rewrite <- E, Ea, default_name in Hb.
    repeat (apply elem_of_cons in Hb as [Hb|Hb]; [injection Hb as _ Hb; congruence|]).
    now apply elem_of_nil in Hb.
  - right. split; [exact Ha|]. split; [exact Hb|].
    rewrite Ea, Eb, !default_name in E. apply char_byte_eq. now injection E.
Qed.

End TokenNames.

(** *** The theorems with hypotheses, on the sample header *)

#[local] Existing Instance sample_hpp.

Lemma parse_assignment_null_witness :
  exists st',
    parse_assignment (H := sample_hpp) 9
      (set_cur_token (Some (mkToken tok_let "let" (Span_new "f" 0 0 3)))
         (Parser_new "f" (stream_of " x = 1") []))
    = Done None st'.
Proof.
  refine (proj2 (parse_assignment_null (H := sample_hpp) 9
           (set_cur_token (Some (mkToken tok_let "let" (Span_new "f" 0 0 3)))
              (Parser_new "f" (stream_of " x = 1") [])) _ _ _)).
  - reflexivity.
  - simpl. eauto.
  - vm_compute. lia.
Defined.

Lemma get_token_number_witness :
  exists (sp : Span) (st' : State),
    get_token 7 (Parser_new "f" (stream_of "1.2.3 + x") [])
      = Done (mkToken tok_number "1.2.3" sp) st' /\
    pos (src st') = 5%nat /\
    data (src st') = list_ascii_of_string "1.2.3 + x" /\
    same_members (Parser_new "f" (stream_of "1.2.3 + x") []) st'.
Proof.
  apply (get_token_number (H := sample_hpp) 6
           (Parser_new "f" (stream_of "1.2.3 + x") [])
           (list_ascii_of_string "1.2.3") (list_ascii_of_string " + x")).
  - reflexivity.
  - reflexivity.
  - reflexivity.
  - simpl. lia.
  - reflexivity.
  - reflexivity.
  - simpl. lia.
Defined.

(** A lone ['.'] is a number token as well. *)
Example get_token_lone_dot :
  exists (sp : Span) (st' : State),
    get_token 3 (Parser_new "f" (stream_of ".") []) = Done (mkToken tok_number "." sp) st'.
Proof. eexists _, _. vm_compute. reflexivity. Qed.

(** The lexer has no case for [let]: the word is an identifier. *)
Example get_token_let_is_identifier :
  exists (sp : Span) (st' : State),
    get_token 9 (Parser_new "f" (stream_of "let x = 1") [])
    = Done (mkToken tok_identifier "let" sp) st'.
Proof. eexists _, _. vm_compute. reflexivity. Qed.
Lemma get_token_terminates_witness :
  exists t st', get_token 10 (sample_parser "fn f") = Done t st' /\
    (remaining (src st') <= remaining (src (sample_parser "fn f")))%nat /\
    (length (_buffer st') <= length (_buffer (sample_parser "fn f")))%nat /\
    data (src st') = data (src (sample_parser "fn f")) /\
    cur_token st' = cur_token (sample_parser "fn f") /\
    binop_prec st' = binop_prec (sample_parser "fn f") /\
    stderr st' = stderr (sample_parser "fn f").
Proof.
  apply (get_token_terminates 10 (sample_parser "fn f")).
  vm_compute. lia.
Defined.

Lemma get_token_at_end_witness :
  exists st',
    get_token 2 (sample_parser "")
      = Done (mkToken tok_eof EmptyString
                (span_set_begin 0
                   (span_set_end (span_begin (span (sample_parser "")))
                      (span (sample_parser ""))))) st' /\
    at_end (src st') = true /\ _buffer st' = [] /\
    pos (src st') = pos (src (sample_parser "")) /\
    lex_frame (sample_parser "") st'.
Proof.
  apply (get_token_at_end 0 (sample_parser "")); reflexivity.
Defined.

Lemma get_token_word_witness :
  exists (sp : Span) (st' : State),
    get_token 8 (sample_parser "extern foo")
      = Done (mkToken (word_code (string_of_list_ascii (list_ascii_of_string "extern")))
                      (string_of_list_ascii (list_ascii_of_string "extern")) sp) st' /\
    pos (src st') = (pos (src (sample_parser "extern foo")) + 6)%nat /\
    lex_frame (sample_parser "extern foo") st'.
Proof.
  apply (get_token_word 7 (sample_parser "extern foo") "e"%char
           (list_ascii_of_string "xtern") (list_ascii_of_string " foo")).
  - reflexivity.
  - reflexivity.
  - reflexivity.
  - reflexivity.
  - reflexivity.
  - reflexivity.
  - simpl. lia.
Defined.

Lemma get_token_skips_blanks_witness :
  exists st1,
    src st1 = set_pos (pos (src (sample_bytes
                [" "%char; ascii_of_nat 194; ascii_of_nat 160; ascii_of_nat 10; "x"%char])) + 4)
                (src (sample_bytes
                [" "%char; ascii_of_nat 194; ascii_of_nat 160; ascii_of_nat 10; "x"%char])) /\
    lex_frame (sample_bytes
                [" "%char; ascii_of_nat 194; ascii_of_nat 160; ascii_of_nat 10; "x"%char]) st1 /\
    get_token 6 (sample_bytes
                [" "%char; ascii_of_nat 194; ascii_of_nat 160; ascii_of_nat 10; "x"%char])
    = get_token 6 st1.
Proof.
  apply (get_token_skips_blanks 5
           (sample_bytes [" "%char; ascii_of_nat 194; ascii_of_nat 160; ascii_of_nat 10; "x"%char])
           [" "%char; ascii_of_nat 194; ascii_of_nat 160; ascii_of_nat 10] ["x"%char]).
  - reflexivity.
  - reflexivity.
  - reflexivity.
  - reflexivity.
  - reflexivity.
  - simpl. lia.
Defined.



Lemma get_token_char_witness :
  exists (sp : Span) (st' : State),
    get_token 2 (sample_parser "+ 1")
      = Done (mkToken (if to_int_type "+"%char <? 128 then to_int_type "+"%char
                       else to_int_type "+"%char - 256)
                      (String "+"%char EmptyString) sp) st' /\
    src st' = set_pos (S (pos (src (sample_parser "+ 1")))) (src (sample_parser "+ 1")) /\
    lex_frame (sample_parser "+ 1") st'.
Proof.
  apply (get_token_char 1 (sample_parser "+ 1") "+"%char (list_ascii_of_string " 1")).
  - reflexivity.
  - reflexivity.
  - reflexivity.
  - reflexivity.
  - reflexivity.
  - lia.
Defined.

Lemma peek_token_reads_nothing_witness :
  exists st',
    peek_token 5 2 sample_buffered = Done 40 st' /\
    st' = set_buffer (_buffer st') sample_buffered /\
    _buffer st' ≡ₚ _buffer sample_buffered /\
    40 ∈ type <$> (option_list (cur_token sample_buffered) ++ _buffer sample_buffered).
Proof.
  eexists. split.
  - vm_compute. reflexivity.
  - apply (peek_token_reads_nothing 5 2 sample_buffered). vm_compute. reflexivity.
Defined.

Lemma parse_identifier_undefined_witness :
  parse_primary 1 (sample_started "x + 1") = Undefined /\
  parse_expr 2 (sample_started "x + 1") = Undefined /\
  parse_tle 2 (sample_started "x + 1") = Undefined.
Proof.
  apply (parse_identifier_undefined 0 (sample_started "x + 1")
           (sample_token (sample_parser "x + 1") 0)).
  - reflexivity.
  - vm_compute. reflexivity.
  - reflexivity.
Defined.


Lemma parse_prototype_comma_led_witness :
  parse_prototype 50 (sample_started "f(,x,y) 1")
  = Done (Some (mkPrototype (lexeme (sample_token (sample_parser "f(,x,y) 1") 0))
                            ["x"; "y"] None))
         (at_lexer (lexed_to 40 7 (sample_started "f(,x,y) 1"))
            (Some (sample_token (sample_started "f(,x,y) 1") 6))
            (binop_prec (sample_started "f(,x,y) 1"))
            (stderr (sample_started "f(,x,y) 1"))).
Proof.
  apply (parse_prototype_comma_led 40 50 (sample_started "f(,x,y) 1")
           (lexed_to 40 7 (sample_started "f(,x,y) 1")) ["x"; "y"]
           (sample_token (sample_parser "f(,x,y) 1") 0)
           (sample_token (sample_started "f(,x,y) 1") 0)
           (sample_token (sample_started "f(,x,y) 1") 5)
           (sample_token (sample_started "f(,x,y) 1") 6)
           [sample_token (sample_started "f(,x,y) 1") 1;
            sample_token (sample_started "f(,x,y) 1") 2;
            sample_token (sample_started "f(,x,y) 1") 3;
            sample_token (sample_started "f(,x,y) 1") 4]).
  - vm_compute. reflexivity.
  - reflexivity.
  - vm_compute. reflexivity.
  - reflexivity.
  - reflexivity.
  - reflexivity.
  - simpl. lia.
Defined.

Lemma parse_prototype_rejects_witness :
  parse_prototype 41 (sample_started "f(x)")
  = Done None
      (at_lexer (lexed_to 40 2 (sample_started "f(x)"))
         (Some (sample_token (sample_started "f(x)") 1))
         (binop_prec (sample_started "f(x)"))
         (stderr (sample_started "f(x)")
            ++ ["parse error:<unknown>: expected ','";
                "parse error:<unknown>: ')' expected"])).
Proof.
  apply (parse_prototype_rejects 40 41 (sample_started "f(x)")
           (lexed_to 40 2 (sample_started "f(x)"))
           (sample_token (sample_parser "f(x)") 0)
           (sample_token (sample_started "f(x)") 0)
           (sample_token (sample_started "f(x)") 1)).
  - vm_compute. reflexivity.
  - reflexivity.
  - vm_compute. reflexivity.
  - reflexivity.
  - vm_compute. lia.
  - vm_compute. lia.
  - lia.
Defined.


Lemma parse_expr_left_assoc_witness :
  exists tbl,
    same_prec tbl (binop_prec (sample_started "1 - 2 - 3;")) /\
    parse_expr 50 (sample_started "1 - 2 - 3;")
      = Done (Some (merge_left (number_node (sample_token (sample_parser "1 - 2 - 3;") 0))
                      [(sample_token (sample_started "1 - 2 - 3;") 0,
                        sample_token (sample_started "1 - 2 - 3;") 1);
                       (sample_token (sample_started "1 - 2 - 3;") 2,
                        sample_token (sample_started "1 - 2 - 3;") 3)]))
             (at_lexer (lexed_to 40 5 (sample_started "1 - 2 - 3;"))
                (Some (sample_token (sample_started "1 - 2 - 3;") 4)) tbl
                (stderr (sample_started "1 - 2 - 3;"))).
Proof.
  apply (parse_expr_left_assoc 40 50 (sample_started "1 - 2 - 3;")
           (lexed_to 40 5 (sample_started "1 - 2 - 3;"))
           (sample_token (sample_parser "1 - 2 - 3;") 0)
           (sample_token (sample_started "1 - 2 - 3;") 4)
           [(sample_token (sample_started "1 - 2 - 3;") 0,
             sample_token (sample_started "1 - 2 - 3;") 1);
            (sample_token (sample_started "1 - 2 - 3;") 2,
             sample_token (sample_started "1 - 2 - 3;") 3)]).
  - reflexivity.
  - vm_compute. reflexivity.
  - reflexivity.
  - vm_compute. reflexivity.
  - vm_compute. reflexivity.
  - vm_compute. reflexivity.
  - vm_compute. reflexivity.
  - simpl. lia.
Defined.

Lemma parse_expr_tighter_right_witness :
  exists tbl,
    same_prec tbl (binop_prec (sample_started "1 + 2 * 3;")) /\
    parse_expr 50 (sample_started "1 + 2 * 3;")
      = Done (Some (BinaryExpr (type (sample_token (sample_started "1 + 2 * 3;") 0))
                      (number_node (sample_token (sample_parser "1 + 2 * 3;") 0))
                      (BinaryExpr (type (sample_token (sample_started "1 + 2 * 3;") 2))
                         (number_node (sample_token (sample_started "1 + 2 * 3;") 1))
                         (number_node (sample_token (sample_started "1 + 2 * 3;") 3))
                         (tok_span (sample_token (sample_started "1 + 2 * 3;") 1)))
                      (tok_span (sample_token (sample_parser "1 + 2 * 3;") 0))))
             (at_lexer (lexed_to 40 5 (sample_started "1 + 2 * 3;"))
                (Some (sample_token (sample_started "1 + 2 * 3;") 4)) tbl
                (stderr (sample_started "1 + 2 * 3;"))).
Proof.
  apply (parse_expr_tighter_right 40 50 (sample_started "1 + 2 * 3;")
           (lexed_to 40 5 (sample_started "1 + 2 * 3;"))
           (sample_token (sample_parser "1 + 2 * 3;") 0)
           (sample_token (sample_started "1 + 2 * 3;") 0)
           (sample_token (sample_started "1 + 2 * 3;") 1)
           (sample_token (sample_started "1 + 2 * 3;") 2)
           (sample_token (sample_started "1 + 2 * 3;") 3)
           (sample_token (sample_started "1 + 2 * 3;") 4)).
  - reflexivity.
  - vm_compute. reflexivity.
  - vm_compute. reflexivity.
  - reflexivity.
  - reflexivity.
  - reflexivity.
  - vm_compute. reflexivity.
  - vm_compute. reflexivity.
  - vm_compute. reflexivity.
  - lia.
Defined.

Lemma parse_function_accepts_witness :
  exists tbl,
    same_prec tbl (binop_prec (sample_started "fn f(,x) 1 + 2;")) /\
    parse_function 50 (sample_started "fn f(,x) 1 + 2;")
      = Done (Some (mkFunction
                      (mkPrototype (lexeme (sample_token (sample_started "fn f(,x) 1 + 2;") 0))
                                   ["x"] None)
                      (merge_left
                         (number_node (sample_token (sample_started "fn f(,x) 1 + 2;") 5))
                         [(sample_token (sample_started "fn f(,x) 1 + 2;") 6,
                           sample_token (sample_started "fn f(,x) 1 + 2;") 7)])))
             (at_lexer (lexed_to 40 9 (sample_started "fn f(,x) 1 + 2;"))
                (Some (sample_token (sample_started "fn f(,x) 1 + 2;") 8)) tbl
                (stderr (sample_started "fn f(,x) 1 + 2;"))).
Proof.
  apply (parse_function_accepts 40 50 (sample_started "fn f(,x) 1 + 2;")
           (lexed_to 40 9 (sample_started "fn f(,x) 1 + 2;")) ["x"]
           (sample_token (sample_started "fn f(,x) 1 + 2;") 0)
           (sample_token (sample_started "fn f(,x) 1 + 2;") 1)
           (sample_token (sample_started "fn f(,x) 1 + 2;") 4)
           (sample_token (sample_started "fn f(,x) 1 + 2;") 5)
           (sample_token (sample_started "fn f(,x) 1 + 2;") 8)
           [sample_token (sample_started "fn f(,x) 1 + 2;") 2;
            sample_token (sample_started "fn f(,x) 1 + 2;") 3]
           [(sample_token (sample_started "fn f(,x) 1 + 2;") 6,
             sample_token (sample_started "fn f(,x) 1 + 2;") 7)]).
  - reflexivity.
  - vm_compute. reflexivity.
  - reflexivity.
  - reflexivity.
  - reflexivity.
  - reflexivity.
  - reflexivity.
  - vm_compute. reflexivity.
  - vm_compute. reflexivity.
  - vm_compute. reflexivity.
  - simpl. lia.
Defined.

Lemma parse_extern_accepts_witness :
  parse_extern 50 (sample_started "extern sin(,x) 1")
  = Done (Some (mkPrototype (lexeme (sample_token (sample_started "extern sin(,x) 1") 0))
                            ["x"] (Some true)))
         (at_lexer (lexed_to 40 6 (sample_started "extern sin(,x) 1"))
            (Some (sample_token (sample_started "extern sin(,x) 1") 5))
            (binop_prec (sample_started "extern sin(,x) 1"))
            (stderr (sample_started "extern sin(,x) 1"))).
Proof.
  apply (parse_extern_accepts 40 50 (sample_started "extern sin(,x) 1")
           (lexed_to 40 6 (sample_started "extern sin(,x) 1")) ["x"]
           (sample_token (sample_started "extern sin(,x) 1") 0)
           (sample_token (sample_started "extern sin(,x) 1") 1)
           (sample_token (sample_started "extern sin(,x) 1") 4)
           (sample_token (sample_started "extern sin(,x) 1") 5)
           [sample_token (sample_started "extern sin(,x) 1") 2;
            sample_token (sample_started "extern sin(,x) 1") 3]).
  - vm_compute. reflexivity.
  - reflexivity.
  - reflexivity.
  - reflexivity.
  - reflexivity.
  - simpl. lia.
Defined.

Lemma parse_function_rejects_witness :
  parse_function 50 (sample_started "fn f() { 1 }")
  = Done None
      (at_lexer (lexed_to 40 4 (sample_started "fn f() { 1 }"))
         (Some (sample_token (sample_started "fn f() { 1 }") 3))
         (binop_prec (sample_started "fn f() { 1 }"))
         (stderr (sample_started "fn f() { 1 }")
            ++ [String.append "parse error:<unknown>: "
                  (format_d "unknown token (%d) when expecting an expression"
                            (type (sample_token (sample_started "fn f() { 1 }") 3)))])).
Proof.
  apply (parse_function_rejects 40 50 (sample_started "fn f() { 1 }")
           (lexed_to 40 4 (sample_started "fn f() { 1 }")) []
           (sample_token (sample_started "fn f() { 1 }") 0)
           (sample_token (sample_started "fn f() { 1 }") 1)
           (sample_token (sample_started "fn f() { 1 }") 2)
           (sample_token (sample_started "fn f() { 1 }") 3)
           []).
  - vm_compute. reflexivity.
  - reflexivity.
  - reflexivity.
  - reflexivity.
  - reflexivity.
  - vm_compute. lia.
  - vm_compute. lia.
  - vm_compute. lia.
  - simpl. lia.
Defined.

Lemma parse_expr_parens_witness :
  exists tbl,
    same_prec tbl (binop_prec (sample_started "(1 + 2) * 3;")) /\
    parse_expr 50 (sample_started "(1 + 2) * 3;")
      = Done (Some (merge_left
                      (merge_left
                         (number_node (sample_token (sample_started "(1 + 2) * 3;") 0))
                         [(sample_token (sample_started "(1 + 2) * 3;") 1,
                           sample_token (sample_started "(1 + 2) * 3;") 2)])
                      [(sample_token (sample_started "(1 + 2) * 3;") 4,
                        sample_token (sample_started "(1 + 2) * 3;") 5)]))
             (at_lexer (lexed_to 40 7 (sample_started "(1 + 2) * 3;"))
                (Some (sample_token (sample_started "(1 + 2) * 3;") 6)) tbl
                (stderr (sample_started "(1 + 2) * 3;"))).
Proof.
  apply (parse_expr_parens 40 50 (sample_started "(1 + 2) * 3;")
           (lexed_to 40 7 (sample_started "(1 + 2) * 3;"))
           (sample_token (sample_parser "(1 + 2) * 3;") 0)
           (sample_token (sample_started "(1 + 2) * 3;") 0)
           (sample_token (sample_started "(1 + 2) * 3;") 3)
           (sample_token (sample_started "(1 + 2) * 3;") 6)
           [(sample_token (sample_started "(1 + 2) * 3;") 1,
             sample_token (sample_started "(1 + 2) * 3;") 2)]
           [(sample_token (sample_started "(1 + 2) * 3;") 4,
             sample_token (sample_started "(1 + 2) * 3;") 5)]).
  - reflexivity.
  - vm_compute. reflexivity.
  - reflexivity.
  - vm_compute. reflexivity.
  - reflexivity.
  - reflexivity.
  - vm_compute. reflexivity.
  - vm_compute. reflexivity.
  - vm_compute. reflexivity.
  - vm_compute. reflexivity.
  - vm_compute. reflexivity.
  - vm_compute. reflexivity.
  - simpl. lia.
Defined.

Lemma parse_call_expr_numbers_witness :
  exists tbl,
    same_prec tbl (binop_prec (sample_started "f(1, 2);")) /\
    parse_call_expr 50 (sample_started "f(1, 2);")
      = Done (Some (CallExpr (lexeme (sample_token (sample_parser "f(1, 2);") 0))
                      (number_node (sample_token (sample_started "f(1, 2);") 1)
                       :: map (fun ca => number_node (snd ca))
                            [(sample_token (sample_started "f(1, 2);") 2,
                              sample_token (sample_started "f(1, 2);") 3)])
                      (span_rangeFrom
                         (tok_span (sample_token (sample_started "f(1, 2);") 5))
                         (tok_span (sample_token (sample_started "f(1, 2);") 0)))))
             (at_lexer (lexed_to 40 6 (sample_started "f(1, 2);"))
                (Some (sample_token (sample_started "f(1, 2);") 5)) tbl
                (stderr (sample_started "f(1, 2);"))).
Proof.
  apply (parse_call_expr_numbers 40 50 (sample_started "f(1, 2);")
           (lexed_to 40 6 (sample_started "f(1, 2);"))
           (sample_token (sample_parser "f(1, 2);") 0)
           (sample_token (sample_started "f(1, 2);") 0)
           (sample_token (sample_started "f(1, 2);") 1)
           (sample_token (sample_started "f(1, 2);") 4)
           (sample_token (sample_started "f(1, 2);") 5)
           [(sample_token (sample_started "f(1, 2);") 2,
             sample_token (sample_started "f(1, 2);") 3)]).
  - reflexivity.
  - vm_compute. reflexivity.
  - reflexivity.
  - vm_compute. reflexivity.
  - reflexivity.
  - reflexivity.
  - reflexivity.
  - vm_compute. reflexivity.
  - vm_compute. reflexivity.
  - simpl. lia.
Defined.

Lemma tok_to_string_distinct_witness :
  43 = 299 \/
  ((43 ∉ token_enumerators) /\ (299 ∉ token_enumerators) /\ 43 mod 256 = 299 mod 256).
Proof.
  apply (tok_to_string_distinct 43 299). reflexivity.
Defined.
